(** * goldfish: deep watch, lifecycle buckets, global-data accessor,
      dependency finder and PDS environment substitution

    A shallow embedding of

    - [packages/reactive/src/watchDeep.ts]            (module [DeepWatch])
    - [packages/react/src/ComponentSetup.ts]          (module [Lifecycle])
    - [packages/hooks/src/hooks/useGlobalData.ts]     (module [GlobalData])
    - [packages/pre-build/src/findMiniDependencies/findJsDependencyModules.ts]
                                                       (module [Finder])
    - [packages/pre-build/src/createPDSGulpConfig.ts] (module [PDS])

    JavaScript objects live in an explicit heap, closures that share a
    mutable array are modelled by the store they share, and every function
    that has an effect threads the state it touches. *)

From stdpp Require Import base tactics option list gmap strings.
From Stdlib Require Import ZArith Lia Sorted.

Open Scope string_scope.
Open Scope list_scope.

(** ** JavaScript values *)

(** A heap address: the identity of an object, array or function. *)
Definition loc := nat.

(** A property key as the deep-watch walk produces it: a numeric array
    index ([forEach]'s second argument) or a string ([for ... in]). *)
Inductive key :=
| KIndex (i : nat)
| KName (s : string).

(** Numbers are kept to the integers (and NaN); a reference carries the
    address of the object it denotes, so [===] on references is identity. *)
Inductive value :=
| VUndefined
| VNull
| VBool (b : bool)
| VNum (n : Z)
| VNaN
| VStr (s : string)
| VFun (l : loc)
| VObj (l : loc).

Arguments VNum n%_Z.

#[global] Instance key_eq_dec : EqDecision key.
Proof. solve_decision. Defined.

#[global] Instance value_eq_dec : EqDecision value.
Proof. solve_decision. Defined.

(** [typeof v]. *)
Definition typeof (v : value) : string :=
  match v with
  | VUndefined => "undefined"
  | VNull => "object"
  | VBool _ => "boolean"
  | VNum _ | VNaN => "number"
  | VStr _ => "string"
  | VFun _ => "function"
  | VObj _ => "object"
  end.

(** ToBoolean, as used by [&&] and [if]. *)
Definition truthy (v : value) : bool :=
  match v with
  | VUndefined | VNull | VNaN => false
  | VBool b => b
  | VNum n => negb (Z.eqb n 0)
  | VStr s => negb (String.eqb s "")
  | VFun _ | VObj _ => true
  end.

(** [a === b]: NaN is not equal to itself, everything else compares by
    value (primitives) or by address (references). *)
Definition strict_eq (a b : value) : bool :=
  match a, b with
  | VNaN, _ | _, VNaN => false
  | _, _ => bool_decide (a = b)
  end.

(** [a !== b]. *)
Definition strict_neq (a b : value) : bool := negb (strict_eq a b).

(** ** ComponentSetup: the three disposer buckets *)

Module Lifecycle.

Section Buckets.

(** The environment the disposers act on, the identity of a function object
    and the effect of calling it.  A disposer is a zero-argument callback that
    returns normally and does not call back into the component it is
    registered with. *)
Variable World : Type.
Variable Fn : Type.
Variable call : Fn -> World -> World.

(** The private fields of the class. *)
Record ComponentSetup := mkComponentSetup {
  stopList : list Fn;
  stopAutorunList : list Fn;
  stopWatchList : list Fn
}.

(** The component together with the world and the trace of the calls made
    so far, oldest first. *)
Record state := mkState {
  comp : ComponentSetup;
  world : World;
  calls : list Fn
}.

(** The field initialisers: three empty arrays. *)
Definition new_ComponentSetup : ComponentSetup :=
  mkComponentSetup [] [] [].

(** [s()] *)
Definition invoke (w : World * list Fn) (s : Fn) : World * list Fn :=
  (call s (fst w), snd w ++ [s]).

(** [list.forEach(s => s())] *)
Definition forEach (l : list Fn) (w : World * list Fn) : World * list Fn :=
  fold_left invoke l w.

Definition setStopList (list : list Fn) (st : state) : state :=
  mkState
    (mkComponentSetup list (stopAutorunList (comp st)) (stopWatchList (comp st)))
    (world st) (calls st).

Definition removeAllStopList (st : state) : state :=
  let r := forEach (stopList (comp st)) (world st, calls st) in
  mkState
    (mkComponentSetup [] (stopAutorunList (comp st)) (stopWatchList (comp st)))
    (fst r) (snd r).

Definition addAutorunStopFn (fn : Fn) (st : state) : state :=
  mkState
    (mkComponentSetup (stopList (comp st)) (stopAutorunList (comp st) ++ [fn])
       (stopWatchList (comp st)))
    (world st) (calls st).

Definition stopAllAutorun (st : state) : state :=
  let r := forEach (stopAutorunList (comp st)) (world st, calls st) in
  mkState
    (mkComponentSetup (stopList (comp st)) [] (stopWatchList (comp st)))
    (fst r) (snd r).

Definition addWatchStopFn (fn : Fn) (st : state) : state :=
  mkState
    (mkComponentSetup (stopList (comp st)) (stopAutorunList (comp st))
       (stopWatchList (comp st) ++ [fn]))
    (world st) (calls st).

Definition stopAllWatch (st : state) : state :=
  let r := forEach (stopWatchList (comp st)) (world st, calls st) in
  mkState
    (mkComponentSetup (stopList (comp st)) (stopAutorunList (comp st)) [])
    (fst r) (snd r).

(** The three buckets, to state a property once for all of them. *)
Inductive bucket := General | Autorun | Watch.

Definition bucket_of (b : bucket) (c : ComponentSetup) : list Fn :=
  match b with
  | General => stopList c
  | Autorun => stopAutorunList c
  | Watch => stopWatchList c
  end.

Definition clear_all (b : bucket) : state -> state :=
  match b with
  | General => removeAllStopList
  | Autorun => stopAllAutorun
  | Watch => stopAllWatch
  end.

(** Registration of the disposers [fns], in that order: the autorun and
    the watch bucket take them one by one, the general bucket has no [add]
    and takes the list whole. *)
Definition register (b : bucket) (fns : list Fn) (st : state) : state :=
  match b with
  | General => setStopList fns st
  | Autorun => fold_left (fun st fn => addAutorunStopFn fn st) fns st
  | Watch => fold_left (fun st fn => addWatchStopFn fn st) fns st
  end.

Lemma forEach_calls l w :
  snd (forEach l w) = snd w ++ l.
Proof.
  unfold forEach. revert w. induction l as [|s l IH]; intros w.
  - simpl. by rewrite app_nil_r.
  - cbn [fold_left]. rewrite IH. unfold invoke. cbn [snd].
    by rewrite <- app_assoc.
Qed.

Lemma forEach_world l w :
  fst (forEach l w) = fold_left (fun w s => call s w) l (fst w).
Proof.
  unfold forEach. revert w. induction l as [|s l IH]; intros w; [done|].
  cbn [fold_left]. by rewrite IH.
Qed.

Lemma clear_all_calls b st :
  calls (clear_all b st) = calls st ++ bucket_of b (comp st).
Proof. destruct b; simpl; apply forEach_calls. Qed.

Lemma clear_all_bucket b st :
  bucket_of b (comp (clear_all b st)) = [].
Proof. by destruct b. Qed.

Lemma clear_all_frame b b' st :
  b <> b' -> bucket_of b' (comp (clear_all b st)) = bucket_of b' (comp st).
Proof. by destruct b, b'. Qed.

Lemma clear_all_empty b st :
  bucket_of b (comp st) = [] -> clear_all b st = st.
Proof.
  destruct st as [[g a w] wd t]; destruct b; simpl; intros ->; reflexivity.
Qed.

Lemma register_autorun fns : forall st,
  stopAutorunList (comp (fold_left (fun st fn => addAutorunStopFn fn st) fns st))
  = stopAutorunList (comp st) ++ fns.
Proof.
  induction fns as [|fn fns IH]; intros st; cbn [fold_left].
  - by rewrite app_nil_r.
  - rewrite IH. simpl. by rewrite <- app_assoc.
Qed.

Lemma register_watch fns : forall st,
  stopWatchList (comp (fold_left (fun st fn => addWatchStopFn fn st) fns st))
  = stopWatchList (comp st) ++ fns.
Proof.
  induction fns as [|fn fns IH]; intros st; cbn [fold_left].
  - by rewrite app_nil_r.
  - rewrite IH. simpl. by rewrite <- app_assoc.
Qed.

Lemma register_calls b fns : forall st, calls (register b fns st) = calls st.
Proof.
  destruct b; simpl; [done| |]; induction fns as [|fn fns IH]; intros st;
    cbn [fold_left]; try done; by rewrite IH.
Qed.

Lemma register_after_clear b fns st :
  bucket_of b (comp st) = [] -> bucket_of b (comp (register b fns st)) = fns.
Proof.
  destruct b; simpl; intros H; [done| |].
  - by rewrite register_autorun, H.
  - by rewrite register_watch, H.
Qed.

(** C3. For each of the three buckets, the clear-all operation calls every
    entry of the bucket, in insertion order and each entry once (the calls it
    adds to the trace are exactly the bucket's list, and the world is the
    result of running them left to right), then leaves the bucket empty; a
    second clear right after it changes nothing; and the disposers registered
    after a clear are the whole bucket: the next clear calls them and no
    other. *)
Theorem clear_all_once_in_order (b : bucket) (st : state) :
  let st1 := clear_all b st in
  calls st1 = calls st ++ bucket_of b (comp st) /\
  world st1 = fold_left (fun w s => call s w) (bucket_of b (comp st)) (world st) /\
  bucket_of b (comp st1) = [] /\
  clear_all b st1 = st1 /\
  (forall fns,
     bucket_of b (comp (register b fns st1)) = fns /\
     calls (clear_all b (register b fns st1)) = calls st1 ++ fns).
Proof.
  simpl. split; [apply clear_all_calls|].
  split; [destruct b; simpl; apply forEach_world|].
  split; [apply clear_all_bucket|].
  split; [apply clear_all_empty, clear_all_bucket|].
  intros fns.
  assert (H : bucket_of b (comp (register b fns (clear_all b st))) = fns)
    by apply register_after_clear, clear_all_bucket.
  split; [done|]. by rewrite clear_all_calls, H, register_calls.
Qed.

(** C7. [stopAllWatch] calls exactly the entries of the watch bucket and
    leaves the autorun and the general bucket as they were, so that a later
    [stopAllAutorun] still calls every autorun disposer; and the same with
    the two buckets exchanged. *)
Theorem stopAll_bucket_isolation (st : state) :
  (calls (stopAllWatch st) = calls st ++ stopWatchList (comp st) /\
   stopAutorunList (comp (stopAllWatch st)) = stopAutorunList (comp st) /\
   stopList (comp (stopAllWatch st)) = stopList (comp st) /\
   calls (stopAllAutorun (stopAllWatch st))
   = calls st ++ stopWatchList (comp st) ++ stopAutorunList (comp st)) /\
  (calls (stopAllAutorun st) = calls st ++ stopAutorunList (comp st) /\
   stopWatchList (comp (stopAllAutorun st)) = stopWatchList (comp st) /\
   stopList (comp (stopAllAutorun st)) = stopList (comp st) /\
   calls (stopAllWatch (stopAllAutorun st))
   = calls st ++ stopAutorunList (comp st) ++ stopWatchList (comp st)).
Proof.
  assert (HW : forall s, calls (stopAllWatch s) = calls s ++ stopWatchList (comp s))
    by (intros s; apply (clear_all_calls Watch)).
  assert (HA : forall s, calls (stopAllAutorun s) = calls s ++ stopAutorunList (comp s))
    by (intros s; apply (clear_all_calls Autorun)).
  repeat split; try reflexivity.
  - apply HW.
  - rewrite HA, HW. cbn. by rewrite <- app_assoc.
  - apply HA.
  - rewrite HW, HA. cbn. by rewrite <- app_assoc.
Qed.

(** [setStopList] replaces the general bucket and calls nothing: the next
    [removeAllStopList] calls exactly the new list, so the disposers that
    were in the bucket before are dropped without ever being called by the
    component; the autorun and the watch bucket are not touched. *)
Theorem setStopList_drops_previous (l : list Fn) (st : state) :
  calls (setStopList l st) = calls st /\
  world (setStopList l st) = world st /\
  calls (removeAllStopList (setStopList l st)) = calls st ++ l /\
  stopAutorunList (comp (removeAllStopList (setStopList l st)))
  = stopAutorunList (comp st) /\
  stopWatchList (comp (removeAllStopList (setStopList l st)))
  = stopWatchList (comp st).
Proof.
  repeat split; try reflexivity.
  apply (clear_all_calls General (setStopList l st)).
Qed.

(** Clearing all three buckets, in whatever order, brings the component
    back to its initial state and calls every registered disposer once,
    bucket by bucket in the order of the clears; doing it again calls
    nothing. *)
Theorem clear_every_bucket (b1 b2 b3 : bucket) (st : state) :
  b1 <> b2 -> b1 <> b3 -> b2 <> b3 ->
  let st' := clear_all b3 (clear_all b2 (clear_all b1 st)) in
  comp st' = new_ComponentSetup /\
  calls st' = calls st ++ bucket_of b1 (comp st) ++ bucket_of b2 (comp st)
                ++ bucket_of b3 (comp st) /\
  clear_all b3 (clear_all b2 (clear_all b1 st')) = st'.
Proof.
  intros H12 H13 H23. simpl.
  assert (Hc : comp (clear_all b3 (clear_all b2 (clear_all b1 st)))
               = new_ComponentSetup)
    by (destruct b1, b2, b3; done).
  split; [done|]. split.
  - rewrite !clear_all_calls.
    rewrite (clear_all_frame b2 b3) by done.
    rewrite (clear_all_frame b1 b3), (clear_all_frame b1 b2) by done.
    by rewrite <- !app_assoc.
  - set (st' := clear_all b3 _) in *.
    assert (E : forall b, clear_all b st' = st').
    { intros b. apply clear_all_empty. rewrite Hc. by destruct b. }
    by rewrite !E.
Qed.

End Buckets.

(** [clear_every_bucket] on a component with one disposer in each bucket. *)
Lemma clear_every_bucket_witness :
  let call := fun (_ : nat) (w : unit) => w in
  let st := mkState unit nat (mkComponentSetup nat [1%nat] [2%nat] [3%nat]) tt [] in
  calls unit nat
    (clear_all unit nat call General
       (clear_all unit nat call Autorun (clear_all unit nat call Watch st)))
  = [3%nat; 2%nat; 1%nat].
Proof.
  intros call st.
  refine (proj1 (proj2 (clear_every_bucket unit nat call Watch Autorun General st _ _ _)));
    discriminate.
Defined.

End Lifecycle.

(** ** useGlobalData: the keyed accessor over the shared store *)

Module GlobalData.

(** What the lookup of a name finds on the prototype chain of an object,
    past the object's own properties: nothing, a writable data property
    ([constructor], [toString], ... of [Object.prototype]), or the
    accessor [__proto__] of [Object.prototype]. *)
Inductive inherited_property :=
| Absent
| DataProperty (v : value)
| ProtoAccessor.

(** What the hook touches: the object [realGlobal.data], with its own
    properties in [data] and its prototype in [proto] ([null] or an
    object), and the state cell behind [useState(0)].  The cell counts
    renders, so it stays in the range where [counter + 1] is exact. *)
Record HookState := mkHookState {
  data : gmap string value;
  proto : value;
  counterCell : Z
}.

(** The object returned by one call of the hook: its two closures share the
    constant [counter] read from the cell when the hook ran. *)
Record accessor := mkAccessor {
  counter : Z
}.

(** Modelled from the spec: [useState] of [./useState], which is not among
    the sources.  [const [counter, setCounter] = useState(0)] reads the cell
    of the re-render counter and [setCounter(n)] stores [n] in it. *)
Definition useState (st : HookState) : Z := counterCell st.

Definition setCounter (n : Z) (st : HookState) : HookState :=
  mkHookState (data st) (proto st) n.

Definition useGlobalData (st : HookState) : accessor :=
  mkAccessor (useState st).

(** What the [__proto__] setter accepts as a prototype. *)
Definition is_object_or_null (v : value) : bool :=
  match v with
  | VObj _ | VFun _ | VNull => true
  | _ => false
  end.

Section PlainObject.

(** The objects on the prototype chain of [realGlobal.data] are made
    outside the sources: [chain l key] is what the lookup of [key] finds
    along the chain that starts at the object at address [l].  The data
    object is an ordinary extensible object, the data properties on its
    chain are writable, and it is on the chain of no object a value refers
    to, so that an assignment to it completes. *)
Variable chain : loc -> string -> inherited_property.

Definition find_inherited (p : value) (key : string) : inherited_property :=
  match p with
  | VObj l | VFun l => chain l key
  | _ => Absent
  end.

(** [realGlobal.data[key]]: the own property, or what the chain gives; the
    getter of [__proto__] returns the prototype of the object it is read
    from. *)
Definition get (st : HookState) (key : string) : value :=
  match data st !! key with
  | Some v => v
  | None =>
      match find_inherited (proto st) key with
      | Absent => VUndefined
      | DataProperty v => v
      | ProtoAccessor => proto st
      end
  end.

(** [realGlobal.data[key] = v]: an own property is written or made, unless
    the name has no own property and the chain answers with the accessor
    [__proto__], whose setter replaces the prototype by an object or [null]
    and ignores any other value. *)
Definition assign (key : string) (v : value) (st : HookState) : HookState :=
  match data st !! key, find_inherited (proto st) key with
  | None, ProtoAccessor =>
      if is_object_or_null v then mkHookState (data st) v (counterCell st) else st
  | _, _ => mkHookState (<[key := v]> (data st)) (proto st) (counterCell st)
  end.

Definition set (acc : accessor) (key : string) (v : value) (st : HookState)
  : HookState :=
  if strict_neq (get st key) v
  then setCounter (counter acc + 1)%Z (assign key v st)
  else st.

(** [key] is no own property of the data object and its lookup ends at the
    accessor [__proto__]. *)
Definition reaches_proto_accessor (st : HookState) (key : string) : bool :=
  match data st !! key, find_inherited (proto st) key with
  | None, ProtoAccessor => true
  | _, _ => false
  end.

(** Writes through accessors, oldest first, and the value of the last one
    made under a key. *)
Definition sets (ws : list (accessor * string * value)) (st : HookState)
  : HookState :=
  fold_left (fun s w => set w.1.1 w.1.2 w.2 s) ws st.


Lemma strict_eq_true (a b : value) : strict_eq a b = true -> a = b /\ b <> VNaN.
Proof.
  unfold strict_eq. destruct a, b; try discriminate;
    intros H; apply bool_decide_eq_true in H; by split.
Qed.

Lemma strict_neq_NaN (a : value) : strict_neq a VNaN = true.
Proof. by destruct a. Qed.

Lemma strict_neq_false (a b : value) :
  strict_neq a b = false -> a = b /\ b <> VNaN.
Proof. unfold strict_neq. intros H. by apply negb_false_iff, strict_eq_true in H. Qed.

Lemma strict_neq_refl (v : value) : v <> VNaN -> strict_neq v v = false.
Proof.
  intros H. unfold strict_neq, strict_eq.
  destruct v; try done; by rewrite bool_decide_eq_true_2.
Qed.

Lemma assign_own key v st :
  reaches_proto_accessor st key = false ->
  assign key v st = mkHookState (<[key := v]> (data st)) (proto st) (counterCell st).
Proof.
  unfold reaches_proto_accessor, assign.
  destruct (data st !! key); [done|].
  by destruct (find_inherited (proto st) key).
Qed.

Lemma set_changed acc key v st :
  reaches_proto_accessor st key = false ->
  strict_neq (get st key) v = true ->
  set acc key v st = mkHookState (<[key := v]> (data st)) (proto st) (counter acc + 1)%Z.
Proof.
  intros Hk H. unfold set. rewrite H, assign_own by done. reflexivity.
Qed.

Lemma set_unchanged acc key v st :
  strict_neq (get st key) v = false -> set acc key v st = st.
Proof. intros H. unfold set. by rewrite H. Qed.

Lemma get_set_same acc key v st :
  reaches_proto_accessor st key = false -> get (set acc key v st) key = v.
Proof.
  intros Hk. destruct (strict_neq (get st key) v) eqn:E.
  - rewrite set_changed by done. unfold get. simpl. by rewrite lookup_insert_eq.
  - rewrite set_unchanged by done. by apply strict_neq_false in E as [-> _].
Qed.


Lemma reaches_after_set acc key key' v st :
  reaches_proto_accessor st key = false ->
  reaches_proto_accessor st key' = false ->
  reaches_proto_accessor (set acc key v st) key' = false.
Proof.
  intros Hk Hk'. destruct (strict_neq (get st key) v) eqn:E.
  - rewrite set_changed by done. unfold reaches_proto_accessor in *. simpl.
    destruct (decide (key = key')) as [<-|Hne].
    + by rewrite lookup_insert_eq.
    + by rewrite lookup_insert_ne.
  - by rewrite set_unchanged.
Qed.




(** Two writes through the same accessor object both pass the [counter] of
    the render that created it to [setCounter]. *)
Lemma set_twice_same_accessor (st : HookState) (k1 k2 : string) (v1 v2 : value) :
  let acc := useGlobalData st in
  strict_neq (get st k1) v1 = true ->
  strict_neq (get (set acc k1 v1 st) k2) v2 = true ->
  counterCell (set acc k2 v2 (set acc k1 v1 st)) = (counterCell st + 1)%Z.
Proof.
  simpl. intros H1 H2. unfold set at 1. rewrite H2. reflexivity.
Qed.

Lemma sets_reaches ws : forall st key,
  Forall (fun w => reaches_proto_accessor st w.1.2 = false) ws ->
  reaches_proto_accessor st key = false ->
  reaches_proto_accessor (sets ws st) key = false.
Proof.
  induction ws as [|[[acc k] v] ws IH]; intros st key Hws Hk; [done|].
  apply Forall_cons in Hws as [Hw Hws]. simpl in Hw.
  unfold sets. cbn [fold_left]. apply IH.
  - eapply Forall_impl; [exact Hws|]. simpl. intros w Hr.
    by apply reaches_after_set.
  - by apply reaches_after_set.
Qed.


Lemma reaches_proto_object st key :
  reaches_proto_accessor st key = true ->
  data st !! key = None /\ find_inherited (proto st) key = ProtoAccessor /\
  get st key = proto st /\ is_object_or_null (proto st) = true /\
  proto st <> VNaN.
Proof.
  unfold reaches_proto_accessor, get.
  destruct (data st !! key); [done|].
  destruct (find_inherited (proto st) key) eqn:E; try done.
  intros _. repeat split; unfold find_inherited in E;
    destruct (proto st); try done.
Qed.

Lemma set_proto_primitive acc key v st :
  reaches_proto_accessor st key = true ->
  is_object_or_null v = false ->
  set acc key v st = setCounter (counter acc + 1)%Z st.
Proof.
  intros Hk Hv. destruct (reaches_proto_object st key Hk) as (Hd & Hf & Hg & Ho & Hn).
  unfold set. rewrite Hg.
  assert (Hne : strict_neq (proto st) v = true).
  { destruct (strict_neq (proto st) v) eqn:E; [done|].
    apply strict_neq_false in E as [E _]. rewrite E in Ho. congruence. }
  rewrite Hne. unfold assign. by rewrite Hd, Hf, Hv.
Qed.

(** Writing the value that [set] has just stored is a no-op, through any
    accessor, for every value but NaN and every key whose lookup does not
    end at the accessor [__proto__]; NaN is [!==] to itself, so each write
    of NaN passes [counter + 1] to [setCounter]; and a value that is
    neither an object nor [null], written under a key whose lookup ends at
    the accessor, is stored nowhere and differs from the prototype at every
    write: the store stays as it was and each write passes [counter + 1]
    to [setCounter]. *)
Theorem set_same_value_again (acc acc' : accessor) (key : string) (v : value)
    (st : HookState) :
  (reaches_proto_accessor st key = false -> v <> VNaN ->
     set acc' key v (set acc key v st) = set acc key v st) /\
  (v = VNaN ->
     counterCell (set acc' key v (set acc key v st)) = (counter acc' + 1)%Z /\
     counterCell (set acc key v st) = (counter acc + 1)%Z) /\
  (reaches_proto_accessor st key = true -> is_object_or_null v = false ->
     set acc key v st = setCounter (counter acc + 1)%Z st /\
     set acc' key v (set acc key v st) = setCounter (counter acc' + 1)%Z st).
Proof.
  split; [|split].
  - intros Hk Hv. apply set_unchanged.
    rewrite get_set_same by done. by apply strict_neq_refl.
  - intros ->. unfold set at 1. rewrite strict_neq_NaN.
    unfold set. by rewrite strict_neq_NaN.
  - intros Hk Hv. rewrite (set_proto_primitive acc) by done. split; [done|].
    by rewrite set_proto_primitive.
Qed.

End PlainObject.

(** An empty object literal has [Object.prototype] as its prototype, here
    at address 0 with its functions after it, and nothing above it. *)
Definition ObjectPrototype : loc := 0%nat.

Definition ObjectPrototype_functions : list string :=
  ["constructor"; "hasOwnProperty"; "isPrototypeOf"; "propertyIsEnumerable";
   "toLocaleString"; "toString"; "valueOf"; "__defineGetter__";
   "__defineSetter__"; "__lookupGetter__"; "__lookupSetter__"].

Fixpoint index_of (key : string) (l : list string) (i : nat) : option nat :=
  match l with
  | [] => None
  | k :: l' => if String.eqb k key then Some i else index_of key l' (S i)
  end.

Definition plain_chain (l : loc) (key : string) : inherited_property :=
  if negb (Nat.eqb l ObjectPrototype) then Absent
  else if String.eqb key "__proto__" then ProtoAccessor
  else match index_of key ObjectPrototype_functions 1 with
       | Some f => DataProperty (VFun f)
       | None => Absent
       end.

(** The object literal with the own properties [own]. *)
Definition object_literal (own : gmap string value) (cell : Z) : HookState :=
  mkHookState own (VObj ObjectPrototype) cell.




(** [set_same_value_again] on [{ n: 1 }]: writing 2 twice under [n], and
    writing 5 twice under [__proto__]. *)
Lemma set_same_value_again_witness :
  let st := object_literal {["n" := VNum 1]} 0%Z in
  set plain_chain (mkAccessor 5) "n" (VNum 2) (set plain_chain (mkAccessor 0) "n" (VNum 2) st)
  = set plain_chain (mkAccessor 0) "n" (VNum 2) st /\
  set plain_chain (mkAccessor 5) "__proto__" (VNum 5)
    (set plain_chain (mkAccessor 0) "__proto__" (VNum 5) st)
  = setCounter 6 st.
Proof.
  intros st.
  destruct (set_same_value_again plain_chain (mkAccessor 0) (mkAccessor 5) "n"
              (VNum 2) st) as (H1 & _ & _).
  destruct (set_same_value_again plain_chain (mkAccessor 0) (mkAccessor 5)
              "__proto__" (VNum 5) st) as (_ & _ & H3).
  split.
  - apply H1; [reflexivity|discriminate].
  - apply H3; reflexivity.
Defined.

(** [set_twice_same_accessor] at a store holding [{n: 1}]: two changes
    through the accessor of one render leave the counter at 1. *)
Lemma set_twice_same_accessor_witness :
  let st := object_literal {["n" := VNum 1]} 0%Z in
  counterCell (set plain_chain (useGlobalData st) "m" (VNum 3)
                 (set plain_chain (useGlobalData st) "n" (VNum 2) st)) = 1%Z.
Proof.
  intros st.
  apply (set_twice_same_accessor plain_chain st "n" "m" (VNum 2) (VNum 3)); reflexivity.
Defined.

End GlobalData.

(** ** createPDSGulpConfig: substitution of environment variables *)

Module PDS.

(** [process.env]: the variables in [Object.keys] order. *)
Definition process_env := list (string * string).

(** [process.env[key]] *)
Fixpoint env_get (env : process_env) (key : string) : option string :=
  match env with
  | [] => None
  | (k, v) :: env' => if String.eqb k key then Some v else env_get env' key
  end.

(** [o[key] = v] on an object with own string keys only: an existing key
    keeps its place in the enumeration, a new one goes last. *)
Fixpoint obj_set (o : list (string * string)) (key v : string)
  : list (string * string) :=
  match o with
  | [] => [(key, v)]
  | (k, v') :: o' =>
      if String.eqb k key then (k, v) :: o' else (k, v') :: obj_set o' key v
  end.

(** [/^GOLDFISH_APP/.test(key)] *)
Definition prefixRE_test (key : string) : bool :=
  String.prefix "GOLDFISH_APP" key.

(** The test of the [forEach] body. *)
Definition selected (key : string) : bool :=
  prefixRE_test key || String.eqb key "NODE_ENV".

(** The object [envs] after the [forEach] over [Object.keys(process.env)]. *)
Definition envs (env : process_env) : list (string * string) :=
  fold_left
    (fun acc key =>
       if selected key
       then match env_get env key with
            | Some v => obj_set acc key v
            | None => acc
            end
       else acc)
    (map fst env) [].

Section Handle.

(** A gulp stream, [stream.pipe(replace(search, replacement))] of
    gulp-replace, and [JSON.stringify] on strings. *)
Variable Stream : Type.
Variable replace : string -> string -> Stream -> Stream.
Variable JSON_stringify : string -> string.

(** The arguments of the [replace] calls, in the order of the [reduce]. *)
Definition replacements (env : process_env) : list (string * string) :=
  map (fun kv => ("process.env." +:+ fst kv, JSON_stringify (snd kv))) (envs env).

Definition pdsCustomHandle (env : process_env) (cb : Stream -> Stream)
  : Stream -> Stream :=
  fun stream =>
    cb (fold_left
          (fun _stream kv =>
             replace ("process.env." +:+ fst kv) (JSON_stringify (snd kv)) _stream)
          (envs env) stream).

End Handle.

Arguments pdsCustomHandle {Stream} replace JSON_stringify env cb _.

(** [Object.keys] lists every variable once. *)
Definition wf_env (env : process_env) : Prop := NoDup (map fst env).

Lemma eqb_string_true (a b : string) : String.eqb a b = true <-> a = b.
Proof. apply String.eqb_eq. Qed.

Lemma env_get_app_notin (pre rest : process_env) (k : string) :
  k ∉ map fst pre -> env_get (pre ++ rest) k = env_get rest k.
Proof.
  induction pre as [|[k' v'] pre IH]; simpl; intros Hk; [done|].
  destruct (String.eqb k' k) eqn:E.
  - apply String.eqb_eq in E. subst. exfalso. apply Hk. left.
  - apply IH. intros Hin. apply Hk. by right.
Qed.

Lemma obj_set_fresh (o : list (string * string)) (k v : string) :
  k ∉ map fst o -> obj_set o k v = o ++ [(k, v)].
Proof.
  induction o as [|[k' v'] o IH]; simpl; intros Hk; [done|].
  destruct (String.eqb k' k) eqn:E.
  - apply String.eqb_eq in E. subst. exfalso. apply Hk. left.
  - f_equal. apply IH. intros Hin. apply Hk. by right.
Qed.

Lemma filter_keys_subset (P : string -> bool) (l : list (string * string)) (k : string) :
  k ∈ map fst (List.filter (fun kv => P (fst kv)) l) -> k ∈ map fst l.
Proof.
  induction l as [|[k' v'] l IH]; simpl; [done|].
  destruct (P k'); simpl; rewrite ?elem_of_cons; tauto.
Qed.

(** With every key listed once, [envs] is the sub-list of the selected
    variables, in the order of [process.env]. *)
Lemma envs_filter (env : process_env) :
  wf_env env -> envs env = List.filter (fun kv => selected (fst kv)) env.
Proof.
  unfold wf_env, envs. intros Hnd.
  set (step := fun acc key => if selected key then _ else acc).
  assert (G : forall rest pre, env = pre ++ rest ->
            fold_left step (map fst rest)
              (List.filter (fun kv => selected (fst kv)) pre)
            = List.filter (fun kv => selected (fst kv)) (pre ++ rest)).
  { induction rest as [|[k v] rest IH]; intros pre Heq.
    - by rewrite app_nil_r.
    - cbn [map fold_left fst].
      assert (Hk : k ∉ map fst pre).
      { rewrite Heq, map_app in Hnd. apply NoDup_app in Hnd as (_ & Hd & _).
        intros Hin. apply (Hd k Hin). simpl. left. }
      assert (Hget : env_get env k = Some v).
      { rewrite Heq, env_get_app_notin by done. simpl.
        by rewrite String.eqb_refl. }
      replace (pre ++ (k, v) :: rest) with ((pre ++ [(k, v)]) ++ rest)
        by (by rewrite <- app_assoc).
      rewrite <- IH by (by rewrite <- app_assoc).
      f_equal. unfold step. rewrite List.filter_app. simpl.
      destruct (selected k) eqn:Es.
      + rewrite Hget. apply obj_set_fresh.
        intros Hin. apply Hk. by apply filter_keys_subset in Hin.
      + by rewrite app_nil_r. }
  apply (G env []). reflexivity.
Qed.

Lemma env_get_Some_elem (env : process_env) (k v : string) :
  wf_env env -> (env_get env k = Some v <-> (k, v) ∈ env).
Proof.
  unfold wf_env. induction env as [|[k' v'] env IH]; simpl; intros Hnd.
  - split; [done|]. intros H. by apply elem_of_nil in H.
  - apply NoDup_cons in Hnd as [Hk' Hnd].
    rewrite elem_of_cons. destruct (String.eqb k' k) eqn:E.
    + apply String.eqb_eq in E. subst k'. split.
      * intros [= ->]. by left.
      * intros [[= ->]|Hin]; [done|].
        exfalso. apply Hk'. apply list_elem_of_fmap. by exists (k, v).
    + apply String.eqb_neq in E. rewrite IH by done. split; [by right|].
      intros [[= -> ->]|Hin]; [done|done].
Qed.

Lemma elem_of_envs (env : process_env) (k v : string) :
  wf_env env ->
  ((k, v) ∈ envs env <-> selected k = true /\ env_get env k = Some v).
Proof.
  intros Hwf. rewrite envs_filter by done.
  rewrite list_elem_of_In, List.filter_In, <- list_elem_of_In.
  rewrite env_get_Some_elem by done. simpl. tauto.
Qed.

Lemma envs_obj_set_unselected (env : process_env) (k v : string) :
  wf_env env -> selected k = false -> 
  List.filter (fun kv => selected (fst kv)) (obj_set env k v)
  = List.filter (fun kv => selected (fst kv)) env.
Proof.
  intros _ Hk. induction env as [|[k' v'] env IH]; simpl.
  - by rewrite Hk.
  - destruct (String.eqb k' k) eqn:E; simpl.
    + apply String.eqb_eq in E. subst k'. by rewrite Hk.
    + by rewrite IH.
Qed.

Lemma obj_set_keys_NoDup (env : process_env) (k v : string) :
  wf_env env -> wf_env (obj_set env k v).
Proof.
  unfold wf_env. induction env as [|[k' v'] env IH]; simpl; intros Hnd.
  - apply NoDup_cons. split; [apply not_elem_of_nil|apply NoDup_nil_2].
  - apply NoDup_cons in Hnd as [Hk' Hnd]. destruct (String.eqb k' k) eqn:E; simpl.
    + apply NoDup_cons. by split.
    + apply NoDup_cons. split; [|by apply IH].
      apply String.eqb_neq in E. intros Hin. apply Hk'.
      clear IH Hnd Hk'. induction env as [|[k2 v2] env IH]; simpl in *.
      * apply list_elem_of_singleton in Hin. congruence.
      * destruct (String.eqb k2 k); simpl in *; rewrite !elem_of_cons in *;
          tauto.
Qed.

Lemma assoc_eq_by_lookup (env1 env2 : process_env) (l1 l2 : list (string * string)) :
  map fst l1 = map fst l2 ->
  (forall k v, (k, v) ∈ l1 -> selected k = true /\ env_get env1 k = Some v) ->
  (forall k v, (k, v) ∈ l2 -> selected k = true /\ env_get env2 k = Some v) ->
  (forall k, selected k = true -> env_get env1 k = env_get env2 k) ->
  l1 = l2.
Proof.
  revert l2. induction l1 as [|[k v] l1 IH]; intros [|[k2 v2] l2]; simpl;
    intros Hk H1 H2 Hag; try done.
  injection Hk as -> Hk.
  destruct (H1 k2 v) as [Hs Hv1]; [left|].
  destruct (H2 k2 v2) as [_ Hv2]; [left|].
  rewrite (Hag _ Hs), Hv2 in Hv1. injection Hv1 as ->.
  f_equal. apply IH; [done| |  |done].
  - intros k' v' Hin. apply H1. by right.
  - intros k' v' Hin. apply H2. by right.
Qed.

Section Noninterference.

Variable Stream : Type.
Variable replace : string -> string -> Stream -> Stream.
Variable JSON_stringify : string -> string.

(** C10. Two process environments that agree on every variable whose name
    starts with GOLDFISH_APP or is NODE_ENV give the same set of [replace]
    calls; when they also list those variables in the same order, the stream
    built by [pdsCustomHandle] is the same; and setting any other variable
    to any value leaves that stream as it was. *)
Theorem pdsCustomHandle_depends_on_selected_only (env1 env2 : process_env) :
  wf_env env1 -> wf_env env2 ->
  (forall k, selected k = true -> env_get env1 k = env_get env2 k) ->
  (forall r, r ∈ replacements JSON_stringify env1
             <-> r ∈ replacements JSON_stringify env2) /\
  (map fst (envs env1) = map fst (envs env2) ->
   forall cb stream,
     pdsCustomHandle replace JSON_stringify env1 cb stream
     = pdsCustomHandle replace JSON_stringify env2 cb stream) /\
  (forall k v cb stream,
     selected k = false ->
     pdsCustomHandle replace JSON_stringify (obj_set env1 k v) cb stream
     = pdsCustomHandle replace JSON_stringify env1 cb stream).
Proof.
  intros Hwf1 Hwf2 Hag. split; [|split].
  - intros r. unfold replacements. rewrite !list_elem_of_fmap.
    split; intros [[k v] [-> Hin]]; exists (k, v); (split; [done|]).
    + apply elem_of_envs in Hin as [Hs Hg]; [|done].
      apply elem_of_envs; [done|]. by rewrite <- (Hag _ Hs).
    + apply elem_of_envs in Hin as [Hs Hg]; [|done].
      apply elem_of_envs; [done|]. by rewrite (Hag _ Hs).
  - intros Hkeys cb stream. unfold pdsCustomHandle.
    replace (envs env2) with (envs env1); [done|].
    apply (assoc_eq_by_lookup env1 env2); [done| | |done].
    + intros k v Hin. by apply elem_of_envs in Hin.
    + intros k v Hin. by apply elem_of_envs in Hin.
  - intros k v cb stream Hk. unfold pdsCustomHandle.
    rewrite (envs_filter (obj_set env1 k v)) by (by apply obj_set_keys_NoDup).
    rewrite (envs_filter env1) by done.
    by rewrite envs_obj_set_unselected.
Qed.

End Noninterference.

(** The theorem at two environments that differ in PATH and HOME only, with
    a stream that records the [replace] calls piped into it. *)
Lemma pdsCustomHandle_depends_on_selected_only_witness :
  let env1 := [("PATH", "/usr/bin"); ("GOLDFISH_APP_ID", "7"); ("NODE_ENV", "production")] in
  let env2 := [("GOLDFISH_APP_ID", "7"); ("HOME", "/root"); ("NODE_ENV", "production")] in
  let replace := fun (search replacement : string) (content : list (string * string)) =>
                   content ++ [(search, replacement)] in
  pdsCustomHandle replace (fun s => s) env1 (fun s => s) []
  = pdsCustomHandle replace (fun s => s) env2 (fun s => s) [].
Proof.
  intros env1 env2 replace.
  assert (Hwf1 : wf_env env1).
  { unfold wf_env, env1. simpl.
    repeat (apply NoDup_cons; split; [rewrite ?elem_of_cons, elem_of_nil; intuition discriminate|]).
    apply NoDup_nil_2. }
  assert (Hwf2 : wf_env env2).
  { unfold wf_env, env2. simpl.
    repeat (apply NoDup_cons; split; [rewrite ?elem_of_cons, elem_of_nil; intuition discriminate|]).
    apply NoDup_nil_2. }
  assert (Hag : forall k, selected k = true -> env_get env1 k = env_get env2 k).
  { intros k Hk. unfold env1, env2. cbn [env_get].
    destruct (String.eqb "PATH" k) eqn:E1.
    { apply String.eqb_eq in E1. subst k. discriminate Hk. }
    destruct (String.eqb "GOLDFISH_APP_ID" k) eqn:E2; [done|].
    destruct (String.eqb "HOME" k) eqn:E3; [|done].
    apply String.eqb_eq in E3. subst k. discriminate Hk. }
  destruct (pdsCustomHandle_depends_on_selected_only (list (string * string))
              replace (fun s => s) env1 env2 Hwf1 Hwf2 Hag) as (_ & H & _).
  apply H. reflexivity.
Defined.

Section Replacements.

Variable Stream : Type.
Variable replace : string -> string -> Stream -> Stream.
Variable JSON_stringify : string -> string.

(** Whatever [replace] and [cb] are, the stream [pdsCustomHandle(cb)]
    gives to [cb] is the stream it received with one [replace] piped into
    it for each variable of [process.env] whose name starts with
    GOLDFISH_APP or is NODE_ENV, in the order of [process.env], from
    [process.env.<name>] to the JSON text of its value, and with no other
    [replace]. *)
Theorem pdsCustomHandle_pipes_selected_variables (env : process_env)
    (cb : Stream -> Stream) (stream : Stream) :
  wf_env env ->
  pdsCustomHandle replace JSON_stringify env cb stream
  = cb (fold_left
          (fun _stream kv =>
             replace ("process.env." +:+ fst kv) (JSON_stringify (snd kv)) _stream)
          (List.filter (fun kv => selected (fst kv)) env) stream).
Proof.
  intros Hwf. unfold pdsCustomHandle. by rewrite (envs_filter env Hwf).
Qed.

End Replacements.

(** The theorem at an environment with PATH, an application variable and
    NODE_ENV, with a stream that records the [replace] calls piped into it
    and a [cb] that marks the stream it is given. *)
Lemma pdsCustomHandle_pipes_selected_variables_witness :
  pdsCustomHandle (fun search replacement content => content ++ [(search, replacement)])
    (fun s => s)
    [("PATH", "/usr/bin"); ("GOLDFISH_APP_ID", "7"); ("NODE_ENV", "production")]
    (fun s => s ++ [("cb", "called")]) []
  = [("process.env.GOLDFISH_APP_ID", "7"); ("process.env.NODE_ENV", "production");
     ("cb", "called")].
Proof.
  refine (pdsCustomHandle_pipes_selected_variables (list (string * string))
            (fun a b c => c ++ [(a, b)]) (fun s => s) _ _ _ _).
  unfold wf_env. simpl.
  repeat (apply NoDup_cons; split;
          [rewrite ?elem_of_cons, elem_of_nil; intuition discriminate|]).
  apply NoDup_nil_2.
Defined.

End PDS.

(** ** findJsDependencyModules: the transitive imports of a file *)

Module Finder.

Record Dependency := mkDependency {
  importPath : string;
  importFilePath : string;
  jsPath : string
}.

#[global] Instance Dependency_eq_dec : EqDecision Dependency.
Proof. solve_decision. Defined.

Definition correctImportPath (p : string) : string :=
  if String.eqb p ".." || String.eqb p "." then p +:+ "/" else p.

(** [s.startsWith(p)] and [s.endsWith(p)]. *)
Definition startsWith (s p : string) : bool := String.prefix p s.

Definition endsWith (s p : string) : bool :=
  let n := String.length s in
  let m := String.length p in
  (m <=? n)%nat && String.eqb (String.substring (n - m) m s) p.

(** The nodes of a parsed file that the visitor of [traverse] reacts to, in
    traversal order, each with the fields the visitor reads:
    the [source.value] of an import or export ([source] is optional on a
    named export), and for a call the callee's [name], whether the scope
    binds [require], and [arguments[0]] with its [value], when present. *)
Inductive ast_node :=
| ImportDeclaration (source : string)
| ExportNamedDeclaration (source : option string)
| ExportAllDeclaration (source : string)
| CallExpression (callee_name : option string) (hasBinding_require : bool)
    (argument0 : option (option string)).

(** How a call ends: with a value, with a thrown error, or cut off by the
    recursion budget of the model. *)
Inductive outcome (A : Type) :=
| Ok (a : A)
| Throw (msg : string)
| OutOfFuel.

Arguments Ok {A} a.
Arguments Throw {A} msg.
Arguments OutOfFuel {A}.

(** [lodash.uniqBy(result, dep => dep.importFilePath)]: the first element
    of every class stays. *)
Fixpoint uniqBy_from (seen : list string) (l : list Dependency) : list Dependency :=
  match l with
  | [] => []
  | d :: l' =>
      if bool_decide (importFilePath d ∈ seen)
      then uniqBy_from seen l'
      else d :: uniqBy_from (importFilePath d :: seen) l'
  end.

Definition uniqBy (l : list Dependency) : list Dependency := uniqBy_from [] l.

Section Run.

(** The files that can be read and parsed, each with the nodes of its
    syntax tree; reading any other path throws. *)
Variable fs : gmap string (list ast_node).

(** [path.dirname] and [resolveModule(request, {paths: [dir]})]; a request
    that does not resolve gives no path. *)
Variable dirname : string -> string.
Variable resolveModule : string -> string -> option string.

(** The store behind [fileCache.run(name, key, cb)]: a hit returns the
    stored list without calling [cb], a miss calls [cb] and stores what it
    returns. *)
Variable Cache : Type.
Variable cache_get : Cache -> string -> option (list Dependency).
Variable cache_put : Cache -> string -> list Dependency -> Cache.

(** The Finder's [visited] set, the cache, and the trace of the paths
    handed to [fs.readFileSync] and [parse], oldest first. *)
Record state := mkState {
  visited : gset string;
  cache : Cache;
  parsed : list string
}.

Definition result := (outcome (list Dependency) * state)%type.

(** The closure [record] of one file [js], with the recursive [this.run]
    passed in: [acc] is the array [result]. *)
Definition record (run : string -> state -> result) (js : string)
    (imp : string) (acc : list Dependency) (st : state) : result :=
  match resolveModule (correctImportPath imp) (dirname js) with
  | None => (Throw ("Can not find the file `" +:+ imp +:+ "` under `"
                    +:+ dirname js +:+ "`."), st)
  | Some file =>
      if String.eqb file ""
      then (Throw ("Can not find the file `" +:+ imp +:+ "` under `"
                   +:+ dirname js +:+ "`."), st)
      else
        let acc1 := acc ++ [mkDependency imp file js] in
        match run file st with
        | (Ok sub, st') => (Ok (acc1 ++ sub), st')
        | (Throw m, st') => (Throw m, st')
        | (OutOfFuel, st') => (OutOfFuel, st')
        end
  end.

(** One visitor call. *)
Definition visit (run : string -> state -> result) (js : string)
    (n : ast_node) (acc : list Dependency) (st : state) : result :=
  match n with
  | ImportDeclaration source => record run js source acc st
  | ExportNamedDeclaration source =>
      match source with
      | None => (Ok acc, st)
      | Some v => if String.eqb v "" then (Ok acc, st) else record run js v acc st
      end
  | ExportAllDeclaration source => record run js source acc st
  | CallExpression callee_name hasBinding_require argument0 =>
      if negb (bool_decide (callee_name = Some "require")) || hasBinding_require
      then (Ok acc, st)
      else match argument0 with
           | None => (Throw "TypeError: Cannot read properties of undefined", st)
           | Some None => (Ok acc, st)
           | Some (Some v) =>
               if String.eqb v "" then (Ok acc, st) else record run js v acc st
           end
  end.

(** [traverse(ast, visitor)] *)
Fixpoint traverse (run : string -> state -> result) (js : string)
    (nodes : list ast_node) (acc : list Dependency) (st : state) : result :=
  match nodes with
  | [] => (Ok acc, st)
  | n :: nodes' =>
      match visit run js n acc st with
      | (Ok acc', st') => traverse run js nodes' acc' st'
      | r => r
      end
  end.

(** The test at the top of [run]. *)
Definition skipped (js : string) (st : state) : bool :=
  negb (startsWith js "/") || endsWith js ".json" || bool_decide (js ∈ visited st).

(** [Finder.run]; [fuel] bounds the depth of the recursion. *)
Fixpoint run (fuel : nat) (js : string) (st : state) : result :=
  if skipped js st then (Ok [], st)
  else
    match fuel with
    | O => (OutOfFuel, st)
    | S fuel' =>
        let st1 := mkState ({[js]} ∪ visited st) (cache st) (parsed st) in
        match cache_get (cache st1) js with
        | Some cached => (Ok cached, st1)
        | None =>
            match fs !! js with
            | None => (Throw "ENOENT: no such file or directory", st1)
            | Some ast =>
                let st2 := mkState (visited st1) (cache st1) (parsed st1 ++ [js]) in
                match traverse (run fuel') js ast [] st2 with
                | (Ok res, st3) =>
                    let uniqResult := uniqBy res in
                    (Ok uniqResult,
                     mkState (visited st3) (cache_put (cache st3) js uniqResult)
                       (parsed st3))
                | r => r
                end
            end
        end
    end.

(** [new Finder().run(jsPath)] with the cache as it is at the call. *)
Definition findJsDependencyModules (fuel : nat) (c : Cache) (jsPath : string)
  : result :=
  run fuel jsPath (mkState ∅ c []).

(** The files not yet visited: what bounds the depth of the recursion. *)
Definition unvisited (st : state) : nat := size (dom fs ∖ visited st).

(** Every parsed path was parsed once, and was marked visited before. *)
Definition parsed_once (st : state) : Prop :=
  NoDup (parsed st) /\ forall p, p ∈ parsed st -> p ∈ visited st.

(** What one call keeps: [visited] only grows, [parsed_once] is kept, and
    with more than [unvisited] levels of budget the call is not cut off. *)
Definition call_ok (n : nat) (st : state) (r : result) : Prop :=
  visited st ⊆ visited (snd r) /\
  (parsed_once st -> parsed_once (snd r)) /\
  (unvisited st < n -> fst r <> OutOfFuel)%nat.

Lemma unvisited_mono (st st' : state) :
  visited st ⊆ visited st' -> (unvisited st' <= unvisited st)%nat.
Proof. intros H. unfold unvisited. apply subseteq_size. set_solver. Qed.

Lemma call_ok_refl (n : nat) (st : state) (o : outcome (list Dependency)) :
  o <> OutOfFuel -> call_ok n st (o, st).
Proof. intros H. split; [done|]. split; [done|]. by intros _. Qed.

Lemma call_ok_trans (n : nat) (st st1 : state) (o1 : outcome (list Dependency))
    (r : result) :
  call_ok n st (o1, st1) -> call_ok n st1 r -> call_ok n st r.
Proof.
  intros (Hv1 & Hp1 & _) (Hv2 & Hp2 & Hf2). simpl in *.
  split; [set_solver|]. split; [tauto|].
  intros Hlt. apply Hf2. pose proof (unvisited_mono _ _ Hv1). lia.
Qed.

Section Step.

Variable n : nat.
Variable rn : string -> state -> result.
Hypothesis rn_ok : forall js st, call_ok n st (rn js st).

Lemma record_ok js imp acc st : call_ok n st (record rn js imp acc st).
Proof.
  unfold record. destruct (resolveModule _ _) as [file|]; [|by apply call_ok_refl].
  destruct (String.eqb file ""); [by apply call_ok_refl|].
  specialize (rn_ok file st). destruct (rn file st) as [[sub|m|] st']; 
    destruct rn_ok as (Hv & Hp & Hf); (split; [done|]); (split; [done|]);
    simpl in *; intros Hlt; specialize (Hf Hlt); congruence.
Qed.

Lemma visit_ok js nd acc st : call_ok n st (visit rn js nd acc st).
Proof.
  destruct nd as [src|[src|]|src|callee hb [[v|]|]]; simpl;
    repeat match goal with
           | |- context [if ?b then _ else _] => destruct b
           end;
    try (by apply call_ok_refl); apply record_ok.
Qed.

Lemma traverse_ok js nodes acc st : call_ok n st (traverse rn js nodes acc st).
Proof.
  revert acc st. induction nodes as [|nd nodes IH]; intros acc st; simpl.
  - by apply call_ok_refl.
  - pose proof (visit_ok js nd acc st) as Hv.
    destruct (visit rn js nd acc st) as [[acc'|m|] st1]; [|done|done].
    eapply call_ok_trans; [exact Hv|apply IH].
Qed.

End Step.

Lemma skipped_false_not_visited js st : skipped js st = false -> js ∉ visited st.
Proof.
  unfold skipped. intros H. apply orb_false_iff in H as [_ H].
  by apply bool_decide_eq_false in H.
Qed.

Lemma run_ok (fuel : nat) : forall js st, call_ok fuel st (run fuel js st).
Proof.
  induction fuel as [|fuel IH]; intros js st; simpl.
  - destruct (skipped js st); [by apply call_ok_refl|].
    split; [done|]. split; [done|]. simpl. lia.
  - destruct (skipped js st) eqn:Hsk; [by apply call_ok_refl|].
    apply skipped_false_not_visited in Hsk.
    set (st1 := mkState ({[js]} ∪ visited st) (cache st) (parsed st)).
    assert (H1 : visited st ⊆ visited st1) by (simpl; set_solver).
    assert (Hp1 : parsed_once st -> parsed_once st1).
    { intros [Hnd Hin]. split; [done|]. simpl. intros p Hp.
      specialize (Hin p Hp). set_solver. }
    cbn [cache]. destruct (cache_get (cache st) js) as [cached|].
    { split; [done|]. split; [done|]. by intros _. }
    destruct (fs !! js) as [ast|] eqn:Hfs.
    2:{ split; [done|]. split; [done|]. by intros _. }
    set (st2 := mkState _ _ _).
    assert (H2 : visited st ⊆ visited st2) by (simpl; set_solver).
    assert (Hp2 : parsed_once st -> parsed_once st2).
    { intros [Hnd Hin]. split; simpl.
      - apply NoDup_app. split; [done|]. split; [|apply NoDup_singleton].
        intros p Hp Hp'. apply list_elem_of_singleton in Hp'. subst p.
        apply Hsk. by apply Hin.
      - intros p Hp. apply elem_of_app in Hp as [Hp|Hp].
        + specialize (Hin p Hp). set_solver.
        + apply list_elem_of_singleton in Hp. set_solver. }
    assert (Hm : (unvisited st < S fuel -> unvisited st2 < fuel)%nat).
    { unfold unvisited. simpl. intros Hlt.
      assert (Hsub : dom fs ∖ ({[js]} ∪ visited st) ⊂ dom fs ∖ visited st).
      { apply elem_of_dom_2 in Hfs. set_solver. }
      apply subset_size in Hsub. lia. }
    pose proof (traverse_ok fuel (run fuel) IH js ast [] st2) as (Hv & Hp & Hf).
    destruct (traverse (run fuel) js ast [] st2) as [[res|m|] st3]; simpl in *.
    + split; [set_solver|]. split; [tauto|]. by intros _.
    + split; [set_solver|]. split; [tauto|]. by intros _.
    + split; [set_solver|]. split; [tauto|]. intros Hlt. apply Hf. by apply Hm.
Qed.

Lemma run_skipped (fuel : nat) (js : string) (st : state) :
  skipped js st = true -> run fuel js st = (Ok [], st).
Proof. intros H. destruct fuel; simpl; by rewrite H. Qed.

(** C9. With a recursion budget above the number of files, a run from a
    fresh Finder ends with a value or a thrown error, never cut off, whatever
    the imports are (cycles included) and whatever the cache holds; no path
    is parsed twice in it; and [run] returns the empty list at once, leaving
    the Finder as it is, for a path that is already visited, or does not
    start with a slash, or ends in .json. *)
Theorem findJsDependencyModules_terminates (c : Cache) (jsPath : string) (fuel : nat) :
  (size fs < fuel)%nat ->
  (fst (findJsDependencyModules fuel c jsPath) <> OutOfFuel /\
   NoDup (parsed (snd (findJsDependencyModules fuel c jsPath)))) /\
  (forall k js st,
     js ∈ visited st \/ startsWith js "/" = false \/ endsWith js ".json" = true ->
     run k js st = (Ok [], st)).
Proof.
  intros Hfuel. split.
  - unfold findJsDependencyModules.
    destruct (run_ok fuel jsPath (mkState ∅ c [])) as (_ & Hp & Hf). split.
    + apply Hf. unfold unvisited. simpl.
      replace (dom fs ∖ ∅) with (dom fs) by set_solver.
      by rewrite size_dom.
    + apply Hp. split; simpl; [apply NoDup_nil_2|].
      intros p Hp'. by apply elem_of_nil in Hp'.
  - intros k js st H. apply run_skipped. unfold skipped.
    destruct H as [H|[H|H]].
    + rewrite (bool_decide_eq_true_2 _ H). by rewrite orb_true_r.
    + by rewrite H.
    + rewrite H. by rewrite orb_true_r.
Qed.

Lemma visited_skipped js st : js ∈ visited st -> skipped js st = true.
Proof.
  intros H. unfold skipped. rewrite (bool_decide_eq_true_2 _ H).
  by rewrite orb_true_r.
Qed.

(** A path that [run] has handled is handled: whatever the first call
    returned or threw, a second [run] of the same path on the same Finder
    returns the empty list at once and changes nothing. *)
Theorem run_again_returns_nothing (fuel k : nat) (js : string) (st : state) :
  fst (run fuel js st) <> OutOfFuel ->
  run k js (snd (run fuel js st)) = (Ok [], snd (run fuel js st)).
Proof.
  intros Hfuel. apply run_skipped. revert Hfuel.
  destruct fuel as [|fuel]; simpl; destruct (skipped js st) eqn:Hs; try done.
  intros Hfuel. cbn [cache].
  set (st1 := mkState ({[js]} ∪ visited st) (cache st) (parsed st)).
  assert (H1 : js ∈ visited st1) by (simpl; set_solver).
  destruct (cache_get (cache st) js); [by apply visited_skipped|].
  destruct (fs !! js) as [ast|]; [|by apply visited_skipped].
  set (st2 := mkState _ _ _).
  pose proof (traverse_ok fuel (run fuel) (run_ok fuel) js ast [] st2) as (Hv & _ & _).
  assert (H3 : js ∈ visited (snd (traverse (run fuel) js ast [] st2)))
    by (apply Hv; exact H1).
  destruct (traverse (run fuel) js ast [] st2) as [[res|m|] st3];
    by apply visited_skipped.
Qed.

(** *** What a run returns *)

(** The requests a node hands to [record]. *)
Definition requests_of (n : ast_node) : list string :=
  match n with
  | ImportDeclaration source => [source]
  | ExportNamedDeclaration (Some v) => if String.eqb v "" then [] else [v]
  | ExportNamedDeclaration None => []
  | ExportAllDeclaration source => [source]
  | CallExpression callee hasBinding (Some (Some v)) =>
      if negb (bool_decide (callee = Some "require")) || hasBinding then []
      else if String.eqb v "" then [] else [v]
  | CallExpression _ _ _ => []
  end.

(** [file] is what the request [imp] made in the file [js] resolves to. *)
Definition resolves (imp js file : string) : Prop :=
  resolveModule (correctImportPath imp) (dirname js) = Some file /\ file <> "".

(** The dependency [d] is an import of a readable file: its [jsPath] is a
    file whose syntax tree makes the request [importPath], and that request
    resolves to [importFilePath]. *)
Definition is_import (d : Dependency) : Prop :=
  exists nodes n, fs !! jsPath d = Some nodes /\ n ∈ nodes /\
    importPath d ∈ requests_of n /\
    resolves (importPath d) (jsPath d) (importFilePath d).

(** Every request of the file [p] has, in [res], a dependency with the file
    it resolves to. *)
Definition imports_listed (res : list Dependency) (p : string) : Prop :=
  forall nodes n imp, fs !! p = Some nodes -> n ∈ nodes -> imp ∈ requests_of n ->
    exists d, d ∈ res /\ resolves imp p (importFilePath d).

(** The cache never has the answer: every file is read and parsed. *)
Definition cold_cache : Prop := forall c p, cache_get c p = None.

Lemma uniqBy_from_subset seen l d : d ∈ uniqBy_from seen l -> d ∈ l.
Proof.
  revert seen. induction l as [|x l IH]; intros seen; simpl; [done|].
  case_bool_decide as Hx.
  - intros H. right. by eapply IH.
  - rewrite !elem_of_cons. intros [->|H]; [by left|]. right. by eapply IH.
Qed.

Lemma uniqBy_from_NoDup seen l :
  NoDup (importFilePath <$> uniqBy_from seen l) /\
  forall d, d ∈ uniqBy_from seen l -> importFilePath d ∉ seen.
Proof.
  revert seen. induction l as [|x l IH]; intros seen; simpl.
  - split; [apply NoDup_nil_2|]. intros d H. by apply elem_of_nil in H.
  - case_bool_decide as Hx; [apply IH|].
    destruct (IH (importFilePath x :: seen)) as [Hnd Hout]. split.
    + simpl. apply NoDup_cons. split; [|done].
      intros Hin. apply list_elem_of_fmap in Hin as (d & Hd & Hin).
      apply (Hout d Hin). rewrite Hd. left.
    + intros d. rewrite elem_of_cons. intros [->|Hin]; [done|].
      intros Hs. apply (Hout d Hin). by right.
Qed.

Lemma uniqBy_from_keeps_keys seen l d :
  d ∈ l -> importFilePath d ∉ seen ->
  exists d', d' ∈ uniqBy_from seen l /\ importFilePath d' = importFilePath d.
Proof.
  revert seen. induction l as [|x l IH]; intros seen Hin Hs; simpl.
  - by apply elem_of_nil in Hin.
  - apply elem_of_cons in Hin as [->|Hin].
    + rewrite bool_decide_eq_false_2 by done. exists x. split; [left|done].
    + case_bool_decide as Hx; [by apply IH|].
      destruct (decide (importFilePath d = importFilePath x)) as [E|E].
      * exists x. split; [left|done].
      * destruct (IH (importFilePath x :: seen) Hin) as (d' & Hd' & E').
        { rewrite elem_of_cons. intros [?|?]; done. }
        exists d'. split; [by right|done].
Qed.

Lemma uniqBy_keeps_keys l d :
  d ∈ l -> exists d', d' ∈ uniqBy l /\ importFilePath d' = importFilePath d.
Proof. intros H. apply uniqBy_from_keeps_keys; [done|apply not_elem_of_nil]. Qed.

(** What a call that returned a value has done: the paths it parsed were
    added at the end of [parsed], everything it returned is an import, and
    every request of every file it parsed is listed in what it returned. *)
Definition returns_ok (st : state) (r : result) : Prop :=
  forall res st', r = (Ok res, st') ->
    Forall is_import res /\
    exists new, parsed st' = parsed st ++ new /\
                Forall (imports_listed res) new.

Lemma imports_listed_mono res res' p :
  (forall d, d ∈ res -> exists d', d' ∈ res' /\ importFilePath d' = importFilePath d) ->
  imports_listed res p -> imports_listed res' p.
Proof.
  intros Hsub H nodes n imp Hfs Hn Himp.
  destruct (H nodes n imp Hfs Hn Himp) as (d & Hd & Hr).
  destruct (Hsub d Hd) as (d' & Hd' & E). exists d'. by rewrite E.
Qed.

Lemma imports_listed_app_l res more p :
  imports_listed res p -> imports_listed (res ++ more) p.
Proof.
  apply imports_listed_mono. intros d Hd. exists d. split; [|done].
  apply elem_of_app. by left.
Qed.

Section Returns.

Variable rn : string -> state -> result.
Hypothesis rn_returns : forall js st, returns_ok st (rn js st).

(** The file being traversed and its nodes. *)
Variable js : string.
Variable nodes : list ast_node.
Hypothesis js_nodes : fs !! js = Some nodes.

(** One request [imp] made by the node [n] of the file. *)
Lemma record_returns n imp acc st acc' st' :
  n ∈ nodes -> imp ∈ requests_of n ->
  Forall is_import acc ->
  record rn js imp acc st = (Ok acc', st') ->
  Forall is_import acc' /\
  (exists more, acc' = acc ++ more) /\
  (exists d, d ∈ acc' /\ resolves imp js (importFilePath d)) /\
  exists new, parsed st' = parsed st ++ new /\ Forall (imports_listed acc') new.
Proof.
  intros Hn Himp Hacc. unfold record.
  destruct (resolveModule _ _) as [file|] eqn:Hres; [|done].
  destruct (String.eqb file "") eqn:Hne; [done|].
  apply String.eqb_neq in Hne.
  pose proof (rn_returns file st) as Hrn.
  destruct (rn file st) as [[sub|m|] st1]; [|done|done].
  intros [= <- <-]. destruct (Hrn sub st1 eq_refl) as (Hsub & new & Hp & Hl).
  assert (Hd : is_import (mkDependency imp file js)).
  { exists nodes, n. by repeat split. }
  split; [|split; [|split]].
  - rewrite !Forall_app. repeat split; try done. by constructor.
  - eexists. by rewrite <- app_assoc.
  - exists (mkDependency imp file js). split; [|by split].
    rewrite !elem_of_app, list_elem_of_singleton. by left; right.
  - exists new. split; [done|]. eapply Forall_impl; [exact Hl|]. simpl.
    intros p. apply imports_listed_mono. intros d Hd'. exists d.
    split; [|done]. apply elem_of_app. by right.
Qed.

Lemma visit_returns n acc st acc' st' :
  n ∈ nodes -> Forall is_import acc ->
  visit rn js n acc st = (Ok acc', st') ->
  Forall is_import acc' /\
  (exists more, acc' = acc ++ more) /\
  (forall imp, imp ∈ requests_of n ->
     exists d, d ∈ acc' /\ resolves imp js (importFilePath d)) /\
  exists new, parsed st' = parsed st ++ new /\ Forall (imports_listed acc') new.
Proof.
  intros Hn Hacc.
  assert (Hnone : forall a s, requests_of n = [] ->
            (Ok acc, st) = (Ok a, s :> state) ->
            Forall is_import a /\ (exists more, a = acc ++ more) /\
            (forall imp, imp ∈ requests_of n ->
               exists d, d ∈ a /\ resolves imp js (importFilePath d)) /\
            exists new, parsed s = parsed st ++ new /\ Forall (imports_listed a) new).
  { intros a s Hr [= <- <-]. split; [done|]. split; [exists []; by rewrite app_nil_r|].
    split; [rewrite Hr; intros imp H; by apply elem_of_nil in H|].
    exists []. split; [by rewrite app_nil_r|constructor]. }
  assert (Hone : forall imp, requests_of n = [imp] ->
            record rn js imp acc st = (Ok acc', st') ->
            Forall is_import acc' /\ (exists more, acc' = acc ++ more) /\
            (forall imp', imp' ∈ requests_of n ->
               exists d, d ∈ acc' /\ resolves imp' js (importFilePath d)) /\
            exists new, parsed st' = parsed st ++ new /\
                        Forall (imports_listed acc') new).
  { intros imp Hr Hrec.
    destruct (record_returns n imp acc st acc' st' Hn) as (A & B & C & D);
      [rewrite Hr; left|done|done|].
    split; [done|]. split; [done|]. split; [|done].
    intros imp'. rewrite Hr. intros H. apply list_elem_of_singleton in H. by subst. }
  destruct n as [src|[src|]|src|callee hb [[v|]|]]; simpl in *.
  - by apply Hone.
  - destruct (String.eqb src ""); [by apply Hnone|by apply Hone].
  - by apply Hnone.
  - by apply Hone.
  - destruct (negb (bool_decide (callee = Some "require")) || hb);
      [by apply Hnone|].
    destruct (String.eqb v ""); [by apply Hnone|by apply Hone].
  - destruct (negb (bool_decide (callee = Some "require")) || hb);
      by apply Hnone.
  - destruct (negb (bool_decide (callee = Some "require")) || hb);
      [by apply Hnone|done].
Qed.

Lemma traverse_returns ns : forall acc st acc' st',
  (forall n, n ∈ ns -> n ∈ nodes) -> Forall is_import acc ->
  traverse rn js ns acc st = (Ok acc', st') ->
  Forall is_import acc' /\
  (exists more, acc' = acc ++ more) /\
  (forall n imp, n ∈ ns -> imp ∈ requests_of n ->
     exists d, d ∈ acc' /\ resolves imp js (importFilePath d)) /\
  exists new, parsed st' = parsed st ++ new /\ Forall (imports_listed acc') new.
Proof.
  induction ns as [|n ns IH]; intros acc st acc' st' Hns Hacc; simpl.
  - intros [= <- <-]. split; [done|]. split; [exists []; by rewrite app_nil_r|].
    split; [intros n imp H; by apply elem_of_nil in H|].
    exists []. split; [by rewrite app_nil_r|constructor].
  - destruct (visit rn js n acc st) as [[acc1|m|] st1] eqn:Hv; [|done|done].
    intros Ht.
    destruct (visit_returns n acc st acc1 st1) as (A1 & [m1 B1] & C1 & n1 & D1 & E1);
      [apply Hns; left|done|done|].
    destruct (IH acc1 st1 acc' st') as (A2 & [m2 B2] & C2 & n2 & D2 & E2);
      [intros x Hx; apply Hns; by right|done|done|].
    split; [done|]. split; [exists (m1 ++ m2); by rewrite B2, B1, app_assoc|].
    split.
    + intros x imp Hx Himp. apply elem_of_cons in Hx as [->|Hx]; [|by eapply C2].
      destruct (C1 imp Himp) as (d & Hd & Hr). exists d. split; [|done].
      rewrite B2. apply elem_of_app. by left.
    + exists (n1 ++ n2). split; [by rewrite D2, D1, app_assoc|].
      apply Forall_app. split; [|done].
      eapply Forall_impl; [exact E1|]. simpl. intros p. rewrite B2.
      apply imports_listed_app_l.
Qed.

End Returns.

Lemma run_returns (fuel : nat) :
  cold_cache -> forall js st, returns_ok st (run fuel js st).
Proof.
  intros Hcold. induction fuel as [|fuel IH]; intros js st res st'; simpl.
  - destruct (skipped js st); [|done]. intros [= <- <-].
    split; [constructor|]. exists []. split; [by rewrite app_nil_r|constructor].
  - destruct (skipped js st).
    { intros [= <- <-]. split; [constructor|].
      exists []. split; [by rewrite app_nil_r|constructor]. }
    cbn [cache]. rewrite Hcold.
    destruct (fs !! js) as [ast|] eqn:Hfs; [|done].
    set (st2 := mkState _ _ _).
    destruct (traverse (run fuel) js ast [] st2) as [[acc|m|] st3] eqn:Ht;
      [|done|done].
    intros [= <- <-].
    destruct (traverse_returns (run fuel) IH js ast Hfs ast [] st2 acc st3)
      as (A & _ & C & new & D & E); [done|constructor|done|].
    split.
    + apply Forall_forall. intros d Hd. rewrite Forall_forall in A.
      apply A. by eapply uniqBy_from_subset.
    + exists (js :: new). simpl in *. split; [by rewrite D, <- app_assoc|].
      constructor.
      * intros nodes n imp Hn Hin Himp. rewrite Hfs in Hn. injection Hn as <-.
        destruct (C n imp Hin Himp) as (d & Hd & Hr).
        destruct (uniqBy_keeps_keys acc d Hd) as (d' & Hd' & Ed).
        exists d'. by rewrite Ed.
      * eapply Forall_impl; [exact E|]. simpl. intros p.
        apply imports_listed_mono. intros d Hd. by apply uniqBy_keeps_keys.
Qed.

Lemma run_distinct (fuel : nat) (js : string) (st : state) res st' :
  cold_cache -> run fuel js st = (Ok res, st') ->
  NoDup (importFilePath <$> res).
Proof.
  intros Hcold. destruct fuel as [|fuel]; simpl.
  - destruct (skipped js st); [|done]. intros [= <- <-]. apply NoDup_nil_2.
  - destruct (skipped js st); [intros [= <- <-]; apply NoDup_nil_2|].
    cbn [cache]. rewrite Hcold. destruct (fs !! js) as [ast|]; [|done].
    destruct (traverse _ _ _ _ _) as [[acc|m|] st3]; [|done|done].
    intros [= <- <-]. apply uniqBy_from_NoDup.
Qed.

(** When every file is read and parsed, what [findJsDependencyModules]
    returns holds only imports that are in the files: each entry's [jsPath]
    is a readable file that makes the request [importPath], which resolves
    to [importFilePath]; and no two entries have the same
    [importFilePath]. *)
Theorem findJsDependencyModules_sound (fuel : nat) (c : Cache) (jsPath0 : string)
    (res : list Dependency) (st' : state) :
  cold_cache ->
  findJsDependencyModules fuel c jsPath0 = (Ok res, st') ->
  Forall is_import res /\ NoDup (importFilePath <$> res).
Proof.
  intros Hcold Hrun. unfold findJsDependencyModules in Hrun. split.
  - by destruct (run_returns fuel Hcold jsPath0 _ res st' Hrun).
  - by eapply run_distinct.
Qed.

(** When every file is read and parsed and [findJsDependencyModules]
    returns a list, every request made by every file it parsed resolved, and
    the file it resolved to is the [importFilePath] of an entry of the list:
    nothing a parsed file imports is missing, and one request that does not
    resolve leaves no list at all. *)
Theorem findJsDependencyModules_complete (fuel : nat) (c : Cache) (jsPath0 : string)
    (res : list Dependency) (st' : state) :
  cold_cache ->
  findJsDependencyModules fuel c jsPath0 = (Ok res, st') ->
  forall p nodes n imp,
    p ∈ parsed st' -> fs !! p = Some nodes -> n ∈ nodes -> imp ∈ requests_of n ->
    exists d, d ∈ res /\
      resolveModule (correctImportPath imp) (dirname p) = Some (importFilePath d).
Proof.
  intros Hcold Hrun p nodes n imp Hp Hfs Hn Himp.
  unfold findJsDependencyModules in Hrun.
  destruct (run_returns fuel Hcold jsPath0 _ res st' Hrun) as (_ & new & Hnew & Hl).
  simpl in Hnew. rewrite Hnew in Hp. rewrite Forall_forall in Hl.
  destruct (Hl p Hp nodes n imp Hfs Hn Himp) as (d & Hd & Hr & _).
  by exists d.
Qed.

End Run.

(** Two files that import each other. *)
Definition cyclic_fs : gmap string (list ast_node) :=
  {[ "/app/a.js" := [ImportDeclaration "./b"];
     "/app/b.js" := [ImportDeclaration "./a"; ImportDeclaration "./data.json"] ]}.

Definition cyclic_resolve (request dir : string) : option string :=
  if String.eqb request "./a" then Some "/app/a.js"
  else if String.eqb request "./b" then Some "/app/b.js"
  else if String.eqb request "./data.json" then Some "/app/data.json"
  else None.

Definition cyclic_run (fuel : nat) : result unit :=
  findJsDependencyModules cyclic_fs (fun _ => "/app") cyclic_resolve
    unit (fun _ _ => None) (fun c _ _ => c) fuel tt "/app/a.js".

Example cyclic_run_result :
  fst (cyclic_run 3)
  = Ok [mkDependency "./b" "/app/b.js" "/app/a.js";
        mkDependency "./a" "/app/a.js" "/app/b.js";
        mkDependency "./data.json" "/app/data.json" "/app/b.js"] /\
  parsed unit (snd (cyclic_run 3)) = ["/app/a.js"; "/app/b.js"].
Proof. split; vm_compute; reflexivity. Qed.

(** The theorem on the two files that import each other. *)
Lemma findJsDependencyModules_terminates_witness :
  fst (cyclic_run 3) <> OutOfFuel /\ NoDup (parsed unit (snd (cyclic_run 3))).
Proof.
  refine (proj1 (findJsDependencyModules_terminates cyclic_fs (fun _ => "/app")
                   cyclic_resolve unit (fun _ _ => None) (fun c _ _ => c)
                   tt "/app/a.js" 3 _)).
  vm_compute. lia.
Defined.

(** What the run on the two files returns. *)
Definition cyclic_deps : list Dependency :=
  [mkDependency "./b" "/app/b.js" "/app/a.js";
   mkDependency "./a" "/app/a.js" "/app/b.js";
   mkDependency "./data.json" "/app/data.json" "/app/b.js"].

Lemma cyclic_run_eq : cyclic_run 3 = (Ok cyclic_deps, snd (cyclic_run 3)).
Proof. vm_compute. reflexivity. Qed.

(** [findJsDependencyModules_sound] on the two files that import each
    other. *)
Lemma findJsDependencyModules_sound_witness :
  NoDup (importFilePath <$> cyclic_deps).
Proof.
  refine (proj2 (findJsDependencyModules_sound cyclic_fs (fun _ => "/app")
                   cyclic_resolve unit (fun _ _ => None) (fun c _ _ => c)
                   3 tt "/app/a.js" cyclic_deps (snd (cyclic_run 3)) _ _)).
  - intros c p. reflexivity.
  - exact cyclic_run_eq.
Defined.

(** [findJsDependencyModules_complete] on the two files that import each
    other, for the import of [./a] in [/app/b.js]. *)
Lemma findJsDependencyModules_complete_witness :
  exists d, d ∈ cyclic_deps /\
    cyclic_resolve (correctImportPath "./a") "/app" = Some (importFilePath d).
Proof.
  refine (findJsDependencyModules_complete cyclic_fs (fun _ => "/app")
            cyclic_resolve unit (fun _ _ => None) (fun c _ _ => c)
            3 tt "/app/a.js" cyclic_deps (snd (cyclic_run 3)) _ _
            "/app/b.js" [ImportDeclaration "./a"; ImportDeclaration "./data.json"]
            (ImportDeclaration "./a") "./a" _ _ _ _).
  - intros c p. reflexivity.
  - exact cyclic_run_eq.
  - vm_compute. right. left.
  - reflexivity.
  - left.
  - left.
Defined.

(** [run_again_returns_nothing] on the Finder left by the run on the two
    files. *)
Lemma run_again_returns_nothing_witness :
  run cyclic_fs (fun _ => "/app") cyclic_resolve unit (fun _ _ => None)
    (fun c _ _ => c) 0 "/app/a.js" (snd (cyclic_run 3))
  = (Ok [], snd (cyclic_run 3)).
Proof.
  apply (run_again_returns_nothing cyclic_fs (fun _ => "/app") cyclic_resolve unit
           (fun _ _ => None) (fun c _ _ => c) 3 0 "/app/a.js" (mkState unit ∅ tt [])).
  vm_compute. discriminate.
Defined.

End Finder.

(** ** watchDeep: a watcher on every key of an object graph *)

Module DeepWatch.

(** *** The heap *)

(** An array with its elements ([None] is a hole, which [forEach] skips), or
    any other object with its enumerable string-keyed properties in the
    order [for ... in] lists them. *)
Inductive jsobj :=
| JArray (elems : list (option value))
| JObject (props : list (string * value)).

Fixpoint assoc_get (props : list (string * value)) (s : string) : option value :=
  match props with
  | [] => None
  | (k, v) :: props' => if String.eqb k s then Some v else assoc_get props' s
  end.

Fixpoint assoc_set (props : list (string * value)) (s : string) (v : value)
  : list (string * value) :=
  match props with
  | [] => [(s, v)]
  | (k, v') :: props' =>
      if String.eqb k s then (k, v) :: props' else (k, v') :: assoc_set props' s v
  end.

(** [o[k]], for the two kinds of access the walk makes: an array by index
    and an object by name. *)
Definition get_prop (o : jsobj) (k : key) : value :=
  match o, k with
  | JArray elems, KIndex i =>
      match elems !! i with
      | Some (Some v) => v
      | _ => VUndefined
      end
  | JObject props, KName s => default VUndefined (assoc_get props s)
  | _, _ => VUndefined
  end.

(** [o[k] = v]; an index past the end extends the array with holes. *)
Definition set_prop (o : jsobj) (k : key) (v : value) : jsobj :=
  match o, k with
  | JArray elems, KIndex i =>
      if bool_decide (i < length elems)%nat
      then JArray (<[i := Some v]> elems)
      else JArray (elems ++ replicate (i - length elems) None ++ [Some v])
  | JObject props, KName s => JObject (assoc_set props s v)
  | _, _ => o
  end.

(** The indices [forEach] calls back on, from [i] on. *)
Fixpoint present_from (i : nat) (elems : list (option value)) : list nat :=
  match elems with
  | [] => []
  | Some _ :: elems' => i :: present_from (S i) elems'
  | None :: elems' => present_from (S i) elems'
  end.

(** The keys the walk visits at one node, in order: lines 60 to 66. *)
Definition enum_keys (o : jsobj) : list key :=
  match o with
  | JArray elems => KIndex <$> present_from 0 elems
  | JObject props => KName <$> (fst <$> props)
  end.

(** The values an object holds. *)
Definition obj_values (o : jsobj) : list value :=
  match o with
  | JArray elems => omap id elems
  | JObject props => snd <$> props
  end.

(** *** Watchers and the world *)

(** The function returned by [baseWatch]: stops the watcher it names. *)
Inductive disposer := Stop (id : nat).

(** The fifth argument of the callback, as the watch engine passes it. *)
Inductive ChangeOptions := Changed (l : loc) (k : key).

(** One call of the user's callback. *)
Record call := mkCall {
  c_obj : value;
  c_keyPathList : list key;
  c_newV : value;
  c_oldV : value;
  c_options : option ChangeOptions
}.

(** One [baseWatch] registration made by the inner [iterate(key)], with
    what its closures capture: [curObj] and [key] (the getter), the parent's
    [keyPathList], and the array [keyStopList], shared by the callback and
    by the eager recursion.  [w_value] is the value the engine saw last and
    [w_active] turns false when the disposer is called. *)
Record watcher := mkWatcher {
  w_curObj : loc;
  w_key : key;
  w_keyPathList : list key;
  w_value : value;
  w_active : bool;
  w_keyStopList : list disposer
}.

(** The heap, the registrations in the order they were made (a watcher's
    id is its position) and the calls of the user's callback, oldest
    first. *)
Record world := mkWorld {
  heap : list jsobj;
  watchers : list watcher;
  fired : list call
}.

#[global] Instance disposer_eq_dec : EqDecision disposer.
Proof. solve_decision. Defined.

#[global] Instance ChangeOptions_eq_dec : EqDecision ChangeOptions.
Proof. solve_decision. Defined.

(** [curObj[key]] on the heap of [w]. *)
Definition read (w : world) (l : loc) (k : key) : value :=
  match heap w !! l with
  | Some o => get_prop o k
  | None => VUndefined
  end.

Definition with_watchers (f : list watcher -> list watcher) (w : world) : world :=
  mkWorld (heap w) (f (watchers w)) (fired w).

Definition deactivate (r : watcher) : watcher :=
  mkWatcher (w_curObj r) (w_key r) (w_keyPathList r) (w_value r) false
    (w_keyStopList r).

Definition set_keyStopList (l : list disposer) (r : watcher) : watcher :=
  mkWatcher (w_curObj r) (w_key r) (w_keyPathList r) (w_value r) (w_active r) l.

Definition set_value (v : value) (r : watcher) : watcher :=
  mkWatcher (w_curObj r) (w_key r) (w_keyPathList r) v (w_active r)
    (w_keyStopList r).

(** Modelled from the spec: the disposer returned by [watch] of [./watch],
    which is not among the sources.  Calling it ends the watcher; calling it
    again changes nothing. *)
Definition stop (w : world) (d : disposer) : world :=
  match d with
  | Stop id => with_watchers (alter deactivate id) w
  end.

(** [list.forEach(stop => stop())] *)
Definition stop_all (l : list disposer) (w : world) : world :=
  fold_left stop l w.

(** [keyStopList.push(...ds)] on the array of watcher [id]. *)
Definition keyStopList_push (id : nat) (ds : list disposer) (w : world) : world :=
  with_watchers (alter (fun r => set_keyStopList (w_keyStopList r ++ ds) r) id) w.

(** [keyStopList.splice(0, keyStopList.length)] *)
Definition keyStopList_clear (id : nat) (w : world) : world :=
  with_watchers (alter (set_keyStopList []) id) w.

Definition log_call (c : call) (w : world) : world :=
  mkWorld (heap w) (watchers w) (fired w ++ [c]).

(** Modelled from the spec: [isObject] of @goldfishjs/utils, which is not
    among the sources; the spec calls the values it accepts composite
    (object or array). *)
Definition isObject (v : value) : bool :=
  match v with
  | VObj _ => true
  | _ => false
  end.

(** The option bag of [watchDeep]; [customWatch] is left unset, so
    [baseWatch] is the engine's own [watch]. *)
Record IWatchDeepOptions := mkOptions {
  immediate : bool
}.

(** The path the callback of a watcher reports: [[...keyPathList, key]]. *)
Definition callback_keyPathList (r : watcher) : list key :=
  w_keyPathList r ++ [w_key r].

(** *** The Watcher class *)

Section Watcher.

(** [this.obj] and [this.options]; [this.callback] appends to [fired]. *)
Variable obj : value.
Variable options : option IWatchDeepOptions.

(** [this.options && this.options.immediate] *)
Definition immediate_set : bool :=
  match options with
  | Some o => immediate o
  | None => false
  end.

(** What a recursive call of [this.iterate] returns: the disposers and the
    world after it, or nothing when the model's budget ran out. *)
Definition walk := value -> list key -> world -> option (list disposer * world).

(** The callback handed to [baseWatch] by watcher [id], lines 38 to 51, with
    [this.iterate] passed in. *)
Definition on_change (iter : walk) (id : nat) (newV oldV : value)
    (chg : option ChangeOptions) (w : world) : option world :=
  match watchers w !! id with
  | None => Some w
  | Some r =>
      let path := callback_keyPathList r in
      let w1 := log_call (mkCall obj path newV oldV chg) w in
      let w2 :=
        if isObject oldV
        then keyStopList_clear id (stop_all (w_keyStopList r) w1)
        else w1 in
      if isObject newV
      then match iter newV path w2 with
           | Some (ds, w3) => Some (keyStopList_push id ds w3)
           | None => None
           end
      else Some w2
  end.

(** Modelled from the spec: [watch(getter, callback, options)] of
    [./watch], which is not among the sources.  It registers a watcher on
    the getter's value and returns its disposer; with [immediate] it calls
    the callback at once with the current value as new value, [undefined]
    as old value and no change options. *)
Definition baseWatch (iter : walk) (curObj : loc) (k : key)
    (keyPathList : list key) (w : world) : option (disposer * world) :=
  let id := length (watchers w) in
  let r := mkWatcher curObj k keyPathList (read w curObj k) true [] in
  let w1 := with_watchers (fun ws => ws ++ [r]) w in
  if immediate_set
  then match on_change iter id (read w curObj k) VUndefined None w1 with
       | Some w2 => Some (Stop id, w2)
       | None => None
       end
  else Some (Stop id, w1).

(** The inner [iterate(key)], lines 34 to 58; [stopList] is the array of
    the enclosing call. *)
Definition iterate_key (iter : walk) (curObj : loc) (keyPathList : list key)
    (k : key) (stopList : list disposer) (w : world)
  : option (list disposer * world) :=
  match baseWatch iter curObj k keyPathList w with
  | None => None
  | Some (Stop id, w1) =>
      let stopList1 := stopList ++ [Stop id] in
      if negb immediate_set
      then match iter (read w1 curObj k) (keyPathList ++ [k]) w1 with
           | Some (ds, w2) => Some (stopList1, keyStopList_push id ds w2)
           | None => None
           end
      else Some (stopList1, w1)
  end.

(** The loop over the keys of one node. *)
Fixpoint iterate_keys (iter : walk) (curObj : loc) (keyPathList : list key)
    (keys : list key) (stopList : list disposer) (w : world)
  : option (list disposer * world) :=
  match keys with
  | [] => Some (stopList, w)
  | k :: keys' =>
      match iterate_key iter curObj keyPathList k stopList w with
      | Some (stopList1, w1) => iterate_keys iter curObj keyPathList keys' stopList1 w1
      | None => None
      end
  end.

(** [Watcher.iterate]; [fuel] bounds the depth of the recursion, which the
    object graph of a cyclic heap does not. *)
Fixpoint iterate (fuel : nat) (curObj : value) (keyPathList : list key)
    (w : world) : option (list disposer * world) :=
  if truthy curObj && String.eqb (typeof curObj) "object"
  then
    match fuel with
    | O => None
    | S fuel' =>
        match curObj with
        | VObj l =>
            match heap w !! l with
            | Some o => iterate_keys (iterate fuel') l keyPathList (enum_keys o) [] w
            | None => None
            end
        | _ => Some ([], w)
        end
    end
  else Some ([], w).

(** [Watcher.watch] and, with the constructor, [watchDeep]. *)
Definition watchDeep (fuel : nat) (w : world) : option (list disposer * world) :=
  iterate fuel obj [] w.

(** Modelled from the spec: the watch engine re-evaluating one watcher after
    a write to [l[k]]: a stopped watcher and a watcher of another property
    ignore it; otherwise the getter is read again and, when the value is not
    the one seen last, the callback gets the new and the old value. *)
Definition notify (fuel : nat) (l : loc) (k : key) (w : world) (id : nat)
  : option world :=
  match watchers w !! id with
  | None => Some w
  | Some r =>
      if w_active r && bool_decide (w_curObj r = l) && bool_decide (w_key r = k)
      then
        let newV := read w l k in
        if strict_eq (w_value r) newV then Some w
        else on_change (iterate fuel) id newV (w_value r) (Some (Changed l k))
               (with_watchers (alter (set_value newV) id) w)
      else Some w
  end.

(** Modelled from the spec: the watchers are notified one after the other,
    in the order they subscribed. *)
Fixpoint notify_all (fuel : nat) (l : loc) (k : key) (ids : list nat) (w : world)
  : option world :=
  match ids with
  | [] => Some w
  | id :: ids' =>
      match notify fuel l k w id with
      | Some w1 => notify_all fuel l k ids' w1
      | None => None
      end
  end.

(** Modelled from the spec: a write to a reactive container.  Writing the
    value already stored does nothing; a different value is stored and the
    watchers registered at that time are notified in the order they
    subscribed. *)
Definition write (fuel : nat) (l : loc) (k : key) (v : value) (w : world)
  : option world :=
  match heap w !! l with
  | None => None
  | Some o =>
      if strict_eq (get_prop o k) v then Some w
      else
        let w1 := mkWorld (<[l := set_prop o k v]> (heap w)) (watchers w) (fired w) in
        notify_all fuel l k (seq 0 (length (watchers w1))) w1
  end.

End Watcher.

(** The keys, in order, of the watchers that are still active. *)
Definition active_watchers (w : world) : list (loc * key * list key) :=
  (fun r => (w_curObj r, w_key r, w_keyPathList r))
    <$> List.filter w_active (watchers w).

(** *** Sample heaps *)

(** [{ a: { b: 1 } }], and the object [{ c: 2 }] to be assigned to [a]. *)
Definition heap_ab : list jsobj :=
  [ JObject [("a", VObj 1)]; JObject [("b", VNum 1)]; JObject [("c", VNum 2)] ].

(** [{ a: { b: { c: 1 } } }], and the object [{ d: 4 }] to be assigned to [a]. *)
Definition heap_abc : list jsobj :=
  [ JObject [("a", VObj 1)]; JObject [("b", VObj 2)]; JObject [("c", VNum 1)];
    JObject [("d", VNum 4)] ].

(** [{ list: [10, { x: 1 }] }] *)
Definition heap_list : list jsobj :=
  [ JObject [("list", VObj 1)]; JArray [Some (VNum 10); Some (VObj 2)];
    JObject [("x", VNum 1)] ].

Definition start (h : list jsobj) : world := mkWorld h [] [].

(** *** Heaps on which the walk ends *)

(** The object graph below [v] is at most [n] objects deep (so it has no
    cycle and no dangling reference). *)
Fixpoint depth_ok (n : nat) (h : list jsobj) (v : value) : bool :=
  match v with
  | VObj l =>
      match n with
      | O => false
      | S n' =>
          match h !! l with
          | Some o => forallb (depth_ok n' h) (obj_values o)
          | None => false
          end
      end
  | _ => true
  end.

(** Watcher [id] is active and watches [l[k]] below the path [path]. *)
Definition watcher_at (w : world) (id : nat) (l : loc) (k : key)
    (path : list key) : Prop :=
  exists r, watchers w !! id = Some r /\
    w_curObj r = l /\ w_key r = k /\ w_keyPathList r = path /\ w_active r = true.

Definition watching (w : world) (l : loc) (k : key) (path : list key) : Prop :=
  exists id, watcher_at w id l k path.

(** Every key of every object below [v] has an active watcher that reports
    the path from the root to that key. *)
Fixpoint covered (n : nat) (w : world) (v : value) (path : list key) : Prop :=
  match v with
  | VObj l =>
      match n with
      | O => False
      | S n' =>
          match heap w !! l with
          | Some o =>
              Forall (fun k => watching w l k path /\
                               covered n' w (get_prop o k) (path ++ [k]))
                (enum_keys o)
          | None => False
          end
      end
  | _ => True
  end.

(** Everything of a watcher but its [keyStopList]. *)
Definition same_static (r r' : watcher) : Prop :=
  w_curObj r = w_curObj r' /\ w_key r = w_key r' /\
  w_keyPathList r = w_keyPathList r' /\ w_value r = w_value r' /\
  w_active r = w_active r'.

(** From [w] to [w'] the heap stayed, no watcher was stopped or retargeted
    and the calls made were added at the end of [fired]. *)
Definition grows (w w' : world) : Prop :=
  heap w' = heap w /\
  (forall id r, watchers w !! id = Some r ->
     exists r', watchers w' !! id = Some r' /\ same_static r r') /\
  exists cs, fired w' = fired w ++ cs.

Lemma same_static_refl r : same_static r r.
Proof. by repeat split. Qed.

Lemma same_static_trans r1 r2 r3 :
  same_static r1 r2 -> same_static r2 r3 -> same_static r1 r3.
Proof. unfold same_static. intuition congruence. Qed.

Lemma grows_same_watchers w w' :
  heap w' = heap w -> watchers w' = watchers w ->
  (exists cs, fired w' = fired w ++ cs) -> grows w w'.
Proof.
  intros Hh Hw Hf. split; [done|]. split; [|done].
  intros id r H. exists r. rewrite Hw. split; [done|apply same_static_refl].
Qed.

Lemma grows_refl w : grows w w.
Proof. apply grows_same_watchers; try done. exists []. by rewrite app_nil_r. Qed.

Lemma grows_trans w1 w2 w3 : grows w1 w2 -> grows w2 w3 -> grows w1 w3.
Proof.
  intros (Hh1 & H1 & [c1 Hc1]) (Hh2 & H2 & [c2 Hc2]). split; [congruence|]. split.
  - intros id r Hr. destruct (H1 id r Hr) as (r2 & Hr2 & Hs2).
    destruct (H2 id r2 Hr2) as (r3 & Hr3 & Hs3).
    exists r3. split; [done|]. by eapply same_static_trans.
  - exists (c1 ++ c2). by rewrite Hc2, Hc1, app_assoc.
Qed.

Lemma grows_log_call c w : grows w (log_call c w).
Proof. apply grows_same_watchers; try done. by exists [c]. Qed.

Lemma grows_append r0 w : grows w (with_watchers (fun ws => ws ++ [r0]) w).
Proof.
  split; [done|]. split; [|exists []; simpl; by rewrite app_nil_r].
  intros id r H. exists r. split; [|apply same_static_refl].
  simpl. by apply lookup_app_l_Some.
Qed.

Lemma grows_keyStopList_push id ds w : grows w (keyStopList_push id ds w).
Proof.
  split; [done|]. split; [|exists []; simpl; by rewrite app_nil_r].
  intros j r H. simpl.
  destruct (decide (id = j)) as [->|Hne].
  - eexists. rewrite list_lookup_alter_eq, H. split; [done|]. by repeat split.
  - exists r. rewrite list_lookup_alter_ne by done. split; [done|apply same_static_refl].
Qed.

Lemma watcher_at_grows w w' id l k path :
  grows w w' -> watcher_at w id l k path -> watcher_at w' id l k path.
Proof.
  intros (_ & H & _) (r & Hr & H1 & H2 & H3 & H4).
  destruct (H id r Hr) as (r' & Hr' & S1 & S2 & S3 & S4 & S5).
  exists r'. split; [done|]. repeat split; congruence.
Qed.

Lemma watching_grows w w' l k path :
  grows w w' -> watching w l k path -> watching w' l k path.
Proof. intros Hg [id H]. exists id. by eapply watcher_at_grows. Qed.

Lemma covered_grows n : forall w w' v path,
  grows w w' -> covered n w v path -> covered n w' v path.
Proof.
  induction n as [|n IH]; intros w w' v path Hg Hc; destruct v; try done.
  simpl in *. pose proof Hg as (Hh & _ & _). rewrite Hh.
  destruct (heap w !! l) as [o|]; [|done].
  eapply Forall_impl; [exact Hc|]. simpl. intros k [H1 H2]. split.
  - by eapply watching_grows.
  - by eapply IH.
Qed.

Lemma read_grows w w' l k : grows w w' -> read w' l k = read w l k.
Proof. intros [Hh _]. unfold read. by rewrite Hh. Qed.

(** What [forEach] visits: the indices that hold an element, upwards. *)
Lemma elem_of_present_from (elems : list (option value)) (j i : nat) :
  i ∈ present_from j elems <->
  (j <= i)%nat /\ exists v, elems !! (i - j)%nat = Some (Some v).
Proof.
  revert j. induction elems as [|e elems IH]; intros j; simpl.
  - split; [intros H; by apply elem_of_nil in H|]. by intros [_ [v ?]].
  - destruct e as [v0|].
    + rewrite elem_of_cons, IH. split.
      * intros [->|[Hle [v Hv]]].
        -- split; [lia|]. exists v0. by replace (j - j)%nat with 0%nat by lia.
        -- split; [lia|]. exists v.
           replace (i - j)%nat with (S (i - S j)) by lia. done.
      * intros [Hle [v Hv]]. destruct (decide (i = j)) as [->|Hne]; [by left|].
        right. split; [lia|]. exists v.
        replace (i - j)%nat with (S (i - S j)) in Hv by lia. done.
    + rewrite IH. split.
      * intros [Hle [v Hv]]. split; [lia|]. exists v.
        replace (i - j)%nat with (S (i - S j)) by lia. done.
      * intros [Hle [v Hv]].
        destruct (decide (i = j)) as [->|Hne].
        { replace (j - j)%nat with 0%nat in Hv by lia. done. }
        split; [lia|]. exists v.
        replace (i - j)%nat with (S (i - S j)) in Hv by lia. done.
Qed.

Lemma present_from_sorted (elems : list (option value)) (j : nat) :
  StronglySorted lt (present_from j elems).
Proof.
  revert j. induction elems as [|[v|] elems IH]; intros j; simpl.
  - constructor.
  - constructor; [apply IH|]. apply Forall_forall. intros i Hi.
    apply elem_of_present_from in Hi. lia.
  - apply IH.
Qed.

Lemma present_from_dense (elems : list (option value)) (j : nat) :
  Forall (fun e => e <> None) elems ->
  present_from j elems = seq j (length elems).
Proof.
  revert j. induction elems as [|[v|] elems IH]; intros j Hd; simpl; [done| |].
  - f_equal. apply IH. by apply Forall_cons in Hd as [_ ?].
  - apply Forall_cons in Hd as [Hn _]. done.
Qed.

Lemma assoc_get_elem (props : list (string * value)) (s : string) :
  s ∈ fst <$> props -> exists v, assoc_get props s = Some v /\ v ∈ snd <$> props.
Proof.
  induction props as [|[k v] props IH]; simpl; intros Hin.
  - by apply elem_of_nil in Hin.
  - destruct (String.eqb k s) eqn:E.
    + exists v. split; [done|]. left.
    + apply String.eqb_neq in E. apply elem_of_cons in Hin as [->|Hin]; [done|].
      destruct (IH Hin) as (v' & Hv' & Hi). exists v'. split; [done|]. by right.
Qed.

Lemma get_prop_in_values (o : jsobj) (k : key) :
  k ∈ enum_keys o -> get_prop o k ∈ obj_values o.
Proof.
  destruct o as [elems|props]; simpl; intros Hin.
  - apply list_elem_of_fmap in Hin as (i & -> & Hi).
    apply elem_of_present_from in Hi as [_ [v Hv]].
    replace (i - 0)%nat with i in Hv by lia. simpl. rewrite Hv.
    apply list_elem_of_omap. exists (Some v). split; [|done].
    by eapply list_elem_of_lookup_2.
  - apply list_elem_of_fmap in Hin as (s & -> & Hs).
    destruct (assoc_get_elem props s Hs) as (v & Hv & Hi). simpl. by rewrite Hv.
Qed.

Lemma depth_ok_child (n : nat) (h : list jsobj) (l : loc) (o : jsobj) (k : key) :
  depth_ok (S n) h (VObj l) = true -> h !! l = Some o -> k ∈ enum_keys o ->
  depth_ok n h (get_prop o k) = true.
Proof.
  simpl. intros Hd Ho Hk. rewrite Ho in Hd.
  rewrite forallb_forall in Hd. apply Hd. apply list_elem_of_In.
  by apply get_prop_in_values.
Qed.

(** *** The walk at set-up *)

Lemma iterate_non_composite obj options fuel v path w :
  truthy v && String.eqb (typeof v) "object" = false ->
  iterate obj options fuel v path w = Some ([], w).
Proof. intros H. destruct fuel; simpl; by rewrite H. Qed.

Lemma isObject_false_non_composite v :
  isObject v = false -> truthy v && String.eqb (typeof v) "object" = false.
Proof. destruct v; try done; simpl; intros _; by rewrite ?andb_false_r. Qed.

Lemma covered_non_object n v path w : isObject v = false -> covered n w v path.
Proof. destruct v; try done; by destruct n. Qed.

Section SetUp.

Variable obj : value.
Variable options : option IWatchDeepOptions.

(** A recursive call that ends on graphs at most [n] deep, keeps what was
    there and covers what it walks. *)
Variable n : nat.
Variable iter : walk.
Hypothesis iter_ok : forall v path w,
  depth_ok n (heap w) v = true ->
  exists ds w', iter v path w = Some (ds, w') /\ grows w w' /\ covered n w' v path.

Lemma on_change_first_call id r newV chg w :
  watchers w !! id = Some r ->
  depth_ok n (heap w) newV = true ->
  exists w', on_change obj iter id newV VUndefined chg w = Some w' /\
    grows w w' /\ covered n w' newV (callback_keyPathList r).
Proof.
  intros Hr Hd. unfold on_change. rewrite Hr. cbn [isObject].
  destruct (isObject newV) eqn:Eo.
  - destruct (iter_ok newV (callback_keyPathList r)
                (log_call (mkCall obj (callback_keyPathList r) newV VUndefined chg) w))
      as (ds & w3 & -> & Hg & Hc); [done|].
    eexists. split; [done|]. split.
    + eapply grows_trans; [apply grows_log_call|].
      eapply grows_trans; [exact Hg|apply grows_keyStopList_push].
    + eapply covered_grows; [apply grows_keyStopList_push|done].
  - eexists. split; [done|]. split; [apply grows_log_call|].
    by apply covered_non_object.
Qed.

Lemma baseWatch_ok l k path w :
  depth_ok n (heap w) (read w l k) = true ->
  exists w1, baseWatch obj options iter l k path w
             = Some (Stop (length (watchers w)), w1) /\
    grows w w1 /\ watcher_at w1 (length (watchers w)) l k path /\
    (immediate_set options = true -> covered n w1 (read w l k) (path ++ [k])).
Proof.
  intros Hd. unfold baseWatch.
  set (r := mkWatcher l k path (read w l k) true []).
  set (w1 := with_watchers (fun ws => ws ++ [r]) w).
  assert (Hr : watchers w1 !! length (watchers w) = Some r).
  { simpl. by rewrite list_lookup_middle. }
  assert (Hat : watcher_at w1 (length (watchers w)) l k path) by (by exists r).
  destruct (immediate_set options).
  - destruct (on_change_first_call _ r (read w l k) None w1 Hr Hd)
      as (w2 & -> & Hg & Hc).
    exists w2. split; [done|]. split.
    + eapply grows_trans; [apply grows_append|done].
    + split; [by eapply watcher_at_grows|]. by intros _.
  - exists w1. split; [done|]. split; [apply grows_append|]. by split.
Qed.

Lemma iterate_key_ok l k path stopList w :
  depth_ok n (heap w) (read w l k) = true ->
  exists w', iterate_key obj options iter l path k stopList w
             = Some (stopList ++ [Stop (length (watchers w))], w') /\
    grows w w' /\ watcher_at w' (length (watchers w)) l k path /\
    covered n w' (read w l k) (path ++ [k]).
Proof.
  intros Hd. unfold iterate_key.
  destruct (baseWatch_ok l k path w Hd) as (w1 & -> & Hg & Hat & Hc).
  destruct (immediate_set options); simpl.
  - exists w1. split; [done|]. split; [done|]. split; [done|]. by apply Hc.
  - rewrite (read_grows w w1) by done.
    destruct (iter_ok (read w l k) (path ++ [k]) w1) as (ds & w2 & -> & Hg2 & Hc2).
    { destruct Hg as [-> _]. done. }
    eexists. split; [done|].
    assert (Hg3 : grows w1 (keyStopList_push (length (watchers w)) ds w2))
      by (eapply grows_trans; [exact Hg2|apply grows_keyStopList_push]).
    split; [by eapply grows_trans|]. split; [by eapply watcher_at_grows|].
    eapply covered_grows; [apply grows_keyStopList_push|done].
Qed.

Lemma iterate_keys_ok l path keys : forall stopList w,
  Forall (fun k => depth_ok n (heap w) (read w l k) = true) keys ->
  exists ds w', iterate_keys obj options iter l path keys stopList w
                = Some (stopList ++ ds, w') /\
    grows w w' /\
    Forall2 (fun k d => exists id, d = Stop id /\ watcher_at w' id l k path) keys ds /\
    Forall (fun k => covered n w' (read w l k) (path ++ [k])) keys.
Proof.
  induction keys as [|k keys IH]; intros stopList w Hd; simpl.
  - exists [], w. rewrite app_nil_r. split; [done|]. split; [apply grows_refl|].
    split; constructor.
  - apply Forall_cons in Hd as [Hk Hd].
    destruct (iterate_key_ok l k path stopList w Hk) as (w1 & -> & Hg1 & Hat & Hc).
    destruct (IH (stopList ++ [Stop (length (watchers w))]) w1)
      as (ds & w' & -> & Hg2 & Hf2 & Hcs).
    { eapply Forall_impl; [exact Hd|]. simpl. intros k' Hk'.
      rewrite (read_grows w w1) by done. destruct Hg1 as [-> _]. done. }
    exists (Stop (length (watchers w)) :: ds), w'.
    split; [by rewrite <- app_assoc|]. split; [by eapply grows_trans|]. split.
    + constructor; [|done]. eexists. split; [done|]. by eapply watcher_at_grows.
    + constructor.
      * by eapply covered_grows.
      * eapply Forall_impl; [exact Hcs|]. simpl. intros k' Hk'.
        by rewrite <- (read_grows w w1).
Qed.

End SetUp.

(** On a graph at most [fuel] deep the walk ends; it keeps the heap and the
    watchers that were there, returns one disposer per key of the node, in
    the order of [enum_keys], each of a watcher of that key with the node's
    path, and leaves every key of every object below the node watched. *)
Lemma iterate_ok obj options fuel : forall v path w,
  depth_ok fuel (heap w) v = true ->
  exists ds w', iterate obj options fuel v path w = Some (ds, w') /\
    grows w w' /\ covered fuel w' v path /\
    forall l o, v = VObj l -> heap w !! l = Some o ->
      Forall2 (fun k d => exists id, d = Stop id /\ watcher_at w' id l k path)
        (enum_keys o) ds.
Proof.
  assert (Hprim : forall fuel v path w, isObject v = false ->
            exists ds w', iterate obj options fuel v path w = Some (ds, w') /\
              grows w w' /\ covered fuel w' v path /\
              forall l o, v = VObj l -> heap w !! l = Some o ->
                Forall2 (fun k d => exists id, d = Stop id /\ watcher_at w' id l k path)
                  (enum_keys o) ds).
  { intros f v path w Hv. exists [], w.
    split; [by apply iterate_non_composite, isObject_false_non_composite|].
    split; [apply grows_refl|]. split; [by apply covered_non_object|].
    intros l o ->. discriminate. }
  induction fuel as [|fuel IH]; intros v path w Hd.
  - destruct v; (by apply Hprim) || discriminate.
  - destruct v; try (by apply Hprim).
    cbn [iterate truthy typeof]. cbn [andb String.eqb]. 
    change (String.eqb "object" "object") with true. cbn iota.
    pose proof Hd as Hd'. simpl in Hd'.
    destruct (heap w !! l) as [o|] eqn:Ho; [|done].
    assert (IH' : forall v0 p w0, depth_ok fuel (heap w0) v0 = true ->
              exists ds0 w0', iterate obj options fuel v0 p w0 = Some (ds0, w0') /\
                grows w0 w0' /\ covered fuel w0' v0 p).
    { intros v0 p w0 H0. destruct (IH v0 p w0 H0) as (ds0 & w0' & A & B & C & _).
      by exists ds0, w0'. }
    destruct (iterate_keys_ok obj options fuel (iterate obj options fuel) IH'
                l path (enum_keys o) [] w)
      as (ds & w' & Heq & Hg & Hf & Hc).
    { apply Forall_forall. intros k Hk. unfold read. rewrite Ho.
      by eapply depth_ok_child. }
    exists ds, w'. split; [done|]. split; [done|]. split.
    + cbn [covered]. pose proof Hg as (Hh & _ & _). rewrite Hh, Ho.
      apply Forall_forall. intros k Hk. split.
      * rewrite Forall2_lookup in Hf.
        apply list_elem_of_lookup in Hk as [i Hi].
        specialize (Hf i). rewrite Hi in Hf.
        inversion Hf as [k' d (id & _ & Hat) E1 E2|]. by exists id.
      * rewrite Forall_forall in Hc. specialize (Hc k Hk).
        unfold read in Hc. by rewrite Ho in Hc.
    + intros l' o' [= <-] Ho'. rewrite Ho in Ho'. by injection Ho' as <-.
Qed.

Lemma stop_all_heap_fired ds : forall w,
  heap (stop_all ds w) = heap w /\ fired (stop_all ds w) = fired w.
Proof.
  unfold stop_all. induction ds as [|[id] ds IH]; intros w; [done|].
  cbn [fold_left]. destruct (IH (stop w (Stop id))) as [-> ->]. done.
Qed.

(** The callback of a watcher first calls the user's callback with the
    root, the watcher's path, the new and the old value and the options it
    was given. *)
Lemma on_change_delivers obj options fuel id r newV oldV chg w :
  watchers w !! id = Some r ->
  depth_ok fuel (heap w) newV = true ->
  exists w' cs,
    on_change obj (iterate obj options fuel) id newV oldV chg w = Some w' /\
    fired w' = fired w ++ mkCall obj (callback_keyPathList r) newV oldV chg :: cs.
Proof.
  intros Hr Hd. unfold on_change. rewrite Hr.
  set (c := mkCall obj (callback_keyPathList r) newV oldV chg).
  set (w2 := if isObject oldV then _ else _).
  assert (H2 : heap w2 = heap w /\ fired w2 = fired w ++ [c]).
  { unfold w2. destruct (isObject oldV); [|done]. simpl.
    destruct (stop_all_heap_fired (w_keyStopList r) (log_call c w)) as [-> ->].
    done. }
  destruct H2 as [Hh Hf]. destruct (isObject newV).
  - destruct (iterate_ok obj options fuel newV (callback_keyPathList r) w2)
      as (ds & w3 & -> & (_ & _ & [cs Hcs]) & _); [by rewrite Hh|].
    eexists _, cs. split; [done|]. simpl. by rewrite Hcs, Hf, <- app_assoc.
  - exists w2, []. by split.
Qed.

(** C4. For a root that is [null], [undefined] or of a type other than
    object, [watchDeep] returns the empty list of disposers and leaves the
    world as it was: no watcher is installed and nothing is thrown. *)
Theorem watchDeep_non_composite_root (v : value)
    (options : option IWatchDeepOptions) (fuel : nat) (w : world) :
  v = VNull \/ v = VUndefined \/ typeof v <> "object" ->
  watchDeep v options fuel w = Some ([], w).
Proof.
  intros H. unfold watchDeep. apply iterate_non_composite.
  destruct H as [->|[->|H]]; [done|done|].
  destruct v; try done; simpl; by rewrite ?andb_false_r.
Qed.

(** The theorem at the root [5]. *)
Lemma watchDeep_non_composite_root_witness :
  watchDeep (VNum 5) None 0 (start heap_ab) = Some ([], start heap_ab).
Proof.
  apply watchDeep_non_composite_root. right. right. discriminate.
Defined.

(** C6. At a composite node the walk makes its watchers key by key in the
    order of [enum_keys]: for an array the indices that hold an element, as
    numbers and upwards (all of 0 .. length-1 when the array has no hole),
    for another object its enumerable keys, as strings, in the order they
    are listed.  The disposers come back in that order, each watcher reads
    its key on that node, and its callback calls the user's callback with
    the node's path extended by that key. *)
Theorem iterate_keys_in_order (obj : value) (options : option IWatchDeepOptions)
    (fuel : nat) (l : loc) (o : jsobj) (path : list key) (w : world) :
  heap w !! l = Some o ->
  depth_ok fuel (heap w) (VObj l) = true ->
  exists ds w',
    iterate obj options fuel (VObj l) path w = Some (ds, w') /\
    Forall2
      (fun k d => exists id r,
         d = Stop id /\ watchers w' !! id = Some r /\
         w_curObj r = l /\ w_key r = k /\
         callback_keyPathList r = path ++ [k] /\
         forall newV oldV chg, depth_ok fuel (heap w') newV = true ->
           exists w2 cs,
             on_change obj (iterate obj options fuel) id newV oldV chg w' = Some w2 /\
             fired w2 = fired w' ++ mkCall obj (path ++ [k]) newV oldV chg :: cs)
      (enum_keys o) ds /\
    match o with
    | JArray elems =>
        exists idx, enum_keys o = KIndex <$> idx /\
          StronglySorted lt idx /\
          (forall i, i ∈ idx <-> exists v, elems !! i = Some (Some v)) /\
          (Forall (fun e => e <> None) elems -> idx = seq 0 (length elems))
    | JObject props => enum_keys o = KName <$> (fst <$> props)
    end.
Proof.
  intros Ho Hd.
  destruct (iterate_ok obj options fuel (VObj l) path w Hd)
    as (ds & w' & Heq & Hg & _ & Hf).
  exists ds, w'. split; [done|]. split.
  - eapply Forall2_impl; [exact (Hf l o eq_refl Ho)|]. simpl.
    intros k d (id & -> & r & Hr & H1 & H2 & H3 & H4).
    exists id, r. repeat (split; [done|]).
    split; [unfold callback_keyPathList; by rewrite H2, H3|].
    intros newV oldV chg Hn.
    destruct (on_change_delivers obj options fuel id r newV oldV chg w' Hr Hn)
      as (w2 & cs & E1 & E2).
    exists w2, cs. split; [done|]. rewrite E2.
    unfold callback_keyPathList. by rewrite H2, H3.
  - destruct o as [elems|props]; [|done].
    exists (present_from 0 elems). split; [done|].
    split; [apply present_from_sorted|]. split; [|apply present_from_dense].
    intros i. rewrite elem_of_present_from.
    replace (i - 0)%nat with i by lia. split; [by intros [_ ?]|].
    intros H. split; [lia|done].
Qed.

(** The theorem at the array of [{ list: [10, { x: 1 }] }]. *)
Lemma iterate_keys_in_order_witness :
  exists ds w',
    iterate (VObj 0) None 2 (VObj 1) [KName "list"] (start heap_list) = Some (ds, w') /\
    length ds = 2%nat.
Proof.
  destruct (iterate_keys_in_order (VObj 0) None 2 1
              (JArray [Some (VNum 10); Some (VObj 2)]) [KName "list"]
              (start heap_list) eq_refl eq_refl)
    as (ds & w' & H & Hf & _).
  exists ds, w'. split; [exact H|].
  apply Forall2_length in Hf. simpl in Hf. by rewrite <- Hf.
Defined.

(** *** With and without [immediate] *)

(** The call a watcher's callback makes when the engine fires it at once. *)
Definition immediate_call (obj : value) (r : watcher) : call :=
  mkCall obj (callback_keyPathList r) (w_value r) VUndefined None.

(** One step of two walks side by side, [wI] with [immediate] and [wN]
    without: they end with the same heap and the same watchers; the walk
    without [immediate] made no call; the walk with it added watchers after
    those it found and made one call for each of them, in their order. *)
Definition side_by_side (obj : value) (wI wN wI' wN' : world) : Prop :=
  heap wI' = heap wN' /\ watchers wI' = watchers wN' /\
  fired wN' = fired wN /\ heap wI' = heap wI /\
  exists new, watchers wI' = watchers wI ++ new /\
              fired wI' = fired wI ++ (immediate_call obj <$> new).

Definition walk_rel (obj : value) (wI wN : world)
    (rI rN : option (list disposer * world)) : Prop :=
  match rI, rN with
  | Some (dI, wI'), Some (dN, wN') => dI = dN /\ side_by_side obj wI wN wI' wN'
  | None, None => True
  | _, _ => False
  end.

Lemma side_by_side_refl obj wI wN :
  heap wI = heap wN -> watchers wI = watchers wN -> side_by_side obj wI wN wI wN.
Proof.
  intros Hh Hw. repeat (split; [done|]). exists []. simpl.
  by rewrite !app_nil_r.
Qed.

Lemma side_by_side_trans obj wI wN wI1 wN1 wI2 wN2 :
  side_by_side obj wI wN wI1 wN1 -> side_by_side obj wI1 wN1 wI2 wN2 ->
  side_by_side obj wI wN wI2 wN2.
Proof.
  intros (A1 & B1 & C1 & D1 & n1 & E1 & F1) (A2 & B2 & C2 & D2 & n2 & E2 & F2).
  split; [done|]. split; [done|]. split; [congruence|]. split; [congruence|].
  exists (n1 ++ n2). rewrite E2, E1, F2, F1, fmap_app, !app_assoc. done.
Qed.

Lemma set_keyStopList_nil_id (r : watcher) :
  set_keyStopList (w_keyStopList r ++ []) r = r.
Proof. destruct r. unfold set_keyStopList. simpl. by rewrite app_nil_r. Qed.

Section SideBySide.

Variable obj : value.
Variables optI optN : option IWatchDeepOptions.
Hypothesis optI_immediate : immediate_set optI = true.
Hypothesis optN_not_immediate : immediate_set optN = false.

Variables iterI iterN : walk.
Hypothesis iter_rel : forall v path wI wN,
  heap wI = heap wN -> watchers wI = watchers wN ->
  walk_rel obj wI wN (iterI v path wI) (iterN v path wN).
Hypothesis iterN_non_object : forall v path w,
  isObject v = false -> iterN v path w = Some ([], w).

Lemma iterate_key_rel l k path stopList wI wN :
  heap wI = heap wN -> watchers wI = watchers wN ->
  walk_rel obj wI wN
    (iterate_key obj optI iterI l path k stopList wI)
    (iterate_key obj optN iterN l path k stopList wN).
Proof.
  intros Hh Hw. unfold iterate_key, baseWatch.
  rewrite optI_immediate, optN_not_immediate. cbn [negb].
  assert (Hread : read wN l k = read wI l k) by (unfold read; by rewrite Hh).
  rewrite Hread, <- Hw.
  set (v := read wI l k). set (id := length (watchers wI)).
  set (r := mkWatcher l k path v true []).
  set (w1I := with_watchers (fun ws => ws ++ [r]) wI).
  set (w1N := with_watchers (fun ws => ws ++ [r]) wN).
  assert (Hr : watchers w1I !! id = Some r) by (simpl; by rewrite list_lookup_middle).
  unfold on_change. rewrite Hr. cbn [isObject].
  assert (Hread1 : read w1N l k = v) by (unfold v, read; simpl; by rewrite Hh).
  rewrite Hread1.
  change (callback_keyPathList r) with (path ++ [k]).
  set (c := mkCall obj (path ++ [k]) v VUndefined None).
  destruct (isObject v) eqn:Ev.
  - assert (Hrel : walk_rel obj (log_call c w1I) w1N
                     (iterI v (path ++ [k]) (log_call c w1I))
                     (iterN v (path ++ [k]) w1N)).
    { apply iter_rel; simpl; congruence. }
    unfold walk_rel in Hrel.
    destruct (iterI v (path ++ [k]) (log_call c w1I)) as [[dsI w3I]|];
      destruct (iterN v (path ++ [k]) w1N) as [[dsN w3N]|]; try done.
    destruct Hrel as (-> & A & B & C & D & new & E & F).
    simpl. split; [done|]. split; [done|]. split; [simpl; by rewrite B|].
    split; [done|]. split; [done|].
    exists (set_keyStopList (w_keyStopList r ++ dsN) r :: new). simpl in *.
    rewrite E, F. split.
    + rewrite <- app_assoc. unfold id.
      rewrite alter_app_r_alt by lia. replace (_ - _)%nat with 0%nat by lia. done.
    + by rewrite <- !app_assoc.
  - rewrite iterN_non_object by done. simpl.
    split; [done|]. split; [done|]. split; [simpl; rewrite Hw|].
    { rewrite list_alter_id; [done|]. intros x. apply set_keyStopList_nil_id. }
    split; [reflexivity|]. split; [done|].
    exists [r]. by split.
Qed.

Lemma iterate_keys_rel l path keys : forall stopList wI wN,
  heap wI = heap wN -> watchers wI = watchers wN ->
  walk_rel obj wI wN
    (iterate_keys obj optI iterI l path keys stopList wI)
    (iterate_keys obj optN iterN l path keys stopList wN).
Proof.
  induction keys as [|k keys IH]; intros stopList wI wN Hh Hw; simpl.
  - split; [done|]. by apply side_by_side_refl.
  - pose proof (iterate_key_rel l k path stopList wI wN Hh Hw) as H1.
    unfold walk_rel in H1.
    destruct (iterate_key obj optI iterI l path k stopList wI) as [[sI w1I]|];
      destruct (iterate_key obj optN iterN l path k stopList wN) as [[sN w1N]|];
      try done.
    destruct H1 as [-> H1]. pose proof H1 as (A & B & _).
    specialize (IH sN w1I w1N A B). unfold walk_rel in *.
    destruct (iterate_keys obj optI iterI l path keys sN w1I) as [[dI w2I]|];
      destruct (iterate_keys obj optN iterN l path keys sN w1N) as [[dN w2N]|];
      try done.
    destruct IH as [-> H2]. split; [done|]. by eapply side_by_side_trans.
Qed.

End SideBySide.

Lemma iterate_rel obj optI optN :
  immediate_set optI = true -> immediate_set optN = false ->
  forall fuel v path wI wN,
    heap wI = heap wN -> watchers wI = watchers wN ->
    walk_rel obj wI wN (iterate obj optI fuel v path wI)
      (iterate obj optN fuel v path wN).
Proof.
  intros HI HN. induction fuel as [|fuel IH]; intros v path wI wN Hh Hw.
  - simpl. destruct (truthy v && _); [done|].
    split; [done|]. by apply side_by_side_refl.
  - simpl. destruct (truthy v && _);
      [|split; [done|]; by apply side_by_side_refl].
    destruct v; try (split; [done|]; by apply side_by_side_refl).
    rewrite <- Hh. destruct (heap wI !! l) as [o|]; [|done].
    apply iterate_keys_rel; try done.
    intros v p w Hv. by apply iterate_non_composite, isObject_false_non_composite.
Qed.

(** *** What the walk returns and what it leaves behind *)

(** With [immediate], right after set-up and with no write made, only the
    keys of the root are watched. *)
Definition descendants_lazy_with_immediate : Prop :=
  forall (h : list jsobj) (root : loc) (fuel : nat) ds w',
    watchDeep (VObj root) (Some (mkOptions true)) fuel (start h) = Some (ds, w') ->
    Forall (fun r => w_keyPathList r = []) (watchers w').

(** C5, as stated, fails: on [{ a: { b: 1 } }] with [immediate] the engine
    fires the callback of [a] at once with the object [{ b: 1 }] as new
    value, and that callback walks into it, so a watcher of [a.b] is there
    before anything changed. *)
Lemma immediate_descendants_at_setup : ~ descendants_lazy_with_immediate.
Proof.
  intros H.
  specialize (H heap_ab 0%nat 2%nat _ _ eq_refl).
  apply Forall_cons in H as [_ H]. apply Forall_cons in H as [H _].
  discriminate H.
Qed.

(** C5, amended. On a graph at most [fuel] deep, set-up ends with every key
    of every object below the root watched, with [immediate] and without,
    by the same watchers and with the same disposers returned.  Without
    [immediate] no callback has been called by then: the watchers below a
    key come from the eager recursion.  With [immediate] that recursion is
    skipped and they come from the callbacks, which the engine has called
    once for each watcher, in the order the watchers were made, with the
    current value as new value and [undefined] as old value. *)
Theorem setup_covers_with_and_without_immediate (obj : value)
    (optI optN : option IWatchDeepOptions) (fuel : nat) (w : world) :
  immediate_set optI = true ->
  immediate_set optN = false ->
  depth_ok fuel (heap w) obj = true ->
  exists ds wI wN new,
    watchDeep obj optN fuel w = Some (ds, wN) /\
    watchDeep obj optI fuel w = Some (ds, wI) /\
    covered fuel wN obj [] /\ covered fuel wI obj [] /\
    watchers wN = watchers w ++ new /\ watchers wI = watchers w ++ new /\
    fired wN = fired w /\
    fired wI = fired w ++ (immediate_call obj <$> new).
Proof.
  intros HI HN Hd. unfold watchDeep.
  destruct (iterate_ok obj optN fuel obj [] w Hd) as (dN & wN & EN & _ & CN & _).
  destruct (iterate_ok obj optI fuel obj [] w Hd) as (dI & wI & EI & _ & CI & _).
  pose proof (iterate_rel obj optI optN HI HN fuel obj [] w w eq_refl eq_refl) as R.
  unfold walk_rel in R. rewrite EI, EN in R.
  destruct R as (-> & A & B & C & D & new & E & F).
  exists dN, wI, wN, new. repeat (split; [done|]).
  split; [congruence|]. by repeat (split; [done|]).
Qed.

(** The theorem at [{ a: { b: 1 } }]. *)
Lemma setup_covers_with_and_without_immediate_witness :
  exists ds wI wN,
    watchDeep (VObj 0) None 2 (start heap_ab) = Some (ds, wN) /\
    watchDeep (VObj 0) (Some (mkOptions true)) 2 (start heap_ab) = Some (ds, wI) /\
    watchers wI = watchers wN /\ length (fired wI) = length (watchers wI).
Proof.
  destruct (setup_covers_with_and_without_immediate (VObj 0)
              (Some (mkOptions true)) None 2 (start heap_ab)
              eq_refl eq_refl eq_refl)
    as (ds & wI & wN & new & H1 & H2 & _ & _ & H3 & H4 & _ & H5).
  exists ds, wI, wN. split; [exact H1|]. split; [exact H2|].
  split; [congruence|]. rewrite H5, H4. simpl. by rewrite length_fmap.
Defined.

(** The list [watchDeep] returns has one disposer for each key of the root
    and no other. *)
Lemma watchDeep_returns_root_level options fuel l o w :
  heap w !! l = Some o ->
  depth_ok fuel (heap w) (VObj l) = true ->
  exists ds w', watchDeep (VObj l) options fuel w = Some (ds, w') /\
    length ds = length (enum_keys o).
Proof.
  intros Ho Hd. unfold watchDeep.
  destruct (iterate_ok (VObj l) options fuel (VObj l) [] w Hd)
    as (ds & w' & E & _ & _ & Hf).
  exists ds, w'. split; [done|].
  symmetry. exact (Forall2_length _ _ _ (Hf l o eq_refl Ho)).
Qed.

(** C1 fails on the code: on [{ a: { b: 1 } }] the returned list is the one
    disposer of the watcher of [a]; the disposer of the watcher of [a.b] is
    in the [keyStopList] of [a] only.  After all returned disposers were
    called the watcher of [a.b] is still active, and the write [a.b = 7]
    still reaches the user's callback. *)
Theorem watchDeep_disposers_leave_descendants :
  exists w1 w2,
    watchDeep (VObj 0) None 2 (start heap_ab) = Some ([Stop 0], w1) /\
    active_watchers w1
    = [(0%nat, KName "a", []); (1%nat, KName "b", [KName "a"])] /\
    active_watchers (stop_all [Stop 0] w1) = [(1%nat, KName "b", [KName "a"])] /\
    write (VObj 0) None 2 1 (KName "b") (VNum 7) (stop_all [Stop 0] w1) = Some w2 /\
    fired w2 = [mkCall (VObj 0) [KName "a"; KName "b"] (VNum 7) (VNum 1)
                  (Some (Changed 1 (KName "b")))].
Proof. eexists _, _. repeat split; reflexivity. Qed.

(** The replacement of the spec's example, [{ a: { b: 1 } }] with
    [a = { c: 2 }]: the callback is called for [a], the watcher of [a.b]
    is stopped, a watcher of [a.c] is made; then [a.c = 3] is reported and a
    write to the old object's [b] is not. *)
Example replace_one_level :
  exists w1 w2 w3 w4,
    watchDeep (VObj 0) None 2 (start heap_ab) = Some ([Stop 0], w1) /\
    write (VObj 0) None 2 0 (KName "a") (VObj 2) w1 = Some w2 /\
    fired w2 = [mkCall (VObj 0) [KName "a"] (VObj 2) (VObj 1)
                  (Some (Changed 0 (KName "a")))] /\
    active_watchers w2 = [(0%nat, KName "a", []); (2%nat, KName "c", [KName "a"])] /\
    write (VObj 0) None 2 2 (KName "c") (VNum 3) w2 = Some w3 /\
    fired w3 = fired w2 ++ [mkCall (VObj 0) [KName "a"; KName "c"] (VNum 3) (VNum 2)
                              (Some (Changed 2 (KName "c")))] /\
    write (VObj 0) None 2 1 (KName "b") (VNum 5) w3 = Some w4 /\
    fired w4 = fired w3.
Proof. eexists _, _, _, _. repeat split; reflexivity. Qed.

(** C2 fails on the code: on [{ a: { b: { c: 1 } } }] the assignment
    [a = { d: 4 }] calls the user's callback for [a], stops the watcher of
    [a.b] (the one entry of the [keyStopList] of [a]) and makes a watcher of
    [a.d]; but the watcher of [a.b.c], whose disposer is in the
    [keyStopList] of [a.b], stays active, and a later write to [c] of the
    replaced object is reported under the path a, b, c. *)
Theorem replaced_subtree_keeps_deep_watchers :
  exists w1 w2 w3,
    watchDeep (VObj 0) None 3 (start heap_abc) = Some ([Stop 0], w1) /\
    write (VObj 0) None 3 0 (KName "a") (VObj 3) w1 = Some w2 /\
    fired w2 = [mkCall (VObj 0) [KName "a"] (VObj 3) (VObj 1)
                  (Some (Changed 0 (KName "a")))] /\
    active_watchers w2
    = [(0%nat, KName "a", []); (2%nat, KName "c", [KName "a"; KName "b"]);
       (3%nat, KName "d", [KName "a"])] /\
    write (VObj 0) None 3 2 (KName "c") (VNum 9) w2 = Some w3 /\
    fired w3 = fired w2 ++ [mkCall (VObj 0) [KName "a"; KName "b"; KName "c"]
                              (VNum 9) (VNum 1) (Some (Changed 2 (KName "c")))].
Proof. eexists _, _, _. repeat split; reflexivity. Qed.

(** Array indices stay numbers and object keys stay strings in the path the
    callback gets: [{ list: [10, { x: 1 }] }] with [list[1].x = 3]. *)
Example path_keeps_index_and_name :
  exists w1 w2,
    watchDeep (VObj 0) None 3 (start heap_list) = Some ([Stop 0], w1) /\
    active_watchers w1
    = [(0%nat, KName "list", []); (1%nat, KIndex 0, [KName "list"]);
       (1%nat, KIndex 1, [KName "list"]);
       (2%nat, KName "x", [KName "list"; KIndex 1])] /\
    write (VObj 0) None 3 2 (KName "x") (VNum 3) w1 = Some w2 /\
    fired w2 = [mkCall (VObj 0) [KName "list"; KIndex 1; KName "x"] (VNum 3)
                  (VNum 1) (Some (Changed 2 (KName "x")))].
Proof. eexists _, _. repeat split; reflexivity. Qed.

(** *** The watchers a walk adds *)

(** What a watcher reads, the path of its node and the value it saw. *)
Definition watcher_target (r : watcher) : loc * key * list key * value :=
  (w_curObj r, w_key r, w_keyPathList r, w_value r).

(** The keys of the objects below [v], depth first and each node's keys in
    the order of [enum_keys]: for each key the object it is read on, the key,
    the path of the object and the value of the key. *)
Fixpoint tree_watchers (n : nat) (h : list jsobj) (v : value) (path : list key)
  : list (loc * key * list key * value) :=
  match v with
  | VObj l =>
      match n with
      | O => []
      | S n' =>
          match h !! l with
          | Some o =>
              flat_map
                (fun k => (l, k, path, get_prop o k)
                          :: tree_watchers n' h (get_prop o k) (path ++ [k]))
                (enum_keys o)
          | None => []
          end
      end
  | _ => []
  end.

(** A walk that only adds watchers, after those that were there: one for
    each key below [v], active, in depth-first order. *)
Definition adds_tree (n : nat) (v : value) (path : list key) (w : world)
    (r : option (list disposer * world)) : Prop :=
  exists ds w' new, r = Some (ds, w') /\ heap w' = heap w /\
    watchers w' = watchers w ++ new /\
    watcher_target <$> new = tree_watchers n (heap w) v path /\
    Forall (fun r => w_active r = true) new.

Lemma tree_watchers_non_object n h v path :
  isObject v = false -> tree_watchers n h v path = [].
Proof. by destruct v, n. Qed.

Lemma alter_keyStopList_middle (ws new : list watcher) (r : watcher)
    (ds : list disposer) :
  alter (fun r => set_keyStopList (w_keyStopList r ++ ds) r) (length ws)
    ((ws ++ [r]) ++ new)
  = ws ++ set_keyStopList (w_keyStopList r ++ ds) r :: new.
Proof.
  rewrite <- app_assoc. rewrite alter_app_r_alt by lia.
  by replace (length ws - length ws)%nat with 0%nat by lia.
Qed.

Section AddsTree.

Variable obj : value.
Variable options : option IWatchDeepOptions.
Variable n : nat.
Variable iter : walk.
Hypothesis iter_adds : forall v path w,
  depth_ok n (heap w) v = true -> adds_tree n v path w (iter v path w).

Lemma iterate_key_adds l k path stopList w :
  depth_ok n (heap w) (read w l k) = true ->
  exists w' new,
    iterate_key obj options iter l path k stopList w
    = Some (stopList ++ [Stop (length (watchers w))], w') /\
    heap w' = heap w /\ watchers w' = watchers w ++ new /\
    watcher_target <$> new
    = (l, k, path, read w l k)
        :: tree_watchers n (heap w) (read w l k) (path ++ [k]) /\
    Forall (fun r => w_active r = true) new.
Proof.
  intros Hd. unfold iterate_key, baseWatch.
  set (v := read w l k) in *. set (id := length (watchers w)).
  set (r := mkWatcher l k path v true []).
  set (w1 := with_watchers (fun ws => ws ++ [r]) w).
  assert (Hr : watchers w1 !! id = Some r) by (simpl; by rewrite list_lookup_middle).
  assert (Hread1 : read w1 l k = v) by done.
  destruct (immediate_set options); cbn [negb].
  - unfold on_change. rewrite Hr. cbn [isObject].
    change (callback_keyPathList r) with (path ++ [k]).
    set (c := mkCall obj (path ++ [k]) v VUndefined None).
    destruct (isObject v) eqn:Ev.
    + destruct (iter_adds v (path ++ [k]) (log_call c w1) Hd)
        as (ds & w3 & new & -> & Hh & Hw & Ht & Ha).
      eexists _, (set_keyStopList (w_keyStopList r ++ ds) r :: new).
      split; [done|]. split; [done|]. simpl in *. rewrite Hw. split.
      * apply alter_keyStopList_middle.
      * split; [by f_equal|]. by constructor.
    + exists (log_call c w1), [r]. split; [done|]. split; [done|].
      split; [done|]. simpl. rewrite tree_watchers_non_object by done.
      split; [done|]. by repeat constructor.
  - rewrite Hread1.
    destruct (iter_adds v (path ++ [k]) w1 Hd)
      as (ds & w2 & new & -> & Hh & Hw & Ht & Ha).
    eexists _, (set_keyStopList (w_keyStopList r ++ ds) r :: new).
    split; [done|]. split; [done|]. simpl in *. rewrite Hw. split.
    + apply alter_keyStopList_middle.
    + split; [by f_equal|]. by constructor.
Qed.

Lemma iterate_keys_adds l o path keys : forall stopList w,
  heap w !! l = Some o ->
  Forall (fun k => depth_ok n (heap w) (get_prop o k) = true) keys ->
  exists ds w' new,
    iterate_keys obj options iter l path keys stopList w = Some (ds, w') /\
    heap w' = heap w /\ watchers w' = watchers w ++ new /\
    watcher_target <$> new
    = flat_map (fun k => (l, k, path, get_prop o k)
                         :: tree_watchers n (heap w) (get_prop o k) (path ++ [k]))
        keys /\
    Forall (fun r => w_active r = true) new.
Proof.
  induction keys as [|k keys IH]; intros stopList w Ho Hd; simpl.
  - exists stopList, w, []. rewrite app_nil_r. by repeat split.
  - apply Forall_cons in Hd as [Hk Hd].
    assert (Hrd : read w l k = get_prop o k) by (unfold read; by rewrite Ho).
    destruct (iterate_key_adds l k path stopList w)
      as (w1 & new1 & -> & Hh1 & Hw1 & Ht1 & Ha1); [by rewrite Hrd|].
    destruct (IH (stopList ++ [Stop (length (watchers w))]) w1)
      as (ds & w' & new2 & -> & Hh2 & Hw2 & Ht2 & Ha2);
      [by rewrite Hh1|by rewrite Hh1|].
    exists ds, w', (new1 ++ new2). split; [done|]. split; [congruence|].
    split; [by rewrite Hw2, Hw1, app_assoc|].
    split; [|by apply Forall_app].
    rewrite fmap_app, Ht1, Ht2, Hrd, Hh1. done.
Qed.

End AddsTree.

Lemma iterate_adds obj options fuel : forall v path w,
  depth_ok fuel (heap w) v = true ->
  adds_tree fuel v path w (iterate obj options fuel v path w).
Proof.
  assert (Hprim : forall f v path w, isObject v = false ->
            adds_tree f v path w (iterate obj options f v path w)).
  { intros f v path w Hv. exists [], w, [].
    split; [by apply iterate_non_composite, isObject_false_non_composite|].
    split; [done|]. split; [by rewrite app_nil_r|].
    split; [by rewrite tree_watchers_non_object|constructor]. }
  induction fuel as [|fuel IH]; intros v path w Hd.
  - destruct v; (by apply Hprim) || discriminate.
  - destruct v; try (by apply Hprim).
    pose proof Hd as Hd'. simpl in Hd'.
    destruct (heap w !! l) as [o|] eqn:Ho; [|done].
    destruct (iterate_keys_adds obj options fuel (iterate obj options fuel) IH
                l o path (enum_keys o) [] w Ho)
      as (ds & w' & new & Heq & Hh & Hw & Ht & Ha).
    { apply Forall_forall. intros k Hk. by eapply depth_ok_child. }
    exists ds, w', new. split; [simpl; by rewrite Ho|].
    split; [done|]. split; [done|]. split; [|done].
    simpl. by rewrite Ho.
Qed.

(** On a graph at most [fuel] deep, with [immediate] or without,
    [watchDeep] leaves the heap and the watchers that were there as they
    are and adds, after them, exactly one active watcher for each key of
    each object below the root, depth first and in key order; an object that
    is reached along two paths gets a watcher on each of its keys for each
    path. *)
Theorem watchDeep_adds_one_watcher_per_key (obj : value)
    (options : option IWatchDeepOptions) (fuel : nat) (w : world) :
  depth_ok fuel (heap w) obj = true ->
  exists ds w' new,
    watchDeep obj options fuel w = Some (ds, w') /\
    heap w' = heap w /\
    watchers w' = watchers w ++ new /\
    watcher_target <$> new = tree_watchers fuel (heap w) obj [] /\
    Forall (fun r => w_active r = true) new.
Proof. intros Hd. by apply iterate_adds. Qed.

(** The theorem at [{ list: [10, { x: 1 }] }]. *)
Lemma watchDeep_adds_one_watcher_per_key_witness :
  exists ds w',
    watchDeep (VObj 0) None 3 (start heap_list) = Some (ds, w') /\
    watcher_target <$> watchers w'
    = [(0%nat, KName "list", [], VObj 1);
       (1%nat, KIndex 0, [KName "list"], VNum 10);
       (1%nat, KIndex 1, [KName "list"], VObj 2);
       (2%nat, KName "x", [KName "list"; KIndex 1], VNum 1)].
Proof.
  destruct (watchDeep_adds_one_watcher_per_key (VObj 0) None 3 (start heap_list)
              eq_refl) as (ds & w' & new & H & _ & Hw & Ht & _).
  exists ds, w'. split; [exact H|]. rewrite Hw. exact Ht.
Defined.

(** *** Calling disposers *)

Lemma deactivate_idemp r : deactivate (deactivate r) = deactivate r.
Proof. done. Qed.

Lemma Forall2_impl_elem {A B : Type} (P Q : A -> B -> Prop) (l : list A)
    (k : list B) :
  Forall2 P l k -> (forall x y, y ∈ k -> P x y -> Q x y) -> Forall2 Q l k.
Proof.
  induction 1 as [|x y l k HP HF IH]; intros Himp; constructor.
  - apply Himp; [left|done].
  - apply IH. intros x' y' Hy. apply Himp. by right.
Qed.

(** After the disposers [ds] were called, the watchers they name are
    stopped and every other watcher is as it was. *)
Lemma stop_all_lookup ds : forall w j,
  watchers (stop_all ds w) !! j
  = (fun r => if bool_decide (Stop j ∈ ds) then deactivate r else r)
      <$> watchers w !! j.
Proof.
  unfold stop_all. induction ds as [|[id] ds IH]; intros w j.
  - simpl. by destruct (watchers w !! j).
  - cbn [fold_left]. rewrite IH. simpl.
    destruct (decide (id = j)) as [->|Hne].
    + rewrite list_lookup_alter_eq. destruct (watchers w !! j) as [r|]; [|done].
      simpl. rewrite (bool_decide_eq_true_2 (Stop j ∈ Stop j :: ds)) by left.
      by case_bool_decide.
    + rewrite list_lookup_alter_ne by done.
      destruct (watchers w !! j) as [r|]; [|done]. simpl.
      f_equal. case_bool_decide as H1; case_bool_decide as H2; try done.
      * exfalso. apply H2. by right.
      * exfalso. apply elem_of_cons in H2 as [[= ->]|H2]; done.
Qed.

(** When a watched key changes away from an object, the callback of its
    watcher stops every watcher whose disposer is in its [keyStopList] and
    leaves every other watcher that was there as it is (those of the
    deeper levels of the old value too); then the [keyStopList] of the
    watcher holds, in key order, the disposers of active watchers on the
    keys of the new value, with the path of the changed key, and every key
    below the new value is watched; it is empty when the new value is no
    object. *)
Theorem on_change_replaces_children (obj : value)
    (options : option IWatchDeepOptions) (fuel id : nat) (r : watcher)
    (newV oldV : value) (chg : option ChangeOptions) (w : world) :
  watchers w !! id = Some r ->
  isObject oldV = true ->
  depth_ok fuel (heap w) newV = true ->
  exists w' r',
    on_change obj (iterate obj options fuel) id newV oldV chg w = Some w' /\
    heap w' = heap w /\
    watchers w' !! id = Some r' /\
    (forall j rj, Stop j ∈ w_keyStopList r -> watchers w !! j = Some rj ->
       exists rj', watchers w' !! j = Some rj' /\ w_active rj' = false) /\
    (forall j rj, Stop j ∉ w_keyStopList r -> j <> id ->
       watchers w !! j = Some rj -> watchers w' !! j = Some rj) /\
    covered fuel w' newV (callback_keyPathList r) /\
    match newV with
    | VObj l' =>
        forall o', heap w !! l' = Some o' ->
          Forall2 (fun k d => exists j, d = Stop j /\
                     watcher_at w' j l' k (callback_keyPathList r))
            (enum_keys o') (w_keyStopList r')
    | _ => w_keyStopList r' = []
    end.
Proof.
  intros Hr Hold Hd. unfold on_change. rewrite Hr, Hold.
  set (path := callback_keyPathList r).
  set (c := mkCall obj path newV oldV chg).
  set (ks := w_keyStopList r).
  set (w2 := keyStopList_clear id (stop_all ks (log_call c w))).
  assert (Hh2 : heap w2 = heap w).
  { unfold w2. simpl. by destruct (stop_all_heap_fired ks (log_call c w)) as [-> _]. }
  assert (Hl2 : forall j, watchers w2 !! j
            = (fun x => (if bool_decide (j = id) then set_keyStopList [] x else x))
                <$> ((fun x => if bool_decide (Stop j ∈ ks) then deactivate x else x)
                       <$> watchers w !! j)).
  { intros j. unfold w2. simpl. destruct (decide (id = j)) as [->|Hne].
    - rewrite list_lookup_alter_eq, stop_all_lookup. simpl.
      by rewrite (bool_decide_eq_true_2 (j = j)) by done.
    - rewrite list_lookup_alter_ne, stop_all_lookup by done. simpl.
      rewrite (bool_decide_eq_false_2 (j = id)); [|congruence]. by destruct (watchers w !! j). }
  assert (Hid2 : exists r2, watchers w2 !! id = Some r2 /\ w_keyStopList r2 = []).
  { rewrite Hl2, Hr. simpl. rewrite (bool_decide_eq_true_2 (id = id)) by done.
    eexists. split; [done|]. by destruct (bool_decide (Stop id ∈ ks)). }
  assert (Hin2 : forall j rj, Stop j ∈ ks -> watchers w !! j = Some rj ->
            exists rj', watchers w2 !! j = Some rj' /\ w_active rj' = false).
  { intros j rj Hj Hrj. rewrite Hl2, Hrj. simpl.
    rewrite (bool_decide_eq_true_2 _ Hj). eexists. split; [done|].
    by destruct (bool_decide (j = id)). }
  assert (Hout2 : forall j rj, Stop j ∉ ks -> j <> id ->
            watchers w !! j = Some rj -> watchers w2 !! j = Some rj).
  { intros j rj Hj Hne Hrj. rewrite Hl2, Hrj. simpl.
    by rewrite (bool_decide_eq_false_2 _ Hj), (bool_decide_eq_false_2 (j = id)). }
  destruct Hid2 as (r2 & Hr2 & Hk2).
  destruct (isObject newV) eqn:En.
  - destruct (iterate_ok obj options fuel newV path w2)
      as (ds & w3 & Heq & Hg & Hc & Hf); [by rewrite Hh2|].
    destruct (iterate_adds obj options fuel newV path w2)
      as (ds' & w3' & new & Heq' & Hh3 & Hw3 & _ & _); [by rewrite Hh2|].
    rewrite Heq in Heq'. injection Heq' as <- <-. rewrite Heq.
    pose proof (grows_keyStopList_push id ds w3) as Hgp.
    assert (Hl3 : forall j x, watchers w2 !! j = Some x ->
              watchers (keyStopList_push id ds w3) !! j
              = Some (if bool_decide (j = id)
                      then set_keyStopList (w_keyStopList x ++ ds) x else x)).
    { intros j x Hx. simpl. rewrite Hw3.
      destruct (decide (id = j)) as [->|Hne].
      - rewrite list_lookup_alter_eq, (lookup_app_l_Some _ _ _ _ Hx). simpl.
        by rewrite bool_decide_eq_true_2.
      - rewrite list_lookup_alter_ne, (lookup_app_l_Some _ _ _ _ Hx) by done.
        by rewrite bool_decide_eq_false_2 by done. }
    eexists _, _. split; [done|]. split; [simpl; congruence|].
    split; [rewrite (Hl3 id r2 Hr2), bool_decide_eq_true_2 by done; done|].
    split; [|split; [|split]].
    + intros j rj Hj Hrj. destruct (Hin2 j rj Hj Hrj) as (x & Hx & Ha).
      rewrite (Hl3 j x Hx). eexists. split; [done|].
      by destruct (bool_decide (j = id)).
    + intros j rj Hj Hne Hrj. rewrite (Hl3 j rj (Hout2 j rj Hj Hne Hrj)).
      by rewrite bool_decide_eq_false_2.
    + by eapply covered_grows.
    + destruct newV; try done. intros o' Ho'. simpl. rewrite Hk2. simpl.
      eapply Forall2_impl; [apply (Hf l o' eq_refl); by rewrite Hh2|].
      simpl. intros k d (j & -> & Hat). exists j. split; [done|].
      by eapply watcher_at_grows.
  - exists w2, r2. split; [done|]. split; [done|]. split; [done|].
    split; [done|]. split; [done|]. split; [by apply covered_non_object|].
    by destruct newV.
Qed.

(** [{ a: { b: 1 } }] after set-up without [immediate]. *)
Definition world_ab : world :=
  Eval vm_compute in
    default (start heap_ab) (snd <$> watchDeep (VObj 0) None 2 (start heap_ab)).

(** The theorem on [{ a: { b: 1 } }] after set-up, for the watcher of [a]
    and the new value [{ c: 2 }]. *)
Lemma on_change_replaces_children_witness :
  watchDeep (VObj 0) None 2 (start heap_ab) = Some ([Stop 0], world_ab) /\
  exists w' rb,
    on_change (VObj 0) (iterate (VObj 0) None 2) 0 (VObj 2) (VObj 1) None world_ab
    = Some w' /\
    watchers w' !! 1%nat = Some rb /\ w_active rb = false.
Proof.
  split; [reflexivity|].
  destruct (on_change_replaces_children (VObj 0) None 2 0
              (mkWatcher 0 (KName "a") [] (VObj 1) true [Stop 1])
              (VObj 2) (VObj 1) None world_ab eq_refl eq_refl eq_refl)
    as (w' & r' & H & _ & _ & Hin & _).
  destruct (Hin 1%nat (mkWatcher 1 (KName "b") [KName "a"] (VNum 1) true []))
    as (rb & Hrb & Ha); [left|reflexivity|].
  by exists w', rb.
Defined.

(** On a graph at most [fuel] deep, every disposer [watchDeep] returns is
    that of a watcher of a key of the root; after all of them were called
    those watchers are stopped, and every watcher with a path below the
    root is exactly as it was before. *)
Theorem watchDeep_disposers_stop_root_keys (l : loc) (o : jsobj)
    (options : option IWatchDeepOptions) (fuel : nat) (w : world) :
  heap w !! l = Some o ->
  depth_ok fuel (heap w) (VObj l) = true ->
  exists ds w',
    watchDeep (VObj l) options fuel w = Some (ds, w') /\
    Forall2 (fun k d => exists j rj rj',
               d = Stop j /\ watchers w' !! j = Some rj /\
               w_curObj rj = l /\ w_key rj = k /\ w_keyPathList rj = [] /\
               watchers (stop_all ds w') !! j = Some rj' /\ w_active rj' = false)
      (enum_keys o) ds /\
    (forall j rj, watchers w' !! j = Some rj -> w_keyPathList rj <> [] ->
       watchers (stop_all ds w') !! j = Some rj).
Proof.
  intros Ho Hd. unfold watchDeep.
  destruct (iterate_ok (VObj l) options fuel (VObj l) [] w Hd)
    as (ds & w' & Heq & _ & _ & Hf).
  specialize (Hf l o eq_refl Ho).
  exists ds, w'. split; [done|]. split.
  - eapply Forall2_impl_elem; [exact Hf|]. simpl.
    intros k d Hin (j & -> & rj & Hrj & H1 & H2 & H3 & H4).
    exists j, rj, (deactivate rj). repeat (split; [done|]).
    rewrite stop_all_lookup, Hrj. simpl. by rewrite bool_decide_eq_true_2.
  - intros j rj Hrj Hp. rewrite stop_all_lookup, Hrj. simpl.
    rewrite bool_decide_eq_false_2; [done|]. intros Hin.
    rewrite Forall2_lookup in Hf.
    apply list_elem_of_lookup in Hin as [i Hi].
    specialize (Hf i). rewrite Hi in Hf.
    inversion Hf as [k d (j' & Ej & rj' & Hrj' & _ & _ & H3 & _) E1 E2|].
    simplify_eq.
Qed.

(** The theorem at [{ a: { b: { c: 1 } } }]. *)
Lemma watchDeep_disposers_stop_root_keys_witness :
  exists ds w',
    watchDeep (VObj 0) None 3 (start heap_abc) = Some (ds, w') /\
    watchers (stop_all ds w') !! 2%nat
    = Some (mkWatcher 2 (KName "c") [KName "a"; KName "b"] (VNum 1) true []).
Proof.
  destruct (watchDeep_disposers_stop_root_keys 0 (JObject [("a", VObj 1)]) None 3
              (start heap_abc) eq_refl eq_refl) as (ds & w' & H & _ & Hrest).
  exists ds, w'. split; [exact H|].
  apply Hrest; [|discriminate].
  vm_compute in H. injection H as <- <-. reflexivity.
Defined.

(** *** Graphs on which the walk does not end *)

(** No object lists a key twice. *)
Definition wf_heap (h : list jsobj) : Prop :=
  Forall (fun o => match o with
                   | JObject props => NoDup (fst <$> props)
                   | JArray _ => True
                   end) h.

Lemma assoc_get_NoDup (props : list (string * value)) (s : string) (v : value) :
  NoDup (fst <$> props) -> (s, v) ∈ props -> assoc_get props s = Some v.
Proof.
  induction props as [|[k v'] props IH]; simpl; intros Hnd Hin.
  - by apply elem_of_nil in Hin.
  - apply NoDup_cons in Hnd as [Hk Hnd].
    apply elem_of_cons in Hin as [[= -> ->]|Hin]; [by rewrite String.eqb_refl|].
    destruct (String.eqb k s) eqn:E; [|by apply IH].
    apply String.eqb_eq in E. subst k. exfalso. apply Hk.
    apply list_elem_of_fmap. by exists (s, v).
Qed.

Lemma values_are_read (o : jsobj) (v : value) :
  match o with JObject props => NoDup (fst <$> props) | JArray _ => True end ->
  v ∈ obj_values o -> exists k, k ∈ enum_keys o /\ get_prop o k = v.
Proof.
  destruct o as [elems|props]; simpl; intros Hwf Hv.
  - apply list_elem_of_omap in Hv as (e & He & Hid). simpl in Hid. subst e.
    apply list_elem_of_lookup in He as [i Hi].
    exists (KIndex i). split; [|by rewrite Hi].
    apply list_elem_of_fmap. exists i. split; [done|].
    apply elem_of_present_from. split; [lia|]. exists v.
    by replace (i - 0)%nat with i by lia.
  - apply list_elem_of_fmap in Hv as ([s v'] & -> & Hin). simpl.
    exists (KName s). split.
    + apply list_elem_of_fmap. exists s. split; [done|].
      apply list_elem_of_fmap. by exists (s, v').
    + simpl. by rewrite (assoc_get_NoDup props s v' Hwf Hin).
Qed.

Lemma depth_ok_non_object n h v : isObject v = false -> depth_ok n h v = true.
Proof. destruct v; try done; by destruct n. Qed.

Section Returned.

Variable obj : value.
Variable options : option IWatchDeepOptions.
Variable n : nat.
Variable iter : walk.
Hypothesis iter_returned : forall v path w ds w',
  wf_heap (heap w) -> iter v path w = Some (ds, w') ->
  heap w' = heap w /\ depth_ok n (heap w) v = true.

Lemma iterate_key_returned l k path stopList w ds w' :
  wf_heap (heap w) ->
  iterate_key obj options iter l path k stopList w = Some (ds, w') ->
  heap w' = heap w /\ depth_ok n (heap w) (read w l k) = true.
Proof.
  intros Hwf. unfold iterate_key, baseWatch.
  set (v := read w l k). set (id := length (watchers w)).
  set (r := mkWatcher l k path v true []).
  set (w1 := with_watchers (fun ws => ws ++ [r]) w).
  assert (Hr : watchers w1 !! id = Some r) by (simpl; by rewrite list_lookup_middle).
  destruct (immediate_set options); cbn [negb].
  - unfold on_change. rewrite Hr. cbn [isObject].
    destruct (isObject v) eqn:Ev.
    + destruct (iter v _ _) as [[ds3 w3]|] eqn:Hi; [|done].
      intros [= <- <-]. apply iter_returned in Hi as [Hh Hd]; [|exact Hwf].
      split; [exact Hh|exact Hd].
    + intros [= <- <-]. split; [done|by apply depth_ok_non_object].
  - change (read w1 l k) with v.
    destruct (iter v _ _) as [[ds3 w3]|] eqn:Hi; [|done].
    intros [= <- <-]. apply iter_returned in Hi as [Hh Hd]; [|exact Hwf].
    split; [exact Hh|exact Hd].
Qed.

Lemma iterate_keys_returned l path keys : forall stopList w ds w',
  wf_heap (heap w) ->
  iterate_keys obj options iter l path keys stopList w = Some (ds, w') ->
  heap w' = heap w /\
  Forall (fun k => depth_ok n (heap w) (read w l k) = true) keys.
Proof.
  induction keys as [|k keys IH]; intros stopList w ds w' Hwf; simpl.
  - intros [= <- <-]. by split.
  - destruct (iterate_key obj options iter l path k stopList w)
      as [[sl1 w1]|] eqn:Hk; [|done].
    intros Hrest. destruct (iterate_key_returned _ _ _ _ _ _ _ Hwf Hk) as [Hh1 Hd1].
    destruct (IH _ _ _ _ (eq_ind_r wf_heap Hwf Hh1) Hrest) as [Hh2 Hd2].
    split; [congruence|].
    constructor; [done|]. eapply Forall_impl; [exact Hd2|]. simpl.
    intros k'. unfold read. by rewrite Hh1.
Qed.

End Returned.

Lemma iterate_returned obj options fuel : forall v path w ds w',
  wf_heap (heap w) ->
  iterate obj options fuel v path w = Some (ds, w') ->
  heap w' = heap w /\ depth_ok fuel (heap w) v = true.
Proof.
  assert (Hprim : forall f v path w ds w', isObject v = false ->
            iterate obj options f v path w = Some (ds, w') ->
            heap w' = heap w /\ depth_ok f (heap w) v = true).
  { intros f v path w ds w' Hv.
    rewrite iterate_non_composite by (by apply isObject_false_non_composite).
    intros [= <- <-]. split; [done|by apply depth_ok_non_object]. }
  induction fuel as [|fuel IH]; intros v path w ds w' Hwf.
  - destruct v; try (by apply Hprim). done.
  - destruct v; try (by apply Hprim). simpl.
    destruct (heap w !! l) as [o|] eqn:Ho; [|done]. intros Hk.
    destruct (iterate_keys_returned obj options fuel (iterate obj options fuel) IH
                l path (enum_keys o) [] w ds w' Hwf Hk) as [Hh Hall].
    split; [done|].
    apply forallb_forall. intros v0 Hv0. apply list_elem_of_In in Hv0.
    pose proof Hwf as Hwf'. unfold wf_heap in Hwf'. rewrite Forall_forall in Hwf'.
    destruct (values_are_read o v0) as (k & Hkin & <-);
      [apply Hwf'; by eapply list_elem_of_lookup_2|done|].
    rewrite Forall_forall in Hall. specialize (Hall k Hkin).
    unfold read in Hall. by rewrite Ho in Hall.
Qed.

(** An object that holds itself under one of its keys has no depth. *)
Lemma self_reference_no_depth (h : list jsobj) (l : loc) (o : jsobj) (k : key) :
  h !! l = Some o -> k ∈ enum_keys o -> get_prop o k = VObj l ->
  forall n, depth_ok n h (VObj l) = false.
Proof.
  intros Ho Hk Hself. induction n as [|n IH]; [done|].
  simpl. rewrite Ho. apply not_true_is_false. intros Hall.
  rewrite forallb_forall in Hall.
  assert (Hin : VObj l ∈ obj_values o)
    by (rewrite <- Hself; by apply get_prop_in_values).
  apply list_elem_of_In in Hin. specialize (Hall _ Hin). congruence.
Qed.

(** [watchDeep] returns only when the graph below the root is finite: with
    a recursion budget that the depth of the graph exceeds, and so with every
    budget on a graph that has a cycle, the walk is cut off before it
    returns, with [immediate] or without; an object that holds itself under
    one of its keys is such a graph. *)
Theorem watchDeep_does_not_return_on_cycle (obj : value)
    (options : option IWatchDeepOptions) (w : world) :
  wf_heap (heap w) ->
  (forall fuel, depth_ok fuel (heap w) obj = false ->
     watchDeep obj options fuel w = None) /\
  (forall l o k, obj = VObj l -> heap w !! l = Some o -> k ∈ enum_keys o ->
     get_prop o k = VObj l ->
     forall fuel, watchDeep obj options fuel w = None).
Proof.
  intros Hwf.
  assert (H1 : forall fuel, depth_ok fuel (heap w) obj = false ->
            watchDeep obj options fuel w = None).
  { intros fuel Hd. unfold watchDeep.
    destruct (iterate obj options fuel obj [] w) as [[ds w']|] eqn:E; [|done].
    destruct (iterate_returned _ _ _ _ _ _ _ _ Hwf E) as [_ Hok]. congruence. }
  split; [done|]. intros l o k -> Ho Hk Hself fuel. apply H1.
  by eapply self_reference_no_depth.
Qed.

(** The theorem at [const o = {}; o.self = o]. *)
Lemma watchDeep_does_not_return_on_cycle_witness :
  watchDeep (VObj 0) None 7 (start [JObject [("self", VObj 0)]]) = None.
Proof.
  refine (proj2 (watchDeep_does_not_return_on_cycle (VObj 0) None
                   (start [JObject [("self", VObj 0)]]) _)
            0%nat (JObject [("self", VObj 0)]) (KName "self")
            eq_refl eq_refl _ eq_refl 7%nat).
  - repeat constructor. intros H. by apply elem_of_nil in H.
  - left.
Defined.

End DeepWatch.

(** ** createGulpConfig and createPDSGulpConfig: source kinds and dev watchers *)

Module GulpConfig.

(** The strings ['ts'], ['less'], ['js'] and ['copy']. *)
Inductive SourceKind := KindTs | KindLess | KindJs | KindCopy.

#[global] Instance SourceKind_eq_dec : EqDecision SourceKind.
Proof. solve_decision. Defined.

(** [Record<'ts' | 'less' | 'js' | 'copy' | 'dts', string[]>] *)
Record SourceFiles := mkSourceFiles {
  sf_ts : list string;
  sf_less : list string;
  sf_js : list string;
  sf_copy : list string;
  sf_dts : list string
}.

(** What [sourceType.check] can return: a kind it stored, [undefined], or,
    for a path that names a member every object inherits (as [constructor]
    does), that member. *)
Inductive checked :=
| Kind (k : SourceKind)
| Undefined
| InheritedMember.

#[global] Instance checked_eq_dec : EqDecision checked.
Proof. solve_decision. Defined.

(** The stream function [sourceUpdateHandler] calls with [[path]]. *)
Inductive StreamFn :=
| compileTSStream
| compileLessStream
| compileJSStream
| copyStream.

#[global] Instance StreamFn_eq_dec : EqDecision StreamFn.
Proof. solve_decision. Defined.

(** How a call ends: with a value, or with an exception. *)
Inductive completion (A : Type) :=
| Returns (a : A)
| Throws.

Arguments Returns {A} a.
Arguments Throws {A}.

(** The names of the members of the object [createGulpConfig] returns,
    which createPDSGulpConfig keeps in [baseGulpConfig]. *)
Definition baseGulpConfig : list string :=
  ["build"; "dev"; "npm"; "npmDev"; "resolveTypeScript"; "excludeDistDir";
   "sourceFiles"; "sourceType"].

(** [commonStream(files, cb)] of createPDSGulpConfig: the call
    [baseGulpConfig.commonStream(files, pdsCustomHandle(cb))] of a member
    that is [undefined] is a TypeError, raised once [pdsCustomHandle(cb)]
    has been evaluated and before [cb] is given any stream. *)
Definition commonStream_PDS : completion unit :=
  if bool_decide ("commonStream" ∈ baseGulpConfig) then Returns tt else Throws.

(** What the stream functions of createPDSGulpConfig give for [[path]]:
    the three compilers go through [commonStream]; [copyStream] pipes
    [gulp.src] into [gulp.dest] itself. *)
Definition make_stream_PDS (fn : StreamFn) : completion unit :=
  match fn with
  | copyStream => Returns tt
  | compileTSStream | compileLessStream | compileJSStream => commonStream_PDS
  end.

Section SourceType.

(** [micromatch(list, patterns)], the matching entries of [list], and the
    names that are [in] the empty object literal. *)
Variable micromatch : list string -> list string -> list string.
Variable inherited : string -> bool.

(** [micromatch([path], patterns).length] as a condition. *)
Definition matches (path : string) (patterns : list string) : bool :=
  negb (bool_decide (micromatch [path] patterns = [])).

(** [path in this.typeMap] and [this.typeMap[path]], with the own
    properties of [typeMap] in [tm]. *)
Definition typeMap_has (tm : gmap string SourceKind) (path : string) : bool :=
  inherited path || bool_decide (is_Some (tm !! path)).

Definition typeMap_get (tm : gmap string SourceKind) (path : string) : checked :=
  if inherited path then InheritedMember
  else match tm !! path with
       | Some k => Kind k
       | None => Undefined
       end.

(** [sourceType.check(path, sourceFiles)] *)
Definition check (path : string) (sourceFiles : SourceFiles)
    (tm : gmap string SourceKind) : checked * gmap string SourceKind :=
  if typeMap_has tm path then (typeMap_get tm path, tm)
  else
    let tm' :=
      if matches path (sf_ts sourceFiles) then <[path := KindTs]> tm
      else if matches path (sf_less sourceFiles) then <[path := KindLess]> tm
      else if matches path (sf_js sourceFiles) then <[path := KindJs]> tm
      else if matches path (sf_copy sourceFiles) then <[path := KindCopy]> tm
      else tm in
    (typeMap_get tm' path, tm').

(** The chain of tests of [sourceUpdateHandler] in createGulpConfig:
    [check] is called again at every test. *)
Definition pick_stream (path : string) (sourceFiles : SourceFiles)
    (tm : gmap string SourceKind) : option StreamFn * gmap string SourceKind :=
  let '(r1, tm1) := check path sourceFiles tm in
  if bool_decide (r1 = Kind KindTs) then (Some compileTSStream, tm1)
  else
    let '(r2, tm2) := check path sourceFiles tm1 in
    if bool_decide (r2 = Kind KindLess) then (Some compileLessStream, tm2)
    else
      let '(r3, tm3) := check path sourceFiles tm2 in
      if bool_decide (r3 = Kind KindJs) then (Some compileJSStream, tm3)
      else
        let '(r4, tm4) := check path sourceFiles tm3 in
        if bool_decide (r4 = Kind KindCopy) then (Some copyStream, tm4)
        else (None, tm4).

(** What the stream emits afterwards. *)
Inductive stream_event := EvError | EvEnd.

#[global] Instance stream_event_eq_dec : EqDecision stream_event.
Proof. solve_decision. Defined.

(** One run of [sourceUpdateHandler] after the listeners were attached:
    [callbackCounter], whether the [once] listeners are still attached, and
    the calls of [onComplete] made so far. *)
Record update := mkUpdate {
  callbackCounter : Z;
  end_listener : bool;
  error_listener : bool;
  completed : list string
}.

(** [checkComplete], with [onComplete] given or not. *)
Definition checkComplete (path : string) (has_onComplete : bool) (u : update)
  : update :=
  let c := (callbackCounter u - 1)%Z in
  mkUpdate c (end_listener u) (error_listener u)
    (if (c <=? 0)%Z && has_onComplete then completed u ++ [path] else completed u).

(** One event of the stream: a [once] listener runs for the first event of
    its kind only. *)
Definition on_event (path : string) (has_onComplete : bool) (u : update)
    (e : stream_event) : update :=
  match e with
  | EvError => mkUpdate (callbackCounter u) (end_listener u) false (completed u)
  | EvEnd =>
      if end_listener u
      then checkComplete path has_onComplete
             (mkUpdate (callbackCounter u) false (error_listener u) (completed u))
      else u
  end.

(** [sourceUpdateHandler(path)] of createGulpConfig followed by the events
    of the stream it made, if it made one: the calls of [onComplete]. *)
Definition sourceUpdateHandler (path : string) (sourceFiles : SourceFiles)
    (has_onComplete : bool) (tm : gmap string SourceKind)
    (events : list stream_event) : list string :=
  match fst (pick_stream path sourceFiles tm) with
  | None => []
  | Some _ =>
      completed (fold_left (on_event path has_onComplete) events
                   (mkUpdate 1 true true []))
  end.

(** [sourceUpdateHandler(path, onComplete)] of createPDSGulpConfig followed
    by the events of the stream it made: the same chain of tests, with
    [callbackCounter = 2] before a TypeScript file is compiled; an exception
    of the stream function leaves the handler before any listener is
    attached. *)
Definition sourceUpdateHandler_PDS (path : string) (sourceFiles : SourceFiles)
    (has_onComplete : bool) (tm : gmap string SourceKind)
    (events : list stream_event) : completion (list string) :=
  match fst (pick_stream path sourceFiles tm) with
  | None => Returns []
  | Some fn =>
      let callbackCounter := if bool_decide (fn = compileTSStream) then 2%Z else 1%Z in
      match make_stream_PDS fn with
      | Throws => Throws
      | Returns _ =>
          Returns (completed (fold_left (on_event path has_onComplete) events
                                (mkUpdate callbackCounter true true [])))
      end
  end.

End SourceType.

(** *** dev: the watchers and [close] *)

(** The closure of [dev()]: the array [watchers] and the flag [hasClosed],
    with the watchers [gulp.watch] has made so far (a watcher is named by
    its rank), the [close()] calls received by watchers, oldest first, and
    the number of TypeScript watch compilers started. *)
Record dev_state := mkDev {
  watchers : list nat;
  hasClosed : bool;
  made : list nat;
  closeCalls : list nat;
  tscStarted : nat
}.

Definition dev_init : dev_state := mkDev [] false [] [] 0.

(** The end of every task that makes a watcher:
    [if (!hasClosed) watchers.push(watcher) else watcher.close()]. *)
Definition push_or_close (st : dev_state) : dev_state :=
  let watcher := length (made st) in
  if negb (hasClosed st)
  then mkDev (watchers st ++ [watcher]) (hasClosed st) (made st ++ [watcher])
         (closeCalls st) (tscStarted st)
  else mkDev (watchers st) (hasClosed st) (made st ++ [watcher])
         (closeCalls st ++ [watcher]) (tscStarted st).

(** [getCustomBlobs()]: [mini] is what [require] of mini.project.json
    gives for the key custom_watch_blobs_in_dev ([None] when [require]
    throws, [Some None] when the key is missing). *)
Definition getCustomBlobs (mini : option (option (list string)))
  : option (list string) :=
  match mini with
  | Some (Some includePackages) =>
      if bool_decide (includePackages = []) then None else Some includePackages
  | _ => None
  end.

(** [compileDTS({ watch: true })] starts a compiler when the tsconfig file
    exists. *)
Definition compileDTS_watch (tsconfig_exists : bool) (st : dev_state) : dev_state :=
  if tsconfig_exists
  then mkDev (watchers st) (hasClosed st) (made st) (closeCalls st)
         (S (tscStarted st))
  else st.

(** What can happen to the object [dev()] returned: one of the three tasks
    of [gulp.parallel] starts, or [close()] is called. *)
Inductive dev_event :=
| SourceCode
| CustomBlobs (mini : option (option (list string)))
| CompileDeclarations (tsconfig_exists : bool)
| Close.

#[global] Instance dev_event_eq_dec : EqDecision dev_event.
Proof. solve_decision. Defined.

Definition close (st : dev_state) : dev_state :=
  mkDev (watchers st) true (made st) (closeCalls st ++ watchers st) (tscStarted st).

(** [dev()] of createGulpConfig. *)
Definition dev_step (st : dev_state) (e : dev_event) : dev_state :=
  match e with
  | SourceCode => push_or_close st
  | CustomBlobs mini =>
      if bool_decide (default [] (getCustomBlobs mini) = []) then st
      else push_or_close st
  | CompileDeclarations tsconfig_exists => compileDTS_watch tsconfig_exists st
  | Close => close st
  end.

(** [compileDTS({ watch: true })] of createPDSGulpConfig: without a
    tsconfig file it logs and returns; with one it calls
    [baseGulpConfig.resolveTypeScript()], which logs and throws again what
    [require.resolve('typescript')] threw, and then starts the compiler.
    [tsc] is the path [resolveTypeScript] computes, [None] when TypeScript
    is not found. *)
Definition compileDTS_PDS (tsc : option string) (tsconfig_exists : bool)
    (st : dev_state) : completion dev_state :=
  if negb tsconfig_exists then Returns st
  else match tsc with
       | None => Throws
       | Some _ =>
           Returns (mkDev (watchers st) (hasClosed st) (made st) (closeCalls st)
                      (S (tscStarted st)))
       end.

(** [dev(onSuccess)] of createPDSGulpConfig: [compileDeclarations] makes a
    watcher of the declaration files with [gulp.watch], calls [compileDTS]
    and then keeps or closes the watcher; when [compileDTS] throws, the task
    ends there, with the watcher made and neither kept nor closed. *)
Definition dev_step_PDS (tsc : option string) (st : dev_state) (e : dev_event)
  : dev_state :=
  match e with
  | CompileDeclarations tsconfig_exists =>
      let watcher := length (made st) in
      let st0 := mkDev (watchers st) (hasClosed st) (made st ++ [watcher])
                   (closeCalls st) (tscStarted st) in
      match compileDTS_PDS tsc tsconfig_exists st0 with
      | Throws => st0
      | Returns st1 =>
          if negb (hasClosed st1)
          then mkDev (watchers st1 ++ [watcher]) (hasClosed st1) (made st1)
                 (closeCalls st1) (tscStarted st1)
          else mkDev (watchers st1) (hasClosed st1) (made st1)
                 (closeCalls st1 ++ [watcher]) (tscStarted st1)
      end
  | _ => dev_step st e
  end.

Definition dev (events : list dev_event) : dev_state :=
  fold_left dev_step events dev_init.

Definition dev_PDS (tsc : option string) (events : list dev_event) : dev_state :=
  fold_left (dev_step_PDS tsc) events dev_init.

(** *** Properties of [sourceType.check] *)

Section SourceTypeFacts.

Variable micromatch : list string -> list string -> list string.
Variable inherited : string -> bool.

Lemma check_kind_inv path sf tm k tm1 :
  check micromatch inherited path sf tm = (Kind k, tm1) ->
  inherited path = false /\ tm1 !! path = Some k.
Proof.
  unfold check, typeMap_has, typeMap_get.
  destruct (inherited path); simpl; [by intros [= _ _]|].
  case_bool_decide as Hin.
  - destruct (tm !! path) as [k0|] eqn:E; [|by destruct Hin].
    by intros [= -> <-].
  - repeat (destruct (matches _ _ _);
            [rewrite lookup_insert_eq; intros [= <- <-]; by rewrite lookup_insert_eq|]).
    destruct (tm !! path) eqn:E; [|done]. destruct Hin. by eexists.
Qed.

Lemma check_hit path sf tm k :
  inherited path = false -> tm !! path = Some k -> check micromatch inherited path sf tm = (Kind k, tm).
Proof.
  intros Hi Hk. unfold check, typeMap_has, typeMap_get.
  rewrite (bool_decide_eq_true_2 (is_Some (tm !! path))) by (by eexists).
  by rewrite Hi, Hk.
Qed.

Lemma check_keeps path sf tm q k :
  tm !! q = Some k -> snd (check micromatch inherited path sf tm) !! q = Some k.
Proof.
  intros Hq. unfold check, typeMap_has.
  destruct (inherited path || _) eqn:Hh; [done|].
  apply orb_false_iff in Hh as [_ Hh]. apply bool_decide_eq_false in Hh.
  assert (Hne : path <> q) by (intros ->; apply Hh; by eexists).
  simpl. repeat (destruct (matches _ _ _); [by rewrite lookup_insert_ne|]). done.
Qed.

Lemma check_again path sf tm :
  check micromatch inherited path sf (snd (check micromatch inherited path sf tm)) = check micromatch inherited path sf tm.
Proof.
  unfold check at 2 3.
  destruct (typeMap_has inherited tm path) eqn:Hh.
  - simpl. unfold check. by rewrite Hh.
  - simpl. pose proof Hh as Hh'. unfold typeMap_has in Hh'.
    apply orb_false_iff in Hh' as [Hi Hn].
    assert (Hins : forall k, check micromatch inherited path sf
                               (<[path := k]> tm)
                             = (typeMap_get inherited (<[path := k]> tm) path,
                                <[path := k]> tm)).
    { intros k. unfold check, typeMap_has.
      rewrite (bool_decide_eq_true_2 (is_Some (<[path:=k]> tm !! path)))
        by (rewrite lookup_insert_eq; by eexists).
      by rewrite Hi. }
    destruct (matches micromatch path (sf_ts sf)) eqn:E1; [apply Hins|].
    destruct (matches micromatch path (sf_less sf)) eqn:E2; [apply Hins|].
    destruct (matches micromatch path (sf_js sf)) eqn:E3; [apply Hins|].
    destruct (matches micromatch path (sf_copy sf)) eqn:E4; [apply Hins|].
    unfold check. by rewrite Hh, E1, E2, E3, E4.
Qed.

(** The kind [check] returns for a path is kept: once it returned a kind,
    every later [check] of that path returns the same kind and changes
    nothing, whatever globs it is given and whatever other paths were
    checked in between.  A path for which it returned [undefined] is not
    remembered: the map is as before. *)
Theorem check_keeps_first_kind (path : string) (sf : SourceFiles)
    (tm : gmap string SourceKind) :
  (forall k tm1, check micromatch inherited path sf tm = (Kind k, tm1) ->
     forall (later : list (string * SourceFiles)) (sf' : SourceFiles),
       let tm2 := fold_left (fun t qs => snd (check micromatch inherited (fst qs) (snd qs) t)) later tm1 in
       check micromatch inherited path sf' tm2 = (Kind k, tm2)) /\
  (forall tm1, check micromatch inherited path sf tm = (Undefined, tm1) -> tm1 = tm).
Proof.
  split.
  - intros k tm1 Hc later sf'. simpl.
    destruct (check_kind_inv _ _ _ _ _ Hc) as [Hi Hk].
    apply check_hit; [done|]. clear Hc.
    revert tm1 Hk. induction later as [|[q s] later IH]; intros tm1 Hk; [done|].
    cbn [fold_left]. apply IH. by apply check_keeps.
  - intros tm1. unfold check, typeMap_has, typeMap_get.
    destruct (inherited path); simpl; [by intros [= _ _]|].
    case_bool_decide as Hin; [by intros [= _ <-]|].
    repeat (destruct (matches _ _ _); [by rewrite lookup_insert_eq|]).
    by intros [= _ <-].
Qed.

(** The stream [sourceUpdateHandler] makes follows the kind of the first
    [check]. *)
Definition stream_of (r : checked) : option StreamFn :=
  match r with
  | Kind KindTs => Some compileTSStream
  | Kind KindLess => Some compileLessStream
  | Kind KindJs => Some compileJSStream
  | Kind KindCopy => Some copyStream
  | _ => None
  end.

Lemma pick_stream_first_check path sf tm :
  pick_stream micromatch inherited path sf tm
  = (stream_of (fst (check micromatch inherited path sf tm)), snd (check micromatch inherited path sf tm)).
Proof.
  unfold pick_stream.
  pose proof (check_again path sf tm) as Hagain.
  destruct (check micromatch inherited path sf tm) as [r tm1] eqn:E. simpl in *.
  case_bool_decide as H1; [by subst|].
  rewrite Hagain. case_bool_decide as H2; [by subst|].
  rewrite Hagain. case_bool_decide as H3; [by subst|].
  rewrite Hagain. case_bool_decide as H4; [by subst|].
  destruct r as [[]| |]; done.
Qed.

Lemma events_completed path has (events : list stream_event) : forall u,
  completed (fold_left (on_event path has) events u)
  = if end_listener u && bool_decide (EvEnd ∈ events)
    then completed (checkComplete path has u)
    else completed u.
Proof.
  induction events as [|e events IH]; intros u; cbn [fold_left].
  - rewrite (bool_decide_eq_false_2 (EvEnd ∈ [])) by apply not_elem_of_nil.
    by rewrite andb_false_r.
  - rewrite IH. destruct e.
    + assert (E : bool_decide (EvEnd ∈ EvError :: events)
                  = bool_decide (EvEnd ∈ events)).
      { apply bool_decide_ext. rewrite elem_of_cons. naive_solver. }
      rewrite E. unfold on_event, checkComplete. cbn [end_listener completed
        callbackCounter]. done.
    + rewrite (bool_decide_eq_true_2 (EvEnd ∈ EvEnd :: events)) by left.
      rewrite andb_true_r. unfold on_event.
      destruct (end_listener u) eqn:E; [|by rewrite E].
      unfold checkComplete. cbn [end_listener completed callbackCounter]. done.
Qed.

(** In createGulpConfig, a changed or added file whose kind is known is
    compiled, and [onComplete], when there is one, is called with its path
    once, when the stream ends; it is not called when the stream never ends,
    and a file of no kind is not compiled and never reported. *)
Theorem sourceUpdateHandler_completes_at_end (path : string) (sf : SourceFiles)
    (has_onComplete : bool) (tm : gmap string SourceKind)
    (events : list stream_event) :
  sourceUpdateHandler micromatch inherited path sf has_onComplete tm events
  = match fst (check micromatch inherited path sf tm) with
    | Kind _ =>
        if has_onComplete && bool_decide (EvEnd ∈ events) then [path] else []
    | _ => []
    end.
Proof.
  unfold sourceUpdateHandler. rewrite pick_stream_first_check. simpl.
  destruct (fst (check micromatch inherited path sf tm)) as [k| |]; [|done|done].
  assert (Hs : exists fn, stream_of (Kind k) = Some fn) by (destruct k; by eexists).
  destruct Hs as [fn ->]. rewrite events_completed. simpl.
  destruct (bool_decide (EvEnd ∈ events)), has_onComplete; done.
Qed.

(** In createPDSGulpConfig a changed or added file of kind ts, less or js
    is not compiled: its stream function calls [baseGulpConfig.commonStream],
    which the base configuration does not have, so the handler ends with a
    TypeError before a listener is attached and [onComplete] is never called
    for the file, whatever a stream would have emitted.  A file of kind copy
    is copied and [onComplete], when there is one, is called with its path
    once, when the stream ends; a file of no kind is ignored. *)
Theorem sourceUpdateHandler_PDS_copies_only (path : string) (sf : SourceFiles)
    (has_onComplete : bool) (tm : gmap string SourceKind)
    (events : list stream_event) :
  sourceUpdateHandler_PDS micromatch inherited path sf has_onComplete tm events
  = match fst (check micromatch inherited path sf tm) with
    | Kind KindCopy =>
        Returns (if has_onComplete && bool_decide (EvEnd ∈ events)
                 then [path] else [])
    | Kind _ => Throws
    | _ => Returns []
    end.
Proof.
  unfold sourceUpdateHandler_PDS. rewrite pick_stream_first_check. simpl.
  destruct (fst (check micromatch inherited path sf tm)) as [[]| |]; simpl; try done.
  rewrite events_completed. simpl.
  destruct (bool_decide (EvEnd ∈ events)), has_onComplete; done.
Qed.

End SourceTypeFacts.

(** [check_keeps_first_kind] with globs that are plain file names: a file
    found under the ts globs stays ts when it is checked against globs that
    list it under copy. *)
Lemma check_keeps_first_kind_witness :
  let micromatch := fun (l patterns : list string) =>
                      List.filter (fun p => bool_decide (p ∈ patterns)) l in
  let sf := mkSourceFiles ["a.ts"] [] [] [] [] in
  let sf' := mkSourceFiles [] [] [] ["a.ts"] [] in
  let tm1 := snd (check micromatch (fun _ => false) "a.ts" sf ∅) in
  check micromatch (fun _ => false) "a.ts" sf' tm1 = (Kind KindTs, tm1).
Proof.
  intros micromatch sf sf' tm1.
  exact (proj1 (check_keeps_first_kind micromatch (fun _ => false) "a.ts" sf ∅)
           KindTs tm1 eq_refl [] sf').
Defined.

(** *** Properties of [dev] *)

(** What holds of the closure of [dev()] at any time: a watcher that was
    made is in [watchers] or was closed; after [close()] every watcher in
    [watchers] was closed; before it, no watcher was closed and [watchers]
    holds all that were made. *)
Definition dev_inv (st : dev_state) : Prop :=
  (forall w, w ∈ made st -> w ∈ watchers st \/ w ∈ closeCalls st) /\
  (hasClosed st = true -> forall w, w ∈ watchers st -> w ∈ closeCalls st) /\
  (hasClosed st = false -> closeCalls st = [] /\ watchers st = made st).

Lemma dev_inv_init : dev_inv dev_init.
Proof.
  split; [|split]; try done. intros w H. by apply elem_of_nil in H.
Qed.

Lemma push_or_close_inv st : dev_inv st -> dev_inv (push_or_close st).
Proof.
  intros (H1 & H2 & H3). unfold push_or_close.
  destruct (hasClosed st) eqn:Hc; cbn [negb].
  - split; [|split]; cbn [made watchers closeCalls hasClosed]; [| |done].
    + intros w. rewrite !elem_of_app, list_elem_of_singleton.
      intros [Hw| ->]; [|by right; right].
      destruct (H1 w Hw); [by left|by right; left].
    + intros _ w Hw. apply elem_of_app. left. by apply H2.
  - destruct (H3 eq_refl) as [Hcl Hw].
    split; [|split]; cbn [made watchers closeCalls hasClosed]; [|done|].
    + intros w. rewrite !elem_of_app, list_elem_of_singleton, Hw. tauto.
    + intros _. by rewrite Hw.
Qed.

Lemma compileDTS_watch_inv b st : dev_inv st -> dev_inv (compileDTS_watch b st).
Proof. unfold compileDTS_watch. by destruct b. Qed.

Lemma close_inv st : dev_inv st -> dev_inv (close st).
Proof.
  intros (H1 & H2 & H3). split; [|split]; simpl; [| |done].
  - intros w Hw. rewrite elem_of_app. destruct (H1 w Hw); [by left|by right; left].
  - intros _ w Hw. apply elem_of_app. by right.
Qed.

Lemma dev_step_inv st e : dev_inv st -> dev_inv (dev_step st e).
Proof.
  intros H. destruct e as [|mini|b|]; simpl.
  - by apply push_or_close_inv.
  - case_bool_decide; [done|by apply push_or_close_inv].
  - by apply compileDTS_watch_inv.
  - by apply close_inv.
Qed.

Lemma dev_step_PDS_returns tsc st b :
  is_Some tsc \/ b = false ->
  dev_step_PDS tsc st (CompileDeclarations b)
  = push_or_close (compileDTS_watch b st).
Proof.
  intros Hb. unfold dev_step_PDS, compileDTS_PDS, push_or_close, compileDTS_watch.
  destruct b; simpl.
  - destruct Hb as [[t ->]|?]; [|done]. simpl. by destruct (hasClosed st).
  - by destruct (hasClosed st).
Qed.

Lemma dev_step_PDS_inv tsc st e :
  is_Some tsc \/ e <> CompileDeclarations true ->
  dev_inv st -> dev_inv (dev_step_PDS tsc st e).
Proof.
  intros He H. destruct e as [|mini|b|]; try (by apply (dev_step_inv st _)).
  rewrite dev_step_PDS_returns.
  - by apply push_or_close_inv, compileDTS_watch_inv.
  - destruct He as [?|He]; [by left|]. right. destruct b; [done|done].
Qed.

Lemma dev_step_hasClosed st e :
  hasClosed (dev_step st e) = hasClosed st || bool_decide (e = Close) /\
  forall tsc,
    hasClosed (dev_step_PDS tsc st e) = hasClosed st || bool_decide (e = Close).
Proof.
  split; [|intros [t|]];
    destruct e as [|mini|[]|]; simpl; unfold push_or_close;
    repeat case_bool_decide; destruct (hasClosed st); done.
Qed.

Lemma dev_PDS_found tsc events :
  CompileDeclarations true ∉ events ->
  forall st, fold_left (dev_step_PDS tsc) events st
             = fold_left (dev_step_PDS (Some "")) events st.
Proof.
  induction events as [|e events IH]; intros Hno st; [done|].
  cbn [fold_left]. rewrite not_elem_of_cons in Hno. destruct Hno as [He Hno].
  rewrite IH by done. f_equal.
  destruct e as [|mini|b|]; try done.
  rewrite !dev_step_PDS_returns; [done|by left|right].
  destruct b; [done|done].
Qed.

(** A watcher that was made and is neither in [watchers] nor closed. *)
Definition lost (st : dev_state) (w : nat) : Prop :=
  (w ∈ made st) /\ (w ∉ watchers st) /\ (w ∉ closeCalls st).

(** Watchers are named by their rank in [made]. *)
Definition dev_ranks (st : dev_state) : Prop :=
  (forall w, w ∈ made st -> w < length (made st)) /\
  (forall w, w ∈ watchers st -> w < length (made st)) /\
  (forall w, w ∈ closeCalls st -> w < length (made st)).

Lemma dev_ranks_init : dev_ranks dev_init.
Proof. repeat split; intros w H; by apply elem_of_nil in H. Qed.

Lemma dev_ranks_intro (m ws cs : list nat) (h : bool) (t : nat) :
  (forall w, w ∈ m -> w < length m) ->
  (forall w, w ∈ ws -> w <= length m) ->
  (forall w, w ∈ cs -> w <= length m) ->
  dev_ranks (mkDev ws h (m ++ [length m]) cs t).
Proof.
  intros Hm Hw Hc. unfold dev_ranks. cbn [made watchers closeCalls].
  rewrite length_app. cbn [length]. repeat split; intros w.
  - rewrite elem_of_app, list_elem_of_singleton. intros [H| ->]; [apply Hm in H|]; lia.
  - intros H. apply Hw in H. lia.
  - intros H. apply Hc in H. lia.
Qed.

Lemma dev_ranks_fresh (l : list nat) (n : nat) :
  (forall w, w ∈ l -> w < n) -> forall w, w ∈ l ++ [n] -> w <= n.
Proof.
  intros Hl w. rewrite elem_of_app, list_elem_of_singleton.
  intros [H| ->]; [apply Hl in H|]; lia.
Qed.

Lemma dev_ranks_old (l : list nat) (n : nat) :
  (forall w, w ∈ l -> w < n) -> forall w, w ∈ l -> w <= n.
Proof. intros Hl w H. apply Hl in H. lia. Qed.

Lemma not_elem_of_fresh (l : list nat) (n w : nat) :
  w < n -> w ∉ l -> w ∉ l ++ [n].
Proof.
  intros Hlt Hl. rewrite elem_of_app, list_elem_of_singleton.
  intros [H|H]; [done|lia].
Qed.

Ltac dev_ranks_side :=
  solve [ assumption
        | apply dev_ranks_fresh; assumption
        | apply dev_ranks_old; assumption
        | apply not_elem_of_fresh; assumption ].

Lemma push_or_close_ranks st : dev_ranks st -> dev_ranks (push_or_close st).
Proof.
  intros (Hm & Hw & Hc). unfold push_or_close.
  destruct (hasClosed st); cbn [negb]; apply dev_ranks_intro;
    dev_ranks_side.
Qed.

Lemma dev_step_PDS_ranks tsc st e :
  dev_ranks st -> dev_ranks (dev_step_PDS tsc st e).
Proof.
  intros Hst. pose proof Hst as (Hm & Hw & Hc).
  destruct e as [|mini|b|]; simpl.
  - by apply push_or_close_ranks.
  - case_bool_decide; [done|by apply push_or_close_ranks].
  - unfold compileDTS_PDS.
    destruct b, tsc as [t|]; cbn [negb made watchers closeCalls hasClosed tscStarted];
      try destruct (hasClosed st); cbn [negb];
      apply dev_ranks_intro; dev_ranks_side.
  - unfold close, dev_ranks. cbn [made watchers closeCalls].
    repeat split; [done|done|]. intros w. rewrite elem_of_app. intros [H|H]; auto.
Qed.

Lemma lost_intro (m ws cs : list nat) (h : bool) (t : nat) (w : nat) :
  w < length m -> w ∈ m -> w ∉ ws -> w ∉ cs ->
  lost (mkDev ws h (m ++ [length m]) cs t) w.
Proof.
  intros Hlt H1 H2 H3. unfold lost. cbn [made watchers closeCalls].
  split; [|done]. apply elem_of_app. by left.
Qed.

Lemma push_or_close_lost st w :
  dev_ranks st -> lost st w -> lost (push_or_close st) w.
Proof.
  intros (Hm & Hw & Hc) (Lm & Lw & Lc). pose proof (Hm w Lm) as Hlt.
  unfold push_or_close.
  destruct (hasClosed st); cbn [negb]; apply lost_intro;
    dev_ranks_side.
Qed.

Lemma dev_step_PDS_lost tsc st e w :
  dev_ranks st -> lost st w -> lost (dev_step_PDS tsc st e) w.
Proof.
  intros Hst Hl. pose proof Hst as (Hm & Hw & Hc).
  pose proof Hl as (Lm & Lw & Lc). pose proof (Hm w Lm) as Hlt.
  destruct e as [|mini|b|]; simpl.
  - by apply push_or_close_lost.
  - case_bool_decide; [done|by apply push_or_close_lost].
  - unfold compileDTS_PDS.
    destruct b, tsc as [t|]; cbn [negb made watchers closeCalls hasClosed tscStarted];
      try destruct (hasClosed st); cbn [negb];
      apply lost_intro; dev_ranks_side.
  - unfold close, lost. cbn [made watchers closeCalls].
    rewrite elem_of_app. split; [done|]. split; [done|]. by intros [?|?].
Qed.

Lemma dev_step_PDS_loses st :
  dev_ranks st ->
  lost (dev_step_PDS None st (CompileDeclarations true)) (length (made st)).
Proof.
  intros (Hm & Hw & Hc). unfold lost. simpl.
  rewrite elem_of_app, list_elem_of_singleton. split; [by right|].
  split; intros H; [apply Hw in H|apply Hc in H]; lia.
Qed.

Lemma dev_PDS_lost events : forall st,
  dev_ranks st ->
  CompileDeclarations true ∈ events \/ (exists w, lost st w) ->
  exists w, lost (fold_left (dev_step_PDS None) events st) w.
Proof.
  induction events as [|e events IH]; intros st Hr Hl; cbn [fold_left].
  - destruct Hl as [Hl|Hl]; [by apply elem_of_nil in Hl|done].
  - apply IH; [by apply dev_step_PDS_ranks|].
    destruct Hl as [Hl|[w Hl]].
    + apply elem_of_cons in Hl as [<-|Hl]; [|by left].
      right. eexists. by apply dev_step_PDS_loses.
    + right. exists w. by apply dev_step_PDS_lost.
Qed.

Lemma dev_fold (step : dev_state -> dev_event -> dev_state) events :
  (forall st e, dev_inv st -> dev_inv (step st e)) ->
  (forall st e, hasClosed (step st e) = hasClosed st || bool_decide (e = Close)) ->
  forall st, dev_inv st ->
    dev_inv (fold_left step events st) /\
    hasClosed (fold_left step events st)
    = hasClosed st || bool_decide (Close ∈ events).
Proof.
  intros Hinv Hcl. induction events as [|e events IH]; intros st Hst; cbn [fold_left].
  - split; [done|].
    rewrite (bool_decide_eq_false_2 (Close ∈ [])) by apply not_elem_of_nil.
    by rewrite orb_false_r.
  - destruct (IH (step st e) (Hinv st e Hst)) as [H1 H2]. split; [done|].
    rewrite H2, Hcl, <- orb_assoc. f_equal.
    rewrite <- bool_decide_or. apply bool_decide_ext.
    rewrite elem_of_cons. split; intros [?|?]; auto.
Qed.

(** In [dev()] of createGulpConfig, whatever the order in which the tasks
    start and [close()] is called: once [close()] was called, every watcher
    [gulp.watch] has made was closed, also those made by a task that started
    after it; as long as it was not called no watcher was closed and all of
    them are in [watchers]. *)
Theorem dev_close_closes_every_watcher (events : list dev_event) :
  (Close ∈ events -> forall w, w ∈ made (dev events) -> w ∈ closeCalls (dev events)) /\
  (Close ∉ events ->
     closeCalls (dev events) = [] /\ watchers (dev events) = made (dev events)).
Proof.
  destruct (dev_fold dev_step events dev_step_inv
              (fun st e => proj1 (dev_step_hasClosed st e)) dev_init dev_inv_init)
    as [(H1 & H2 & H3) Hc].
  fold (dev events) in *. simpl in Hc. split.
  - intros Hin w Hw. rewrite bool_decide_eq_true_2 in Hc by done.
    destruct (H1 w Hw); [by apply H2|done].
  - intros Hout. rewrite bool_decide_eq_false_2 in Hc by done. by apply H3.
Qed.

(** In [dev(onSuccess)] of createPDSGulpConfig the declarations task makes
    a watcher too.  When TypeScript is found, or the task never starts with
    a tsconfig file in place, [close()] closes every watcher made, as in
    createGulpConfig.  When TypeScript is not found and the task starts with
    a tsconfig file in place, [compileDTS] throws between [gulp.watch] and
    the test of [hasClosed]: the watcher of that task is then neither in
    [watchers] nor closed, and no later [close()] closes it. *)
Theorem dev_PDS_close_closes_every_watcher (tsc : option string)
    (events : list dev_event) :
  (is_Some tsc \/ CompileDeclarations true ∉ events ->
     (Close ∈ events ->
        forall w, w ∈ made (dev_PDS tsc events) -> w ∈ closeCalls (dev_PDS tsc events)) /\
     (Close ∉ events ->
        closeCalls (dev_PDS tsc events) = [] /\
        watchers (dev_PDS tsc events) = made (dev_PDS tsc events))) /\
  (tsc = None -> CompileDeclarations true ∈ events ->
     exists w, (w ∈ made (dev_PDS tsc events)) /\
               (w ∉ watchers (dev_PDS tsc events)) /\
               (w ∉ closeCalls (dev_PDS tsc events))).
Proof.
  split.
  - intros Hok.
    assert (Hinv : dev_inv (dev_PDS tsc events) /\
                   hasClosed (dev_PDS tsc events) = bool_decide (Close ∈ events)).
    { destruct Hok as [[t ->]|Hno].
      - apply (dev_fold (dev_step_PDS (Some t)) events); [| |apply dev_inv_init].
        + intros st e. apply dev_step_PDS_inv. left. by eexists.
        + intros st e. apply dev_step_hasClosed.
      - unfold dev_PDS. rewrite dev_PDS_found by done.
        apply (dev_fold (dev_step_PDS (Some "")) events); [| |apply dev_inv_init].
        + intros st e. apply dev_step_PDS_inv. left. by eexists.
        + intros st e. apply dev_step_hasClosed. }
    destruct Hinv as [(H1 & H2 & H3) Hc]. split.
    + intros Hin w Hw. rewrite bool_decide_eq_true_2 in Hc by done.
      destruct (H1 w Hw); [by apply H2|done].
    + intros Hout. rewrite bool_decide_eq_false_2 in Hc by done. by apply H3.
  - intros -> Hin. apply dev_PDS_lost; [apply dev_ranks_init|by left].
Qed.

(** [dev_close_closes_every_watcher] when the source task starts, [close()]
    is called, and the blobs task starts after it. *)
Lemma dev_close_closes_every_watcher_witness :
  1%nat ∈ closeCalls (dev [SourceCode; Close; CustomBlobs (Some (Some ["lib/**"]))]).
Proof.
  apply (proj1 (dev_close_closes_every_watcher
                  [SourceCode; Close; CustomBlobs (Some (Some ["lib/**"]))])).
  - right. left.
  - vm_compute. right. left.
Defined.

(** [dev_PDS_close_closes_every_watcher] when the declarations task starts
    after [close()]: with TypeScript found its watcher is closed at once,
    without it the watcher is lost. *)
Lemma dev_PDS_close_closes_every_watcher_witness :
  1%nat ∈ closeCalls (dev_PDS (Some "/node_modules/typescript/bin/tsc")
                        [SourceCode; Close; CompileDeclarations true]) /\
  exists w, (w ∈ made (dev_PDS None [SourceCode; Close; CompileDeclarations true])) /\
            (w ∉ watchers (dev_PDS None [SourceCode; Close; CompileDeclarations true])) /\
            (w ∉ closeCalls (dev_PDS None [SourceCode; Close; CompileDeclarations true])).
Proof.
  split.
  - apply (proj1 (dev_PDS_close_closes_every_watcher
                    (Some "/node_modules/typescript/bin/tsc")
                    [SourceCode; Close; CompileDeclarations true])).
    + left. by eexists.
    + right. left.
    + vm_compute. right. left.
  - apply (proj2 (dev_PDS_close_closes_every_watcher None
                    [SourceCode; Close; CompileDeclarations true])).
    + reflexivity.
    + right. right. left.
Defined.

(** *** excludeDistDir *)

(** The string without its first [n] characters. *)
Fixpoint string_drop (n : nat) (s : string) : string :=
  match n, s with
  | O, _ => s
  | S n', String _ s' => string_drop n' s'
  | S _, EmptyString => EmptyString
  end.

(** [s.replace(pat, rep)] for a string [pat] and a replacement without
    dollar signs: the first occurrence of [pat] is replaced. *)
Fixpoint replace_first (s pat rep : string) : string :=
  if String.prefix pat s then rep +:+ string_drop (String.length pat) s
  else match s with
       | EmptyString => EmptyString
       | String c s' => String c (replace_first s' pat rep)
       end.

(** The glob that keeps the output directory out of the sources, line 19
    of createGulpConfig; [sep] is [path.sep]. *)
Definition excludeDistDir (distDir projectDir sep : string) : string :=
  replace_first distDir (projectDir +:+ sep) "" +:+ "/**".

Lemma append_cons (c : Ascii.ascii) (p r : string) :
  String c p +:+ r = String c (p +:+ r).
Proof. reflexivity. Qed.

Lemma length_append (x y : string) :
  String.length (x +:+ y) = (String.length x + String.length y)%nat.
Proof.
  induction x as [|c x IH]; [done|]. rewrite append_cons. simpl. by rewrite IH.
Qed.

Lemma prefix_append (p r : string) : String.prefix p (p +:+ r) = true.
Proof.
  induction p as [|c p IH]; simpl; [by destruct r|].
  destruct (Ascii.ascii_dec c c); [done|congruence].
Qed.

Lemma string_drop_append (p r : string) : string_drop (String.length p) (p +:+ r) = r.
Proof. induction p as [|c p IH]; simpl; [by destruct r|done]. Qed.

Lemma prefix_split (p s : string) :
  String.prefix p s = true -> exists r, s = p +:+ r.
Proof.
  revert s. induction p as [|c p IH]; intros s.
  - intros _. by exists s.
  - destruct s as [|c' s]; [done|]. simpl.
    destruct (Ascii.ascii_dec c c') as [->|]; [|done].
    intros H. destruct (IH s H) as [r ->]. by exists r.
Qed.

Lemma replace_first_unfold (s pat rep : string) :
  replace_first s pat rep
  = if String.prefix pat s then rep +:+ string_drop (String.length pat) s
    else match s with
         | EmptyString => EmptyString
         | String c s' => String c (replace_first s' pat rep)
         end.
Proof. by destruct s. Qed.

(** [pat] occurs in [s]. *)
Definition occurs (pat s : string) : Prop := exists a b, s = a +:+ pat +:+ b.

Lemma replace_first_absent (s pat rep : string) :
  ~ occurs pat s -> replace_first s pat rep = s.
Proof.
  induction s as [|c s IH]; intros Hno; rewrite replace_first_unfold.
  - destruct (String.prefix pat "") eqn:E; [|done].
    exfalso. apply Hno. apply prefix_split in E as [r E]. by exists "", r.
  - destruct (String.prefix pat (String c s)) eqn:E.
    + exfalso. apply Hno. apply prefix_split in E as [r E]. by exists "", r.
    + f_equal. apply IH. intros (a & b & ->). apply Hno.
      by exists (String c a), b.
Qed.

(** When the output directory is inside the project directory, the glob is
    its path relative to the project followed by [/**]; when the project
    directory followed by the separator occurs nowhere in the output
    directory, the glob is the whole output directory followed by [/**]. *)
Theorem excludeDistDir_relative (projectDir sep : string) :
  (forall rest, excludeDistDir (projectDir +:+ sep +:+ rest) projectDir sep
                = rest +:+ "/**") /\
  (forall distDir, ~ occurs (projectDir +:+ sep) distDir ->
     excludeDistDir distDir projectDir sep = distDir +:+ "/**").
Proof.
  split.
  - intros rest. unfold excludeDistDir. rewrite replace_first_unfold.
    assert (E : projectDir +:+ sep +:+ rest = (projectDir +:+ sep) +:+ rest).
    { clear. induction projectDir as [|c p IH]; [done|].
      rewrite !append_cons. by f_equal. }
    rewrite E, prefix_append, string_drop_append. done.
  - intros distDir Hno. unfold excludeDistDir. by rewrite replace_first_absent.
Qed.

(** The theorem for a project in [/work/app] with its output in [dist] and
    for an output directory elsewhere. *)
Lemma excludeDistDir_relative_witness :
  excludeDistDir "/work/app/dist" "/work/app" "/" = "dist/**" /\
  excludeDistDir "/tmp/out" "/work/app" "/" = "/tmp/out/**".
Proof.
  destruct (excludeDistDir_relative "/work/app" "/") as [H1 H2]. split.
  - exact (H1 "dist").
  - apply H2. intros (a & b & E).
    assert (Hl : String.length "/tmp/out"
                 = String.length (a +:+ ("/work/app" +:+ "/") +:+ b)) by (by rewrite <- E).
    clear -Hl. revert Hl. rewrite !length_append. simpl. lia.
Defined.

(** *** The assets path of compileJSStream *)

(** The function that the callback of [compileJSStream] in
    createPDSGulpConfig gives to [replace('./assets/', ...)], lines 26-28:
    [relative] and [basename] are those of [this.file]. *)
Definition assets_replacement (relative basename : string) : string :=
  "/" +:+ replace_first relative basename "" +:+ "assets/".

Lemma append_nil_l (r : string) : "" +:+ r = r.
Proof. reflexivity. Qed.

Lemma append_nil_r (r : string) : r +:+ "" = r.
Proof. induction r as [|c r IH]; [done|]. rewrite append_cons. by f_equal. Qed.

Lemma replace_first_last (dir basename : string) :
  (forall a c, dir +:+ basename = a +:+ basename +:+ c -> a = dir) ->
  replace_first (dir +:+ basename) basename "" = dir.
Proof.
  induction dir as [|x dir IH]; intros Hlast; rewrite replace_first_unfold.
  - rewrite append_nil_l.
    assert (E : String.prefix basename basename = true).
    { rewrite <- (append_nil_r basename) at 2. apply prefix_append. }
    rewrite E, append_nil_l. rewrite <- (append_nil_r basename) at 2.
    apply string_drop_append.
  - destruct (String.prefix basename (String x dir +:+ basename)) eqn:E.
    + apply prefix_split in E as [r E]. specialize (Hlast "" r E). done.
    + rewrite append_cons. f_equal. apply IH. intros a c Hac.
      assert (H : String x a = String x dir); [|by injection H].
      apply (Hlast (String x a) c). rewrite !append_cons. by f_equal.
Qed.

(** [compileJSStream] of createPDSGulpConfig ends with the TypeError of
    [commonStream] before its callback is given a stream, so nothing is put
    in place of [./assets/]; the function the callback would give to
    [replace] returns, for a file whose name occurs in its relative path as
    the last segment only, the [assets] directory beside the file, from the
    root: a slash, the directory of the file, [assets/]. *)
Theorem assets_replacement_beside_file :
  make_stream_PDS compileJSStream = Throws /\
  forall dir basename : string,
    (forall a c, dir +:+ basename = a +:+ basename +:+ c -> a = dir) ->
    assets_replacement (dir +:+ basename) basename = "/" +:+ dir +:+ "assets/".
Proof.
  split; [reflexivity|].
  intros dir basename H. unfold assets_replacement. by rewrite replace_first_last.
Qed.

(** The theorem for [lib/index.js]. *)
Lemma assets_replacement_beside_file_witness :
  assets_replacement "lib/index.js" "index.js" = "/lib/assets/".
Proof.
  apply (proj2 assets_replacement_beside_file "lib/" "index.js").
  intros a c E.
  assert (Hl : String.length ("lib/" +:+ "index.js")
               = String.length (a +:+ "index.js" +:+ c)) by (by rewrite E).
  rewrite !length_append in Hl. simpl in Hl.
  do 5 (destruct a as [|? a];
        [try discriminate E|
         rewrite append_cons in E; injection E as <- E]);
    try reflexivity; simpl in Hl; lia.
Defined.

(** *** npmDev: the watchers, the compiler and [close] *)

(** What [npmDev] keeps in [watchers]: a watcher of [gulp.watch], or the
    object whose [close] kills what [compileDTS] returned, which is
    [undefined] ([None]) when there is no tsconfig file. *)
Inductive closable :=
| GulpWatcher (w : nat)
| TscKiller (client : option nat).

(** The closure of [npmDev()], with the watchers made and the compilers
    started so far, the [close()] and [kill()] calls they received and the
    number of TypeErrors raised by a call on [undefined]. *)
Record npm_state := mkNpm {
  npm_watchers : list closable;
  npm_hasClosed : bool;
  npm_made : list nat;
  npm_clients : list nat;
  npm_closeCalls : list nat;
  npm_killed : list nat;
  npm_typeErrors : nat
}.

Definition npm_init : npm_state := mkNpm [] false [] [] [] [] 0.

(** [watcher.close()] on an entry of [watchers]; [None] when it throws. *)
Definition close_one (c : closable) (st : npm_state) : option npm_state :=
  match c with
  | GulpWatcher w =>
      Some (mkNpm (npm_watchers st) (npm_hasClosed st) (npm_made st)
              (npm_clients st) (npm_closeCalls st ++ [w]) (npm_killed st)
              (npm_typeErrors st))
  | TscKiller (Some client) =>
      Some (mkNpm (npm_watchers st) (npm_hasClosed st) (npm_made st)
              (npm_clients st) (npm_closeCalls st) (npm_killed st ++ [client])
              (npm_typeErrors st))
  | TscKiller None => None
  end.

Definition raise_TypeError (st : npm_state) : npm_state :=
  mkNpm (npm_watchers st) (npm_hasClosed st) (npm_made st) (npm_clients st)
    (npm_closeCalls st) (npm_killed st) (S (npm_typeErrors st)).

(** [watchers.forEach(watcher => watcher.close())]: an exception ends the
    loop. *)
Fixpoint close_each (l : list closable) (st : npm_state) : npm_state :=
  match l with
  | [] => st
  | c :: l' =>
      match close_one c st with
      | Some st' => close_each l' st'
      | None => raise_TypeError st
      end
  end.

Inductive npm_event :=
| NpmSourceCode
| NpmCompileDeclarations (tsconfig_exists : bool)
| NpmClose.

#[global] Instance npm_event_eq_dec : EqDecision npm_event.
Proof. solve_decision. Defined.

(** The task [sourceCode] of [npmDev]. *)
Definition npm_sourceCode (st : npm_state) : npm_state :=
  let watcher := length (npm_made st) in
  if negb (npm_hasClosed st)
  then mkNpm (npm_watchers st ++ [GulpWatcher watcher]) (npm_hasClosed st)
         (npm_made st ++ [watcher]) (npm_clients st) (npm_closeCalls st)
         (npm_killed st) (npm_typeErrors st)
  else mkNpm (npm_watchers st) (npm_hasClosed st) (npm_made st ++ [watcher])
         (npm_clients st) (npm_closeCalls st ++ [watcher]) (npm_killed st)
         (npm_typeErrors st).

(** The task [compileDeclarations] of [npmDev]: the compiler is kept for
    [close] or killed at once; without a tsconfig file [compileDTS] returns
    [undefined], and [watcher.kill()] and [watcher.on('exit', ...)] raise a
    TypeError. *)
Definition npm_compileDeclarations (tsconfig_exists : bool) (st : npm_state)
  : npm_state :=
  let client := length (npm_clients st) in
  if tsconfig_exists
  then
    if negb (npm_hasClosed st)
    then mkNpm (npm_watchers st ++ [TscKiller (Some client)]) (npm_hasClosed st)
           (npm_made st) (npm_clients st ++ [client]) (npm_closeCalls st)
           (npm_killed st) (npm_typeErrors st)
    else mkNpm (npm_watchers st) (npm_hasClosed st) (npm_made st)
           (npm_clients st ++ [client]) (npm_closeCalls st)
           (npm_killed st ++ [client]) (npm_typeErrors st)
  else
    if negb (npm_hasClosed st)
    then raise_TypeError
           (mkNpm (npm_watchers st ++ [TscKiller None]) (npm_hasClosed st)
              (npm_made st) (npm_clients st) (npm_closeCalls st) (npm_killed st)
              (npm_typeErrors st))
    else raise_TypeError st.

Definition npm_close (st : npm_state) : npm_state :=
  close_each (npm_watchers st)
    (mkNpm (npm_watchers st) true (npm_made st) (npm_clients st)
       (npm_closeCalls st) (npm_killed st) (npm_typeErrors st)).

Definition npm_step (st : npm_state) (e : npm_event) : npm_state :=
  match e with
  | NpmSourceCode => npm_sourceCode st
  | NpmCompileDeclarations tsconfig_exists => npm_compileDeclarations tsconfig_exists st
  | NpmClose => npm_close st
  end.

Definition npmDev (events : list npm_event) : npm_state :=
  fold_left npm_step events npm_init.

(** An entry of [watchers] received its [close()]. *)
Definition was_closed (st : npm_state) (c : closable) : Prop :=
  match c with
  | GulpWatcher w => w ∈ npm_closeCalls st
  | TscKiller (Some client) => client ∈ npm_killed st
  | TscKiller None => False
  end.

(** What holds of the closure as long as every compiler started: nothing
    in [watchers] is [undefined], no TypeError was raised, whatever was made
    or started is in [watchers] or was closed or killed, and after
    [close()] all of [watchers] were. *)
Definition npm_inv (st : npm_state) : Prop :=
  (TscKiller None ∉ npm_watchers st) /\
  npm_typeErrors st = 0%nat /\
  (forall w, w ∈ npm_made st ->
     GulpWatcher w ∈ npm_watchers st \/ w ∈ npm_closeCalls st) /\
  (forall c, c ∈ npm_clients st ->
     TscKiller (Some c) ∈ npm_watchers st \/ c ∈ npm_killed st) /\
  (npm_hasClosed st = true -> Forall (was_closed st) (npm_watchers st)) /\
  (npm_hasClosed st = false -> npm_closeCalls st = [] /\ npm_killed st = []).

Lemma close_each_spec (l : list closable) : forall st,
  TscKiller None ∉ l ->
  let st' := close_each l st in
  npm_watchers st' = npm_watchers st /\ npm_hasClosed st' = npm_hasClosed st /\
  npm_made st' = npm_made st /\ npm_clients st' = npm_clients st /\
  npm_typeErrors st' = npm_typeErrors st /\
  (forall w, w ∈ npm_closeCalls st' <-> w ∈ npm_closeCalls st \/ GulpWatcher w ∈ l) /\
  (forall c, c ∈ npm_killed st' <-> c ∈ npm_killed st \/ TscKiller (Some c) ∈ l).
Proof.
  induction l as [|c l IH]; intros st Hno; simpl.
  - repeat (split; [done|]). split; intros x; rewrite elem_of_nil; tauto.
  - assert (Hl : TscKiller None ∉ l) by (intros H; apply Hno; by right).
    destruct c as [w|[client|]]; simpl.
    + destruct (IH (mkNpm (npm_watchers st) (npm_hasClosed st) (npm_made st)
                      (npm_clients st) (npm_closeCalls st ++ [w]) (npm_killed st)
                      (npm_typeErrors st)) Hl) as (A & B & C & D & E & F & G).
      simpl in *. repeat (split; [done|]). split.
      * intros x. rewrite F, elem_of_app, list_elem_of_singleton, elem_of_cons.
        split; [intros [[?| ->]|?]|intros [?|[[= ->]|?]]]; auto.
      * intros x. rewrite G, elem_of_cons. split; [intros [?|?]|intros [?|[?|?]]]; auto.
        done.
    + destruct (IH (mkNpm (npm_watchers st) (npm_hasClosed st) (npm_made st)
                      (npm_clients st) (npm_closeCalls st)
                      (npm_killed st ++ [client]) (npm_typeErrors st)) Hl)
        as (A & B & C & D & E & F & G).
      simpl in *. repeat (split; [done|]). split.
      * intros x. rewrite F, elem_of_cons. split; [intros [?|?]|intros [?|[?|?]]]; auto.
        done.
      * intros x. rewrite G, elem_of_app, list_elem_of_singleton, elem_of_cons.
        split; [intros [[?| ->]|?]|intros [?|[[= ->]|?]]]; auto.
    + exfalso. apply Hno. left.
Qed.

Lemma was_closed_mono st st' c :
  (forall w, w ∈ npm_closeCalls st -> w ∈ npm_closeCalls st') ->
  (forall k, k ∈ npm_killed st -> k ∈ npm_killed st') ->
  was_closed st c -> was_closed st' c.
Proof. intros H1 H2. destruct c as [w|[k|]]; simpl; auto. Qed.

Lemma npm_step_inv st e :
  e <> NpmCompileDeclarations false -> npm_inv st -> npm_inv (npm_step st e).
Proof.
  intros He (Hno & Herr & Hm & Hc & Hcl & Hop).
  destruct e as [|[]|]; [| |done|]; simpl.
  - unfold npm_sourceCode. destruct (npm_hasClosed st) eqn:Hh; cbn [negb].
    + split; [done|]. split; [done|]. simpl. split; [|split; [|split; [|done]]].
      * intros w. rewrite !elem_of_app, list_elem_of_singleton.
        intros [Hw| ->]; [|by right; right]. destruct (Hm w Hw); [by left|by right; left].
      * done.
      * intros _. eapply Forall_impl; [exact (Hcl eq_refl)|]. simpl.
        intros c. apply was_closed_mono; simpl; [|done].
        intros w Hw. apply elem_of_app. by left.
    + split; simpl.
      { rewrite elem_of_app, list_elem_of_singleton. intros [?|?]; done. }
      split; [done|]. split; [|split; [|split; [done|]]].
      * intros w. rewrite !elem_of_app, !list_elem_of_singleton.
        intros [Hw| ->]; [|by left; right].
        destruct (Hm w Hw); [by left; left|by right].
      * intros c Hc'. rewrite elem_of_app. destruct (Hc c Hc'); [by left; left|by right].
      * done.
  - unfold npm_compileDeclarations. destruct (npm_hasClosed st) eqn:Hh; cbn [negb].
    + split; [done|]. split; [done|]. simpl. split; [done|]. split; [|split; [|done]].
      * intros c. rewrite !elem_of_app, list_elem_of_singleton.
        intros [Hc'| ->]; [|by right; right]. destruct (Hc c Hc'); [by left|by right; left].
      * intros _. eapply Forall_impl; [exact (Hcl eq_refl)|]. simpl.
        intros c. apply was_closed_mono; simpl; [done|].
        intros k Hk. apply elem_of_app. by left.
    + split; simpl.
      { rewrite elem_of_app, list_elem_of_singleton. intros [?|?]; done. }
      split; [done|]. split; [|split; [|split; [done|]]].
      * intros w Hw. rewrite elem_of_app. destruct (Hm w Hw); [by left; left|by right].
      * intros c. rewrite !elem_of_app, !list_elem_of_singleton.
        intros [Hc'| ->]; [|by left; right].
        destruct (Hc c Hc'); [by left; left|by right].
      * done.
  - unfold npm_close.
    set (st0 := mkNpm _ true _ _ _ _ _).
    destruct (close_each_spec (npm_watchers st) st0 Hno) as (A & B & C & D & E & F & G).
    unfold npm_inv. rewrite A, B, C, D, E. subst st0. cbn [npm_watchers
      npm_hasClosed npm_made npm_clients npm_typeErrors] in *.
    split; [done|]. split; [done|]. split; [|split; [|split; [|done]]].
    + intros w Hw. rewrite F. destruct (Hm w Hw); [by left|by right; left].
    + intros c Hc'. rewrite G. destruct (Hc c Hc'); [by left|by right; left].
    + intros _. apply Forall_forall. intros c Hin.
      destruct c as [w|[k|]]; simpl; [apply F; by right|apply G; by right|done].
Qed.

Lemma npm_step_hasClosed st e :
  npm_inv st ->
  npm_hasClosed (npm_step st e) = npm_hasClosed st || bool_decide (e = NpmClose).
Proof.
  intros (Hno & _). destruct e as [|[]|]; simpl.
  - unfold npm_sourceCode. by destruct (npm_hasClosed st).
  - unfold npm_compileDeclarations. by destruct (npm_hasClosed st).
  - unfold npm_compileDeclarations.
    destruct (npm_hasClosed st) eqn:E; simpl; by rewrite ?E.
  - unfold npm_close.
    destruct (close_each_spec (npm_watchers st)
                (mkNpm (npm_watchers st) true (npm_made st) (npm_clients st)
                   (npm_closeCalls st) (npm_killed st) (npm_typeErrors st)) Hno)
      as (_ & -> & _). simpl. by rewrite orb_true_r.
Qed.

Lemma npm_fold events : forall st,
  Forall (fun e => e <> NpmCompileDeclarations false) events ->
  npm_inv st ->
  npm_inv (fold_left npm_step events st) /\
  npm_hasClosed (fold_left npm_step events st)
  = npm_hasClosed st || bool_decide (NpmClose ∈ events).
Proof.
  induction events as [|e events IH]; intros st Hev Hst; cbn [fold_left].
  - split; [done|].
    rewrite (bool_decide_eq_false_2 (NpmClose ∈ [])) by apply not_elem_of_nil.
    by rewrite orb_false_r.
  - apply Forall_cons in Hev as [He Hev].
    destruct (IH (npm_step st e) Hev (npm_step_inv st e He Hst)) as [H1 H2].
    split; [done|]. rewrite H2, npm_step_hasClosed, <- orb_assoc by done. f_equal.
    rewrite <- bool_decide_or. apply bool_decide_ext.
    rewrite elem_of_cons. split; intros [?|?]; auto.
Qed.

(** In [npmDev()], when the tsconfig file is there each time the
    declarations task starts: once [close()] was called, every watcher made
    by [gulp.watch] has been closed and every compiler started has been
    killed, whatever the order of the task starts, and no call was made on
    [undefined]; before [close()] nothing was closed or killed. *)
Theorem npmDev_close_closes_and_kills (events : list npm_event) :
  Forall (fun e => e <> NpmCompileDeclarations false) events ->
  npm_typeErrors (npmDev events) = 0%nat /\
  (NpmClose ∈ events ->
     (forall w, w ∈ npm_made (npmDev events) -> w ∈ npm_closeCalls (npmDev events)) /\
     (forall c, c ∈ npm_clients (npmDev events) -> c ∈ npm_killed (npmDev events))) /\
  (NpmClose ∉ events ->
     npm_closeCalls (npmDev events) = [] /\ npm_killed (npmDev events) = []).
Proof.
  intros Hev.
  assert (Hinit : npm_inv npm_init).
  { repeat split; try done; try apply not_elem_of_nil;
      intros x H; by apply elem_of_nil in H. }
  destruct (npm_fold events npm_init Hev Hinit)
    as [(Hno & Herr & Hm & Hc & Hcl & Hop) Hh].
  fold (npmDev events) in *. simpl in Hh. split; [done|]. split.
  - intros Hin. rewrite bool_decide_eq_true_2 in Hh by done.
    specialize (Hcl Hh). rewrite Forall_forall in Hcl. split.
    + intros w Hw. destruct (Hm w Hw) as [H|H]; [exact (Hcl _ H)|done].
    + intros c Hc'. destruct (Hc c Hc') as [H|H]; [exact (Hcl _ H)|done].
  - intros Hout. rewrite bool_decide_eq_false_2 in Hh by done. by apply Hop.
Qed.

(** The theorem when the declarations task starts, [close()] is called and
    the source task starts after it. *)
Lemma npmDev_close_closes_and_kills_witness :
  0%nat ∈ npm_killed (npmDev [NpmCompileDeclarations true; NpmClose; NpmSourceCode]) /\
  0%nat ∈ npm_closeCalls (npmDev [NpmCompileDeclarations true; NpmClose; NpmSourceCode]).
Proof.
  destruct (npmDev_close_closes_and_kills
              [NpmCompileDeclarations true; NpmClose; NpmSourceCode])
    as (_ & H & _).
  { repeat constructor; discriminate. }
  destruct H as [H1 H2]; [right; left|]. split.
  - apply H2. vm_compute. left.
  - apply H1. vm_compute. left.
Defined.

End GulpConfig.
